(** * obsidian-link-embed: the metadata-fetch pipeline

    A shallow embedding of [src/embedUtils.ts] ([getFavicon], [renderEmbed],
    [generateEmbedMarkdown], [tryParsers], [embedUrl]) and of
    [src/eventHandlers.ts] ([handleEmbedCodeBlock]). Further parts embed
    [convertUrlToMarkdownLink], [refreshEmbed] and the handlers of the
    refresh, copy and delete buttons, the markdown link command and the
    paste handler of [src/eventHandlers.ts], the paste suggestion
    ([src/suggest.ts]), the link favicon handler of reading mode
    ([src/linkFaviconHandler.ts]) and the favicon decorations of the editor
    ([src/decoration/linkFaviconDecoration.ts]).

    Conventions.
    - JavaScript strings are [string]; the search primitives of
      [String.prototype] work on the list of characters of a string and are
      collected in [Module Js]. Offsets count the characters of [string],
      which are the code units of JavaScript for ASCII text.
    - Numbers that are not offsets (aspect ratios) are finite doubles, each
      taken as the rational it is; a division gives the double nearest to
      the exact quotient, as IEEE 754 has it. [NaN], the infinities and
      quotients beyond the range of doubles are left out.
    - Asynchronous functions are computations in the monad [M]: they read and
      update a [world] (the shared cache, the log of observable effects and a
      counter for fresh object identities) and end [settled]: resolved with
      a value, or rejected with what was thrown.
    - The log is kept newest event first.
    - Everything the sources import from modules that are not part of the
      verified files (the parsers, the templates, the YAML reader) is a
      [Variable] of the section that uses it; the editor is its text. *)

From Stdlib Require Import ZArith QArith Qround Lia Lqa Ascii DecimalString.
From stdpp Require Import base list strings gmap.

Local Open Scope Z_scope.

(** ** JavaScript string primitives *)

Module Js.

Abbreviation chars := String.list_ascii_of_string.
Abbreviation str := String.string_of_list_ascii.

(** [matches_at pat s k]: the characters of [s] from offset [k] on start
    with [pat]. *)
Definition matches_at (pat s : list ascii) (k : nat) : bool :=
  bool_decide (take (length pat) (drop k s) = pat).

(** Candidates [k], [k+1], ..., [k+n-1], in increasing order. *)
Fixpoint search_up (pat s : list ascii) (n k : nat) : option nat :=
  match n with
  | O => None
  | S n' => if matches_at pat s k then Some k else search_up pat s n' (S k)
  end.

(** Candidates [k], [k-1], ..., [0], in decreasing order. *)
Fixpoint search_down (pat s : list ascii) (k : nat) : option nat :=
  if matches_at pat s k then Some k
  else match k with
       | O => None
       | S k' => search_down pat s k'
       end.

(** [String.prototype.indexOf(pat, position)] on character lists: the
    position is clamped to [0 .. length s]. *)
Definition indexOf_chars (pat s : list ascii) (position : nat) : option nat :=
  let start := Nat.min position (length s) in
  search_up pat s (S (length s) - start) start.

(** [String.prototype.lastIndexOf(pat, position)] on character lists: the
    start is clamped to [0 .. length s - length pat]. *)
Definition lastIndexOf_chars (pat s : list ascii) (position : nat) : option nat :=
  search_down pat s (Nat.min position (length s - length pat)).

Definition index_result (r : option nat) : Z :=
  match r with
  | Some k => Z.of_nat k
  | None => -1
  end.

(** [s.indexOf(pat, position)]; [-1] when [pat] is not found. *)
Definition indexOf (s pat : string) (position : Z) : Z :=
  index_result (indexOf_chars (chars pat) (chars s) (Z.to_nat position)).

(** [s.lastIndexOf(pat, position)]; [-1] when [pat] is not found. *)
Definition lastIndexOf (s pat : string) (position : Z) : Z :=
  index_result (lastIndexOf_chars (chars pat) (chars s) (Z.to_nat position)).

(** [s.includes(pat)]. *)
Definition includes (s pat : string) : bool :=
  negb (indexOf s pat 0 =? -1).

(** [s.startsWith(pat)]. *)
Definition startsWith (s pat : string) : bool :=
  matches_at (chars pat) (chars s) 0.

(** [s.substring(start, end)]: both ends are clamped to [0 .. length s] and
    swapped when out of order. *)
Definition substring (s : string) (start end_ : Z) : string :=
  let len := Z.of_nat (length (chars s)) in
  let finalStart := Z.min (Z.max start 0) len in
  let finalEnd := Z.min (Z.max end_ 0) len in
  let from := Z.min finalStart finalEnd in
  let to := Z.max finalStart finalEnd in
  str (take (Z.to_nat (to - from)) (drop (Z.to_nat from) (chars s))).

(** White space and line terminators of the ASCII range (TAB, LF, VT, FF,
    CR, SP). *)
Definition is_white_space (c : ascii) : bool :=
  let n := Ascii.nat_of_ascii c in
  ((9 <=? n)%nat && (n <=? 13)%nat) || (n =? 32)%nat.

Fixpoint drop_leading_space (l : list ascii) : list ascii :=
  match l with
  | [] => []
  | c :: l' => if is_white_space c then drop_leading_space l' else l
  end.

(** [s.trimEnd()]. *)
Definition trimEnd (s : string) : string :=
  str (reverse (drop_leading_space (reverse (chars s)))).

Definition dquote : ascii := Ascii.ascii_of_nat 34.
Definition backslash : ascii := Ascii.ascii_of_nat 92.

(** [s.replace(/dquote/g, backslash dquote)]: every double quote gets a
    backslash in front. *)
Fixpoint escape_quotes_chars (l : list ascii) : list ascii :=
  match l with
  | [] => []
  | c :: l' =>
      if bool_decide (c = dquote)
      then backslash :: dquote :: escape_quotes_chars l'
      else c :: escape_quotes_chars l'
  end.

Definition escapeQuotes (s : string) : string :=
  str (escape_quotes_chars (chars s)).

(** On character lists: [pat] occurs in [s] at offset [k]. *)
Definition occ (pat s : list ascii) (k : nat) : Prop :=
  (k + length pat ≤ length s)%nat ∧ take (length pat) (drop k s) = pat.

(** [pat] occurs in [s] at offset [k]. *)
Definition occurs_at (pat s : string) (k : nat) : Prop :=
  ∃ a b, s = a +:+ pat +:+ b ∧ String.length a = k.

(** [pat] occurs somewhere in [s]. *)
Definition occurs_in (pat s : string) : Prop :=
  ∃ k, occurs_at pat s k.

(** [String(n)] for an integer [n]. *)
Definition integer_to_string (n : Z) : string :=
  NilZero.string_of_int (Z.to_int n).


(** [k] is the first offset from [from] on at which [pat] occurs in [s]. *)
Definition first_from (pat s : string) (from k : nat) : Prop :=
  (from ≤ k)%nat ∧ occurs_at pat s k
  ∧ ∀ j, (from ≤ j < k)%nat → ¬ occurs_at pat s j.

(** [k] is the last offset up to [upto] at which [pat] occurs in [s]. *)
Definition last_upto (pat s : string) (upto k : nat) : Prop :=
  (k ≤ upto)%nat ∧ occurs_at pat s k
  ∧ ∀ j, (k < j ≤ upto)%nat → ¬ occurs_at pat s j.


End Js.

(** ** Values, outcomes and observable effects *)

(** What a [throw] statement carries: an [Error] object with its message, or
    any other value, kept by its [String(...)] form. *)
Inductive thrown :=
| ErrorObject (message : string)
| OtherValue (text : string).

(** A settled promise, or the result of a call that may throw. *)
Inductive settled (A : Type) :=
| Resolved (a : A)
| Rejected (error : thrown).
Arguments Resolved {A} a.
Arguments Rejected {A} error.

(** The record cached for an image: [{width, height, aspectRatio}]. *)
Record ImageDimensions := {
  dim_width : Q;
  dim_height : Q;
  dim_aspectRatio : Q
}.

(** The values that live in the cache ([Map<string, any>]) and in the
    [favicon] field of an embed: strings and image dimension records;
    [undefined] is what [cache.get] gives for an absent key. *)
Inductive jsval :=
| VUndefined
| VString (s : string)
| VDimensions (d : ImageDimensions).

(** JavaScript truthiness of the values above. *)
Definition truthy (v : jsval) : bool :=
  match v with
  | VUndefined => false
  | VString s => negb (bool_decide (s = ""))
  | VDimensions _ => true
  end.

Definition truthy_string (s : string) : bool := negb (bool_decide (s = "")).

(** The plugin settings the verified functions read. *)
Record Settings := {
  useCache : bool;
  enableFavicon : bool;
  respectImageAspectRatio : bool;
  debug : bool;
  delay : Z;
  useMetadataTemplate : bool;
  metadataTemplate : string;
  primary : string;
  backup : string
}.

(** The metadata a parser produces ([data]). *)
Module Metadata.
Record t := {
  title : string;
  image : string;
  description : string;
  url : string;
  favicon : string;
  aspectRatio : option Q
}.
End Metadata.

(** The parsed fields of an embed block ([EmbedInfo]); an absent key is
    [None]. *)
Module EmbedInfo.
Record t := {
  title : option string;
  image : option string;
  description : option string;
  url : option string;
  favicon : option jsval;
  aspectRatio : option Q
}.
End EmbedInfo.

(** The object handed to the HTML template by [renderEmbed]. *)
Record TemplateData := {
  td_title : option string;
  td_image : option string;
  td_description : option string;
  td_url : option string;
  td_respectAR : bool;
  td_calculatedWidth : Z;
  td_favicon : option jsval
}.

(** First argument of [showNotice]: the [Error] itself, or a text. *)
Inductive notice_payload :=
| PayloadError (message : string)
| PayloadText (text : string).

(** [error instanceof Error ? error : prefix + String(error)]. *)
Definition payload_of (prefix : string) (error : thrown) : notice_payload :=
  match error with
  | ErrorObject m => PayloadError m
  | OtherValue t => PayloadText (prefix +:+ t)
  end.

(** Observable effects. *)
Inductive event :=
| ConsoleLog (message : string)
| NoticeCreated (id : nat) (message : string)
| NoticeHidden (id : nat)
| ShowNotice (payload : notice_payload) (context type : string)
| ParserCreated (name : string)
| ParseCalled (name url : string)
| HtmlByElectron (url : string)
| HtmlByRequest (url : string)
| HtmlParsed
| FaviconExtracted
| CacheHas (key : string)
| CacheGet (key : string)
| CacheSet (key : string) (value : jsval)
| ImageToBase64 (path : string)
| ImageProbed (image : string) (withCache : bool)
| Rendered (el newEl : nat) (data : TemplateData)
| HandlersAttached (el : nat)
| ClipboardWriteText (text : string).

(** The state shared by all operations: the plugin's cache, the log of
    effects (newest first) and the next fresh object identity. *)
Record world := World {
  cache : gmap string jsval;
  log : list event;
  fresh : nat
}.

Definition M (A : Type) : Type := world → settled A * world.

Definition ret {A} (a : A) : M A := λ w, (Resolved a, w).
Definition throw {A} (e : thrown) : M A := λ w, (Rejected e, w).
Definition bind {A B} (m : M A) (k : A → M B) : M B :=
  λ w, match m w with
       | (Resolved a, w') => k a w'
       | (Rejected e, w') => (Rejected e, w')
       end.
(** [try { m } catch (error) { handler error }]. *)
Definition try_catch {A} (m : M A) (handler : thrown → M A) : M A :=
  λ w, match m w with
       | (Resolved a, w') => (Resolved a, w')
       | (Rejected e, w') => handler e w'
       end.
(** The result of a call into a collaborator, which may throw. *)
Definition lift {A} (r : settled A) : M A := λ w, (r, w).

Notation "'let*' x := m 'in' k" := (bind m (λ x, k))
  (at level 10, x name, m at level 100, k at level 200, only parsing).
Notation "'let*' ' pat := m 'in' k" := (bind m (λ x, match x with pat => k end))
  (at level 10, pat pattern, m at level 100, k at level 200, only parsing).
Notation "m >> k" := (bind m (λ _, k))
  (at level 100, k at level 200, only parsing).

Definition record_event (e : event) (w : world) : world :=
  World (cache w) (e :: log w) (fresh w).

Definition emit (e : event) : M unit := λ w, (Resolved tt, record_event e w).

Definition when (b : bool) (m : M unit) : M unit := if b then m else ret tt.

(** [if (debug) console.log(message, ...)]. *)
Definition debug_log (dbg : bool) (message : string) : M unit :=
  when dbg (emit (ConsoleLog message)).

(** [showNotice(payload, {debug, context, type})] of [errorUtils]. *)
Definition showNotice (payload : notice_payload) (context type : string) : M unit :=
  emit (ShowNotice payload context type).

(** The world after [m]. *)
Definition exec {A} (m : M A) (w : world) : world := snd (m w).

(** [new Notice(message, ...)]: the notice gets a fresh identity. *)
Definition create_notice (message : string) (w : world) : nat * world :=
  (fresh w, World (cache w) (NoticeCreated (fresh w) message :: log w) (S (fresh w))).

Definition new_Notice (message : string) : M nat :=
  λ w, let '(n, w') := create_notice message w in (Resolved n, w').

(** [if (notice) notice.hide()]. *)
Definition hide_if (notice : option nat) : M unit :=
  match notice with
  | Some n => emit (NoticeHidden n)
  | None => ret tt
  end.

(** [cache.has(key)], [cache.get(key)], [cache.set(key, value)]. *)
Definition cache_has (key : string) : M bool :=
  λ w, (Resolved (bool_decide (is_Some (cache w !! key))), record_event (CacheHas key) w).
Definition cache_get (key : string) : M jsval :=
  λ w, (Resolved (default VUndefined (cache w !! key)), record_event (CacheGet key) w).
Definition cache_set (key : string) (value : jsval) : M unit :=
  λ w, (Resolved tt, World (<[key := value]> (cache w)) (CacheSet key value :: log w) (fresh w)).

(** *** Reading the log *)

(** The notices that were created and not hidden since. *)
Fixpoint open_notices (l : list event) : list nat :=
  match l with
  | [] => []
  | NoticeCreated id _ :: older => id :: open_notices older
  | NoticeHidden id :: older => filter (λ n, n ≠ id) (open_notices older)
  | _ :: older => open_notices older
  end.

(** The open notices once [notice], if any, is hidden. *)
Definition hide_open (notice : option nat) (open : list nat) : list nat :=
  match notice with
  | Some m => filter (λ n, n ≠ m) open
  | None => open
  end.

(** No notice is open in [w] except, possibly, [notice]. *)
Definition only_open (notice : option nat) (w : world) : Prop :=
  ∀ n, n ∈ open_notices (log w) → notice = Some n.

(** The payloads handed to [showNotice], newest first. *)
Fixpoint shown_notices (l : list event) : list notice_payload :=
  match l with
  | [] => []
  | ShowNotice p _ _ :: older => p :: shown_notices older
  | _ :: older => shown_notices older
  end.

(** The parser names handed to [createParser], newest first. *)
Fixpoint instantiated (l : list event) : list string :=
  match l with
  | [] => []
  | ParserCreated name :: older => name :: instantiated older
  | _ :: older => instantiated older
  end.

(** The parser names whose [parse] was called, newest first. *)
Fixpoint invoked (l : list event) : list string :=
  match l with
  | [] => []
  | ParseCalled name _ :: older => name :: invoked older
  | _ :: older => invoked older
  end.

(** All [NoticeCreated] events, newest first. *)
Fixpoint created_notices (l : list event) : list (nat * string) :=
  match l with
  | [] => []
  | NoticeCreated id m :: older => (id, m) :: created_notices older
  | _ :: older => created_notices older
  end.

Definition is_cache_event (e : event) : bool :=
  match e with
  | CacheHas _ | CacheGet _ | CacheSet _ _ => true
  | _ => false
  end.

(** The cache operations in the log, newest first. *)
Fixpoint cache_accesses (l : list event) : list event :=
  match l with
  | [] => []
  | e :: older =>
      if is_cache_event e then e :: cache_accesses older else cache_accesses older
  end.

Definition is_fetch_event (e : event) : bool :=
  match e with
  | ParserCreated _ | ParseCalled _ _ | HtmlByElectron _ | HtmlByRequest _
  | HtmlParsed | FaviconExtracted => true
  | _ => false
  end.

Definition is_enrichment_event (e : event) : bool :=
  match e with
  | ImageToBase64 _ | ImageProbed _ _ => true
  | _ => is_cache_event e || is_fetch_event e
  end.

(** ** [renderEmbed]: the width calculation *)

(** [2^e] for an integer [e]. *)
Definition pow2 (e : Z) : Q :=
  if 0 <=? e then inject_Z (2 ^ e) else 1 # Z.to_pos (2 ^ (- e)).

(** The integer nearest to [x], the even one of two that are equally
    near. *)
Definition round_half_even (x : Q) : Z :=
  let f := Qfloor x in
  match (x - inject_Z f ?= 1 # 2)%Q with
  | Lt => f
  | Gt => f + 1
  | Eq => if Z.even f then f else f + 1
  end.

(** The binary exponent [e] of a number above zero: [2^e <= x < 2^(e+1)]. *)
Definition exponent (x : Q) : Z :=
  let e := Z.log2 (Qnum x) - Z.log2 (Z.pos (Qden x)) in
  if Qle_bool (pow2 e) x then e else e - 1.

(** The double nearest to a number above zero: 53 significant bits, the
    spacing of the doubles no finer than [2^-1074], ties to the even
    significand. *)
Definition nearest_double (x : Q) : Q :=
  let ulp := pow2 (Z.max (exponent x - 52) (-1074)) in
  (inject_Z (round_half_even (x / ulp)) * ulp)%Q.

(** The double that an arithmetic operation returns when its exact result
    is [x] (round to nearest, ties to even). The exact result is taken to
    be within the range of doubles: from [2^1024] on the operation gives
    [Infinity], which is not a number of this model. *)
Definition to_double (x : Q) : Q :=
  let x := Qred x in
  match Qnum x with
  | 0 => 0%Q
  | Z.pos _ => nearest_double x
  | Z.neg _ => (- nearest_double (- x))%Q
  end.

(** [Math.round] of a double: the nearest integer, ties towards
    +infinity. *)
Definition Math_round (x : Q) : Z := Qfloor (x + (1 # 2)).

(** Truthiness of a number: zero is falsy. *)
Definition truthy_number (x : Q) : bool := negb (Qeq_bool x 0).

Definition baseWidth : Z := 160.

(** [aspectRatio ? Math.round((baseWidth * 100) / aspectRatio) : baseWidth * 100];
    the division is the one of doubles. *)
Definition calculatedWidth (aspectRatio : option Q) : Z :=
  match aspectRatio with
  | Some r =>
      if truthy_number r
      then Math_round (to_double (inject_Z (baseWidth * 100) / r))
      else baseWidth * 100
  | None => baseWidth * 100
  end.

Definition templateData (renderInfo : EmbedInfo.t) (imageUrl : option string)
    (aspectRatio : option Q) (settings : Settings) : TemplateData :=
  {| td_title := EmbedInfo.title renderInfo;
     td_image := imageUrl;
     td_description := EmbedInfo.description renderInfo;
     td_url := EmbedInfo.url renderInfo;
     td_respectAR := respectImageAspectRatio settings;
     td_calculatedWidth := calculatedWidth aspectRatio;
     td_favicon := if enableFavicon settings
                   then EmbedInfo.favicon renderInfo
                   else Some (VString "") |}.

(** [renderEmbed]: the template is rendered with [templateData] into a new
    element that replaces [el]; the new element is returned. *)
Definition renderEmbed (renderInfo : EmbedInfo.t) (imageUrl : option string)
    (aspectRatio : option Q) (el : nat) (settings : Settings) : M nat :=
  λ w, let newEl := fresh w in
       (Resolved newEl,
        World (cache w)
              (Rendered el newEl (templateData renderInfo imageUrl aspectRatio settings) :: log w)
              (S (fresh w))).

(** What [tryParsers] resolves to: [{ data, selectedParser }]. *)
Record ParseResult := {
  data : Metadata.t;
  selectedParser : string
}.

(** The object handed to [MarkdownTemplate] by [generateEmbedMarkdown] and
    by [embedUrl]; [md_metadata = None] is the falsy [false] or an absent key. *)
Record MarkdownData := {
  md_title : string;
  md_image : string;
  md_description : string;
  md_url : string;
  md_metadata : option string;
  md_aspectRatio : option Q;
  md_favicon : string
}.

(** ** The editor

    The document of the host editor is its text; positions are
    [{line, ch}] pairs over lines separated by the line feed character. *)

Definition newline_char : ascii := Ascii.ascii_of_nat 10.
Definition newline : string := String newline_char "".
Definition quote : string := String Js.dquote "".

Record EditorPosition := {
  line : nat;
  ch : nat
}.

Fixpoint offsetToPos_chars (l : list ascii) (offset : nat) : nat * nat :=
  match offset, l with
  | O, _ => (O, O)
  | S _, [] => (O, O)
  | S o, c :: l' =>
      let '(ln, col) := offsetToPos_chars l' o in
      if bool_decide (c = newline_char) then (S ln, col)
      else match ln with
           | O => (O, S col)
           | S _ => (ln, col)
           end
  end.

Fixpoint posToOffset_chars (l : list ascii) (ln col : nat) : nat :=
  match l with
  | [] => O
  | c :: l' =>
      match ln with
      | O =>
          match col with
          | O => O
          | S col' =>
              if bool_decide (c = newline_char) then O
              else S (posToOffset_chars l' O col')
          end
      | S ln' =>
          if bool_decide (c = newline_char) then S (posToOffset_chars l' ln' col)
          else S (posToOffset_chars l' ln col)
      end
  end.

(** [editor.offsetToPos(offset)] on the document [text]. *)
Definition offsetToPos (text : string) (offset : Z) : EditorPosition :=
  let '(ln, col) := offsetToPos_chars (Js.chars text) (Z.to_nat offset) in
  {| line := ln; ch := col |}.

(** [editor.posToOffset(pos)]. *)
Definition posToOffset (text : string) (pos : EditorPosition) : nat :=
  posToOffset_chars (Js.chars text) (line pos) (ch pos).

(** [editor.replaceRange(replacement, from, to)]: the new document text. *)
Definition replaceRange (text replacement : string) (from to : EditorPosition) : string :=
  Js.str (take (posToOffset text from) (Js.chars text)
          ++ Js.chars replacement
          ++ drop (posToOffset text to) (Js.chars text)).

(** What [ExEditor.getText] gives: the selected or pasted text and where it
    is in the document. *)
Module Selected.
Record t := {
  can : bool;
  text : string;
  boundary_start : EditorPosition;
  boundary_end : EditorPosition
}.
End Selected.

(** ** Lines of a note

    [content.split('\n')], [lines.join('\n')] and [lines.slice(start, end)]
    as [refreshEmbed] and the button handlers use them. Line numbers are
    natural numbers. *)

(** The lines of a list of characters; the first line is grown in front. *)
Fixpoint split_chars (l : list ascii) : list (list ascii) :=
  match l with
  | [] => [[]]
  | c :: l' =>
      if bool_decide (c = newline_char) then [] :: split_chars l'
      else match split_chars l' with
           | first :: rest => (c :: first) :: rest
           | [] => [[c]]
           end
  end.

(** [s.split('\n')]. *)
Definition split_lines (s : string) : list string :=
  Js.str <$> split_chars (Js.chars s).

(** [lines.join('\n')]. *)
Fixpoint join_lines (lines : list string) : string :=
  match lines with
  | [] => ""
  | l :: rest =>
      match rest with
      | [] => l
      | _ :: _ => l +:+ newline +:+ join_lines rest
      end
  end.

(** A line has no line feed. *)
Definition one_line (s : string) : Prop := newline_char ∉ Js.chars s.

(** [lines.slice(start, end)]; [lines.slice(start)] is [drop start lines]. *)
Definition slice {A} (l : list A) (start end_ : nat) : list A :=
  take (end_ - start) (drop start l).

(** ** [String.prototype.replace] with a string pattern

    The first occurrence of the pattern is replaced; in the replacement
    text a dollar sign followed by a dollar sign, an ampersand, a backtick
    or an apostrophe is a substitution pattern. A string pattern has no
    capture groups, so a dollar sign before a digit or an angle bracket
    stands for itself. *)

Definition dollar : ascii := Ascii.ascii_of_nat 36.
Definition ampersand : ascii := Ascii.ascii_of_nat 38.
Definition apostrophe : ascii := Ascii.ascii_of_nat 39.
Definition backtick : ascii := Ascii.ascii_of_nat 96.

Fixpoint getSubstitution_chars (matched preceding following template : list ascii)
    : list ascii :=
  match template with
  | [] => []
  | c :: rest =>
      if bool_decide (c = dollar) then
        match rest with
        | [] => [c]
        | d :: rest' =>
            if bool_decide (d = dollar)
            then dollar :: getSubstitution_chars matched preceding following rest'
            else if bool_decide (d = ampersand)
            then matched ++ getSubstitution_chars matched preceding following rest'
            else if bool_decide (d = backtick)
            then preceding ++ getSubstitution_chars matched preceding following rest'
            else if bool_decide (d = apostrophe)
            then following ++ getSubstitution_chars matched preceding following rest'
            else c :: getSubstitution_chars matched preceding following rest
        end
      else c :: getSubstitution_chars matched preceding following rest
  end.

Definition getSubstitution (matched preceding following template : string) : string :=
  Js.str (getSubstitution_chars (Js.chars matched) (Js.chars preceding)
            (Js.chars following) (Js.chars template)).

(** [s.replace(pattern, replacement)] for a string [pattern]. *)
Definition replace_first (s pattern replacement : string) : string :=
  let pos := Js.indexOf s pattern 0 in
  if pos =? -1 then s
  else
    let preceding := Js.substring s 0 pos in
    let following :=
      Js.substring s (pos + Z.of_nat (String.length pattern))
        (Z.of_nat (String.length s)) in
    preceding +:+ getSubstitution pattern preceding following replacement +:+ following.

(** [oldEmbed.match(/^(\s+)/)]: the white space a text starts with (the
    empty string when there is no match). *)
Fixpoint leading_space (l : list ascii) : list ascii :=
  match l with
  | [] => []
  | c :: l' => if Js.is_white_space c then c :: leading_space l' else []
  end.

Definition indentation_of (oldEmbed : string) : string :=
  Js.str (leading_space (Js.chars oldEmbed)).

(** [newEmbed.trimEnd().split('\n').map((line) => indentation + line).join('\n')]. *)
Definition indent_lines (indentation newEmbed : string) : string :=
  join_lines ((λ line, indentation +:+ line) <$> split_lines (Js.trimEnd newEmbed)).

(** ** The vault

    The notes of the vault by path. A file is known by its path;
    [vault.read] and [vault.modify] throw for a file that is gone. *)

Definition Vault : Type := gmap string string.

(** [vault.getAbstractFileByPath(path)]; [None] is [null]. *)
Definition getAbstractFileByPath (v : Vault) (path : string) : option string :=
  if bool_decide (is_Some (v !! path)) then Some path else None.

Definition vault_read (v : Vault) (file : string) : settled string :=
  match v !! file with
  | Some content => Resolved content
  | None => Rejected (ErrorObject ("File not found: " +:+ file))
  end.

Definition vault_modify (v : Vault) (file content : string) : settled Vault :=
  match v !! file with
  | Some _ => Resolved (<[file := content]> v)
  | None => Rejected (ErrorObject ("File not found: " +:+ file))
  end.

(** [ctx.getSectionInfo(element)]: the first and the last line of the block
    of an element. *)
Record SectionInfo := {
  lineStart : nat;
  lineEnd : nat
}.

(** The [MarkdownPostProcessorContext] of a rendered block. *)
Record Context := {
  sourcePath : string;
  getSectionInfo : nat → option SectionInfo
}.

(** ** [findOpenParen] of the link favicon decoration *)

Definition open_bracket : ascii := Ascii.ascii_of_nat 91.
Definition close_bracket : ascii := Ascii.ascii_of_nat 93.

(** [text[i]]; [None] is [undefined]. *)
Definition char_at (text : string) (i : Z) : option ascii :=
  if i <? 0 then None else Js.chars text !! Z.to_nat i.

(** The [while (counter > 0)] loop; [None]: the fuel ran out. *)
Fixpoint findOpenParen_loop (fuel : nat) (text : string) (openPos counter : Z)
    : option Z :=
  match fuel with
  | O => None
  | S fuel' =>
      if 0 <? counter then
        let openPos := openPos - 1 in
        match char_at text openPos with
        | None => Some openPos
        | Some c =>
            if bool_decide (c = open_bracket)
            then findOpenParen_loop fuel' text openPos (counter - 1)
            else if bool_decide (c = close_bracket)
            then findOpenParen_loop fuel' text openPos (counter + 1)
            else findOpenParen_loop fuel' text openPos counter
        end
      else Some openPos
  end.

Definition findOpenParen (text : string) (closePos : Z) : option Z :=
  if negb (Js.includes text "[") then Some 0
  else findOpenParen_loop (S (S (Z.to_nat closePos))) text closePos 1.

(** The brackets of a list of characters read from right to left, starting
    with [counter] closing brackets still to be matched: the counter never
    comes down to zero. *)
Fixpoint unmatched (l : list ascii) (counter : nat) : Prop :=
  match l with
  | [] => True
  | c :: l' =>
      if bool_decide (c = open_bracket) then
        match counter with
        | O => False
        | S O => False
        | S counter' => unmatched l' counter'
        end
      else if bool_decide (c = close_bracket) then unmatched l' (S counter)
      else unmatched l' counter
  end.

(** The same reading ends exactly at the end of the list: the last
    character read is the opening bracket that brings the counter to
    zero. *)
Fixpoint closes (l : list ascii) (counter : nat) : Prop :=
  match l with
  | [] => False
  | c :: l' =>
      if bool_decide (c = open_bracket) then
        match counter with
        | O => False
        | S O => l' = []
        | S counter' => closes l' counter'
        end
      else if bool_decide (c = close_bracket) then closes l' (S counter)
      else closes l' counter
  end.

(** ** The paste suggestion ([suggest.ts]) and the paste handler *)

(** [plugin.pasteInfo]. *)
Module PasteInfo.
Record t := {
  trigger : bool;
  text : string
}.
End PasteInfo.

(** The plugin settings the suggestion reads. *)
Record SuggestSettings := {
  defaultPasteAction : string;
  rmDismiss : bool;
  autoEmbedWhenEmpty : bool;
  popup : bool
}.

(** A cursor position whose column was computed by a subtraction. *)
Record Position := {
  pos_line : Z;
  pos_ch : Z
}.

(** [{ start, end }]. *)
Record Boundary := {
  boundary_start : Position;
  boundary_end : Position
}.

(** What a callback of the suggestion starts without awaiting it: nothing,
    [embedUrl(editor, {can: true, text, boundary}, parsers, settings, true)],
    or [this.convertToMarkdownLink()], which calls
    [convertUrlToMarkdownLink(url, parsers, ...)] and replaces the boundary. *)
Inductive launched :=
| NothingLaunched
| EmbedLaunched (text : string) (boundary : Boundary) (parsers : list string)
    (inPlace : bool)
| MarkdownLinkLaunched (url : string) (boundary : Boundary) (parsers : list string).

(** [{ start, end, query }]. *)
Record TriggerInfo := {
  trigger_start : Position;
  trigger_end : Position;
  query : string
}.

Definition getSuggestions (ss : SuggestSettings) : list string :=
  let embedOption := "Create Embed Block" in
  let markdownOption := "Create Markdown Link" in
  let dismissOption := "Dismiss" in
  let isEmbedFirst := bool_decide (defaultPasteAction ss = "embed") in
  let mainOptions :=
    if isEmbedFirst then [embedOption; markdownOption]
    else [markdownOption; embedOption] in
  if rmDismiss ss then mainOptions else dismissOption :: mainOptions.

(** The boundary of the pasted text: it ends at the cursor and starts as
    many columns before it as the text is long. *)
Definition pastedBoundary (cursor : Position) (pasted : string) : Boundary :=
  {| boundary_start :=
       {| pos_line := pos_line cursor;
          pos_ch := pos_ch cursor - Z.of_nat (String.length pasted) |};
     boundary_end := cursor |}.

Definition convertToMarkdownLink (cursor : Position) (pasteInfo : PasteInfo.t)
    (settings : Settings) : launched :=
  MarkdownLinkLaunched (PasteInfo.text pasteInfo)
    (pastedBoundary cursor (PasteInfo.text pasteInfo))
    [primary settings; backup settings].

(** [selectSuggestion(suggestion, event)], with [cursor = editor.getCursor()];
    the suggestion closes afterwards. *)
Definition selectSuggestion (choice : string) (cursor : Position)
    (pasteInfo : PasteInfo.t) (settings : Settings) : launched :=
  if bool_decide (choice = "Create Embed Block") then
    EmbedLaunched (PasteInfo.text pasteInfo)
      (pastedBoundary cursor (PasteInfo.text pasteInfo))
      [primary settings; backup settings] true
  else if bool_decide (choice = "Create Markdown Link") then
    convertToMarkdownLink cursor pasteInfo settings
  else NothingLaunched.

(** [onTrigger(cursor, editor, file)], with [currentCursor =
    editor.getCursor()]: the paste information after the call, what was
    started, and the trigger information ([None] is [null]). *)
Definition onTrigger (cursor currentCursor : Position) (pasteInfo : PasteInfo.t)
    (ss : SuggestSettings) (settings : Settings)
    : PasteInfo.t * launched * option TriggerInfo :=
  if negb (PasteInfo.trigger pasteInfo) then (pasteInfo, NothingLaunched, None)
  else
    let pasteInfo :=
      {| PasteInfo.trigger := false; PasteInfo.text := PasteInfo.text pasteInfo |} in
    if autoEmbedWhenEmpty ss
       && (pos_ch currentCursor - Z.of_nat (String.length (PasteInfo.text pasteInfo)) =? 0)
    then
      (pasteInfo,
       (if bool_decide (defaultPasteAction ss = "markdown")
        then convertToMarkdownLink currentCursor pasteInfo settings
        else EmbedLaunched (PasteInfo.text pasteInfo)
               (pastedBoundary currentCursor (PasteInfo.text pasteInfo))
               [primary settings; backup settings] true),
       None)
    else if negb (popup ss) then (pasteInfo, NothingLaunched, None)
    else
      (pasteInfo, NothingLaunched,
       Some {| trigger_start := cursor; trigger_end := cursor;
               query := PasteInfo.text pasteInfo |}).

(** ** Links in reading mode ([linkFaviconHandler.ts]) *)

(** The plugin settings the link favicon handler reads besides those of
    [getFavicon]. *)
Record LinkFaviconSettings := {
  enableMarkdownLinkFavicon : bool;
  enableMarkdownLinkFaviconInReading : bool;
  showMarkdownLinkFaviconOnAliased : bool;
  showMarkdownLinkFaviconOnPlain : bool;
  markdownLinkFaviconPosition : string
}.

(** A child of an anchor element: text, or a favicon image with its [src]. *)
Inductive child :=
| TextNode (content : string)
| FaviconImg (src : jsval).

(** An anchor element: whether it has the class [external-link], its
    [href], the attributes [data-no-favicon] and [data-link-favicon]
    ([None]: absent) and its children. *)
Record Anchor := {
  externalLink : bool;
  href : string;
  noFavicon : option string;
  linkFavicon : option string;
  children : list child
}.

Definition child_text (c : child) : string :=
  match c with
  | TextNode s => s
  | FaviconImg _ => ""
  end.

(** [link.textContent]. *)
Definition textContent (link : Anchor) : string :=
  foldr (λ c rest, child_text c +:+ rest) "" (children link).

(** Truthiness of an attribute value ([string | null]). *)
Definition truthy_attribute (a : option string) : bool :=
  match a with
  | Some s => truthy_string s
  | None => false
  end.

Definition isDisabled (ls : LinkFaviconSettings) (link : Anchor) : bool :=
  if truthy_attribute (noFavicon link) then true
  else if truthy_attribute (linkFavicon link) then true
  else if Js.includes (textContent link) "|nofavicon" then true
  else
    let isAliased := negb (bool_decide (textContent link = href link)) in
    if negb (showMarkdownLinkFaviconOnAliased ls) && isAliased then true
    else if negb (showMarkdownLinkFaviconOnPlain ls) && negb isAliased then true
    else false.

(** The selector [a.external-link:not([data-link-favicon])]. *)
Definition selected_link (link : Anchor) : bool :=
  externalLink link && negb (bool_decide (is_Some (linkFavicon link))).

(** [link.dataset.linkFavicon = 'true']. *)
Definition mark_processed (link : Anchor) : Anchor :=
  {| externalLink := externalLink link; href := href link;
     noFavicon := noFavicon link; linkFavicon := Some "true";
     children := children link |}.

Definition set_children (link : Anchor) (cs : list child) : Anchor :=
  {| externalLink := externalLink link; href := href link;
     noFavicon := noFavicon link; linkFavicon := linkFavicon link;
     children := cs |}.

(** [link.prepend(faviconImg)] and [link.append(faviconImg)]. *)
Definition prepend (link : Anchor) (img : child) : Anchor :=
  set_children link (img :: children link).
Definition append (link : Anchor) (img : child) : Anchor :=
  set_children link (children link ++ [img]).

(** ** Favicon decorations of the editor ([linkFaviconDecoration.ts]) *)

(** [{ from, to, value }]. *)
Record TokenSpec := {
  token_from : Z;
  token_to : Z;
  token_value : string
}.

(** [Decoration.widget({ widget: new FaviconWidget(favicon), side })]. *)
Record Decoration := {
  faviconUrl : jsval;
  side : Z
}.

(** [{ from, to, deco }]. *)
Record PlacedDecoration := {
  placed_from : Z;
  placed_to : Z;
  deco : Decoration
}.

(** ** The pipeline over its collaborators *)

Section Pipeline.

Set Default Proof Using "Type".

(** [./parsers]: [createParser(name, settings, null)] and the methods of
    the parser objects; each may throw (reject). *)
Variable Parser : Type.
Variable createParser : string → Settings → settled Parser.
(** [parser.debug = debug; parser.location = location; parser.parse(url)] *)
Variable parser_parse : Parser → bool → string → string → settled Metadata.t.
(** [localParser.debug = debug; localParser.getHtmlByElectron(url)]; [None]
    is [null]. *)
Variable getHtmlByElectron : Parser → bool → string → settled (option string).
Variable getHtmlByRequest : Parser → bool → string → settled (option string).
(** [new DOMParser().parseFromString(html, 'text/html')], [new URL(url)]
    and [localParser.getFavicon(doc, urlObj)]. *)
Variable HTMLDocument : Type.
Variable parseFromString : string → HTMLDocument.
Variable URL : Type.
Variable new_URL : string → settled URL.
Variable parser_getFavicon : Parser → bool → HTMLDocument → URL → settled (option string).

(** Truthiness of [string | null]. *)
Definition truthy_opt (s : option string) : bool :=
  match s with
  | Some s => truthy_string s
  | None => false
  end.

(** *** [getFavicon] *)

(** [(await localParser.getHtmlByElectron(url)) ||
    (await localParser.getHtmlByRequest(url))]. *)
Definition fetchHtml (localParser : Parser) (dbg : bool) (url : string)
    : M (option string) :=
  let* byElectron :=
    (emit (HtmlByElectron url) >> lift (getHtmlByElectron localParser dbg url)) in
  if truthy_opt byElectron then ret byElectron
  else emit (HtmlByRequest url) >> lift (getHtmlByRequest localParser dbg url).

(** The body of the [try] block of [getFavicon]. *)
Definition getFavicon_try (url : string) (settings : Settings) (dbg : bool) : M jsval :=
  let* localParser :=
    (emit (ParserCreated "local") >> lift (createParser "local" settings)) in
  let* html := fetchHtml localParser dbg url in
  match html with
  | Some html =>
      if truthy_string html then
        let* doc := (emit HtmlParsed >> ret (parseFromString html)) in
        let* urlObj := lift (new_URL url) in
        let* favicon :=
          (emit FaviconExtracted >> lift (parser_getFavicon localParser dbg doc urlObj)) in
        match favicon with
        | Some favicon =>
            if truthy_string favicon && useCache settings then
              cache_set url (VString favicon) >>
              debug_log dbg "[Link Embed] Cached favicon for:" >>
              ret (VString favicon)
            else if truthy_string favicon then ret (VString favicon)
            else ret (VString "")
        | None => ret (VString "")
        end
      else
        debug_log dbg "[Link Embed] Failed to fetch HTML for favicon:" >>
        ret (VString "")
  | None =>
      debug_log dbg "[Link Embed] Failed to fetch HTML for favicon:" >>
      ret (VString "")
  end.

(** [getFavicon(url, settings, cache, debug)]; the cache is the one of the
    world. *)
Definition getFavicon (url : string) (settings : Settings) (dbg : bool) : M jsval :=
  let* hit := (if useCache settings then cache_has url else ret false) in
  if hit then
    debug_log dbg "[Link Embed] Using cached favicon for:" >>
    cache_get url
  else
    try_catch (getFavicon_try url settings dbg)
      (λ error,
         showNotice (payload_of "Error fetching favicon: " error)
           "Link Embed - Favicon" "error" >>
         ret (VString "")).

(** What [(await getHtmlByElectron(url)) || (await getHtmlByRequest(url))]
    evaluates to. *)
Definition fetchedHtml (localParser : Parser) (dbg : bool) (url : string)
    : settled (option string) :=
  match getHtmlByElectron localParser dbg url with
  | Resolved byElectron =>
      if truthy_opt byElectron then Resolved byElectron
      else getHtmlByRequest localParser dbg url
  | Rejected error => Rejected error
  end.

(** The world in which the [try] block of [getFavicon] starts: the cache was
    asked when caching is enabled. *)
Definition after_cache_check (url : string) (settings : Settings) (w : world) : world :=
  if useCache settings then record_event (CacheHas url) w else w.

(** One way in which the fetch or the parse of [getFavicon] fails with
    [error]: the parser cannot be created, a fetch throws, the URL is
    malformed, or the extraction throws. *)
Inductive favicon_failure (url : string) (settings : Settings) (dbg : bool)
    (error : thrown) : Prop :=
| parser_failed :
    createParser "local" settings = Rejected error →
    favicon_failure url settings dbg error
| fetch_failed (localParser : Parser) :
    createParser "local" settings = Resolved localParser →
    fetchedHtml localParser dbg url = Rejected error →
    favicon_failure url settings dbg error
| url_failed (localParser : Parser) (html : string) :
    createParser "local" settings = Resolved localParser →
    fetchedHtml localParser dbg url = Resolved (Some html) →
    truthy_string html = true →
    new_URL url = Rejected error →
    favicon_failure url settings dbg error
| extraction_failed (localParser : Parser) (html : string) (urlObj : URL) :
    createParser "local" settings = Resolved localParser →
    fetchedHtml localParser dbg url = Resolved (Some html) →
    truthy_string html = true →
    new_URL url = Resolved urlObj →
    parser_getFavicon localParser dbg (parseFromString html) urlObj = Rejected error →
    favicon_failure url settings dbg error.

(** *** [tryParsers] *)

Section TryParsers.

Variable url : string.
Variable selectedParsers : list string.
Variable settings : Settings.
Variable locationInfo : string.

(** The body of the inner [try] block, for the notice of this attempt. *)
Definition attempt (selectedParser : string) (notice : nat) : M ParseResult :=
  let* parser :=
    (emit (ParserCreated selectedParser) >> lift (createParser selectedParser settings)) in
  let* data :=
    (emit (ParseCalled selectedParser url) >>
     lift (parser_parse parser (debug settings) locationInfo url)) in
  debug_log (debug settings) "[Link Embed] Meta data:" >>
  emit (NoticeHidden notice) >>
  ret {| data := data; selectedParser := selectedParser |}.

(** The [while] loop with what follows it inside the outer [try]. The
    result carries the final value of the local variable [notice], which
    the outer [catch] reads. [None]: the fuel ran out. *)
Fixpoint tryParsers_loop (fuel idx : nat) (notice : option nat) (w : world)
  : option (settled ParseResult * option nat * world) :=
  match fuel with
  | O => None
  | S fuel' =>
      if (idx <? length selectedParsers)%nat then
        let selectedParser := nth idx selectedParsers "" in
        let w := exec (debug_log (debug settings) "[Link Embed] Parser:") w in
        let w := exec (hide_if notice) w in
        let '(n, w) :=
          create_notice ("Fetching link metadata using " +:+ selectedParser +:+ "...") w in
        let notice := Some n in
        match attempt selectedParser n w with
        | (Resolved result, w) => Some (Resolved result, notice, w)
        | (Rejected error, w) =>
            let w := exec (showNotice (payload_of "" error) "Link Embed - Parser" "error") w in
            let idx := S idx in
            if (idx =? length selectedParsers)%nat then
              let w := exec (hide_if notice) w in
              Some (Rejected error, notice, w)
            else tryParsers_loop fuel' idx notice w
        end
      else
        let w := exec (hide_if notice) w in
        Some (Rejected (ErrorObject "All parsers failed"), notice, w)
  end.

(** [tryParsers]: the outer [catch] hides the notice once more and
    rethrows. *)
Definition tryParsers (w : world) : option (settled ParseResult * world) :=
  match tryParsers_loop (S (length selectedParsers)) 0 None w with
  | None => None
  | Some (Resolved result, _, w') => Some (Resolved result, w')
  | Some (Rejected error, notice, w') =>
      Some (Rejected error, exec (hide_if notice) w')
  end.

(** What one parser does with [url]: [createParser] followed by [parse]. *)
Definition parser_outcome (name : string) : settled Metadata.t :=
  match createParser name settings with
  | Resolved parser => parser_parse parser (debug settings) locationInfo url
  | Rejected error => Rejected error
  end.

(** [createParser] gives a parser for this name. *)
Definition constructible (name : string) : bool :=
  match createParser name settings with
  | Resolved _ => true
  | Rejected _ => false
  end.

(** The error of a parser that fails on [url]. *)
Definition failure_of (name : string) : option thrown :=
  match parser_outcome name with
  | Resolved _ => None
  | Rejected error => Some error
  end.

End TryParsers.

(** *** [generateEmbedMarkdown] *)

(** [Mustache.render(MarkdownTemplate, data)] of [./constants], and
    [Mustache.render(settings.metadataTemplate, {parser, date, formatDate})],
    which reads the clock. *)
Variable renderMarkdownTemplate : MarkdownData → string.
Variable renderMetadataTemplate : string → string → string.

Definition generateEmbedMarkdown (data : Metadata.t) (settings : Settings)
    (parserName : string) : string :=
  let metadata :=
    if useMetadataTemplate settings
    then renderMetadataTemplate (metadataTemplate settings) parserName
    else "" in
  let escapedData :=
    {| md_title := Js.escapeQuotes (Metadata.title data);
       md_image := Metadata.image data;
       md_description := Js.escapeQuotes (Metadata.description data);
       md_url := Metadata.url data;
       md_metadata := if truthy_string metadata then Some metadata else None;
       md_aspectRatio := Metadata.aspectRatio data;
       md_favicon := if enableFavicon settings then Metadata.favicon data else "" |} in
  renderMarkdownTemplate escapedData +:+ newline.

(** *** [embedUrl] *)

(** [SPINNER] of [./constants]. *)
Variable SPINNER : string.

(** The placeholder id, from the clock reading [now] (milliseconds) and the
    random suffix (up to nine digits in base 36):
    [`embed-${Date.now()}-${Math.random().toString(36).substring(2, 11)}`]. *)
Definition placeholderId (now : Z) (randomSuffix : string) : string :=
  "embed-" +:+ Js.integer_to_string now +:+ "-" +:+ randomSuffix.

(** The dummy block written at the cursor. *)
Definition dummyEmbed (url placeholderId : string) : string :=
  renderMarkdownTemplate
    {| md_title := "Fetching";
       md_image := SPINNER;
       md_description := "Fetching " +:+ url;
       md_url := url;
       md_metadata := Some ("placeholder-id: " +:+ quote +:+ placeholderId +:+ quote);
       md_aspectRatio := None;
       md_favicon := "" |}
  +:+ newline.

Definition cancelled : string :=
  "Dummy preview has been deleted or modified. Replacing is cancelled.".

(** [new Notice(cancelled); return]: the document stays as it is. *)
Definition cancel_replacement (fullText : string) : M string :=
  new_Notice cancelled >> ret fullText.

Definition url_line (url : string) : string :=
  "url: " +:+ quote +:+ url +:+ quote.

(** The replacement step of [embedUrl], on the current document text
    [fullText = editor.getValue()]; the result is the document text after
    the step. *)
Definition replaceDummy (fullText placeholderId url embed selectedParser : string)
    : M string :=
  let placeholderIndex := Js.indexOf fullText placeholderId 0 in
  if placeholderIndex =? -1 then cancel_replacement fullText
  else
    let embedStart := Js.lastIndexOf fullText "```embed" placeholderIndex in
    if embedStart =? -1 then cancel_replacement fullText
    else
      let embedEnd := Js.indexOf fullText "```" placeholderIndex in
      if embedEnd =? -1 then cancel_replacement fullText
      else
        let embedEnd := embedEnd + 3 in
        let dummy := Js.substring fullText embedStart embedEnd in
        let hasUrl := Js.includes dummy (url_line url) in
        if negb hasUrl then cancel_replacement fullText
        else
          let startPos := offsetToPos fullText embedStart in
          let endPos := offsetToPos fullText embedEnd in
          let newText := replaceRange fullText (Js.trimEnd embed) startPos endPos in
          emit (ConsoleLog ("[Link Embed] Parser " +:+ selectedParser +:+ " done")) >>
          ret newText.

(** [embedUrl] once the dummy block is in the document: the parsers are
    tried; [fullText] is the document text found after the awaits (the
    user or other embeds may have edited it meanwhile). [None]: the fuel
    of [tryParsers] ran out. *)
Definition embedUrl_resolve (url : string) (selectedParsers : list string)
    (settings : Settings) (locationInfo placeholderId fullText : string) (w : world)
    : option (settled string * world) :=
  match tryParsers url selectedParsers settings locationInfo w with
  | None => None
  | Some (Resolved r, w) =>
      let embed := generateEmbedMarkdown (data r) settings (selectedParser r) in
      Some (replaceDummy fullText placeholderId url embed (selectedParser r) w)
  | Some (Rejected error, w) =>
      Some ((emit (ConsoleLog "[Link Embed] Error:") >>
             showNotice (payload_of "" error) "Link Embed - Embed URL" "error" >>
             ret fullText) w)
  end.



(** The four ways in which the dummy block can be gone or changed when the
    metadata arrives. *)
Inductive stale_dummy (fullText placeholderId url : string) : Prop :=
| id_absent :
    ¬ Js.occurs_in placeholderId fullText →
    stale_dummy fullText placeholderId url
| no_opening_fence (p : nat) :
    Js.first_from placeholderId fullText 0 p →
    (∀ k, (k ≤ p)%nat → ¬ Js.occurs_at "```embed" fullText k) →
    stale_dummy fullText placeholderId url
| no_closing_fence (p : nat) :
    Js.first_from placeholderId fullText 0 p →
    (∀ k, (p ≤ k)%nat → ¬ Js.occurs_at "```" fullText k) →
    stale_dummy fullText placeholderId url
| url_changed (p s e : nat) :
    Js.first_from placeholderId fullText 0 p →
    Js.last_upto "```embed" fullText p s →
    Js.first_from "```" fullText p e →
    ¬ Js.occurs_in (url_line url) (Js.substring fullText (Z.of_nat s) (Z.of_nat e + 3)) →
    stale_dummy fullText placeholderId url.

(** *** [handleEmbedCodeBlock] *)

(** [parseYaml] of the host, [source.replace(/^\s+|\s+$/gm, '')],
    [imageFileToBase64(vault, path)] and [getImageDimensions(image, cache,
    imageLoadAttempts)] of [./parsers]; the flag of the latter tells whether
    it is given the cache or [null].

    [parseYaml] gives the fields of a block that parses, that is, of a
    source for which the host returns an object whose fields, where
    present, are strings (and a number for the aspect ratio). For any other
    source (the host throws on malformed YAML, returns [null] for an empty
    block, or returns a title, image or description that is no string) the
    first statements of [handleEmbedCodeBlock], which stand outside every
    [try], throw, and the call rejects before it has rendered, fetched or
    logged anything; that path is not part of the model, and what is proved
    of [handleEmbedCodeBlock] is proved of blocks that parse. *)
Variable parseYaml : string → EmbedInfo.t.
Variable stripLineMargins : string → string.
Variable imageFileToBase64 : string → settled (option string).
Variable getImageDimensions : string → bool → settled (option ImageDimensions).
(** Where the block of an element is, for error messages:
    [`${ctx.sourcePath}:${ctx.getSectionInfo(el)?.lineStart + 1}`], or
    [unknown location]. *)
Variable locationOf : nat → string.

(** The two mutable locals of [handleEmbedCodeBlock]. *)
Record Locals := {
  info : EmbedInfo.t;
  originalInfo : EmbedInfo.t
}.

Definition set_image (i : EmbedInfo.t) (v : option string) : EmbedInfo.t :=
  {| EmbedInfo.title := EmbedInfo.title i; EmbedInfo.image := v;
     EmbedInfo.description := EmbedInfo.description i;
     EmbedInfo.url := EmbedInfo.url i; EmbedInfo.favicon := EmbedInfo.favicon i;
     EmbedInfo.aspectRatio := EmbedInfo.aspectRatio i |}.

Definition set_favicon (i : EmbedInfo.t) (v : option jsval) : EmbedInfo.t :=
  {| EmbedInfo.title := EmbedInfo.title i; EmbedInfo.image := EmbedInfo.image i;
     EmbedInfo.description := EmbedInfo.description i;
     EmbedInfo.url := EmbedInfo.url i; EmbedInfo.favicon := v;
     EmbedInfo.aspectRatio := EmbedInfo.aspectRatio i |}.

Definition set_aspectRatio (i : EmbedInfo.t) (v : option Q) : EmbedInfo.t :=
  {| EmbedInfo.title := EmbedInfo.title i; EmbedInfo.image := EmbedInfo.image i;
     EmbedInfo.description := EmbedInfo.description i;
     EmbedInfo.url := EmbedInfo.url i; EmbedInfo.favicon := EmbedInfo.favicon i;
     EmbedInfo.aspectRatio := v |}.

(** [info.title === 'Fetching' && info.image === SPINNER &&
    info.description?.startsWith('Fetching ')]. *)
Definition isDummyEmbed (i : EmbedInfo.t) : bool :=
  bool_decide (EmbedInfo.title i = Some "Fetching")
  && bool_decide (EmbedInfo.image i = Some SPINNER)
  && match EmbedInfo.description i with
     | Some d => Js.startsWith d "Fetching "
     | None => false
     end.

Definition truthy_favicon (v : option jsval) : bool :=
  match v with
  | Some v => truthy v
  | None => false
  end.

Definition truthy_ratio (r : option Q) : bool :=
  match r with
  | Some r => truthy_number r
  | None => false
  end.

(** [dimensions.aspectRatio] of a cached value. *)
Definition aspectRatio_of (v : jsval) : option Q :=
  match v with
  | VDimensions d => Some (dim_aspectRatio d)
  | _ => None
  end.

(** A local image path is converted to a data URL; on failure the path is
    kept. *)
Definition convertLocalImage (settings : Settings) (L : Locals) : M Locals :=
  match EmbedInfo.image (info L) with
  | Some image =>
      if truthy_string image
         && negb (Js.startsWith image "http")
         && negb (Js.startsWith image "data:")
      then
        try_catch
          (let* base64Image :=
             (emit (ImageToBase64 image) >> lift (imageFileToBase64 image)) in
           if truthy_opt base64Image
           then ret {| info := set_image (info L) base64Image;
                       originalInfo := set_image (originalInfo L) base64Image |}
           else ret L)
          (λ error,
             showNotice (payload_of "Failed to convert local image to base64: " error)
               "Link Embed - Image" "error" >>
             ret L)
      else ret L
  | None => ret L
  end.

(** A pending enrichment: it runs when the promises are awaited, after the
    first render, and updates the locals then. (Nothing in the two steps
    below throws before its promise is made, so their outer [try] blocks
    have no effect.) *)
Definition Promise : Type := Locals → M Locals.

(** [getFavicon(info.url, ...).then(...).catch(...)]. *)
Definition faviconPromise (settings : Settings) (url : string) : Promise :=
  λ L,
    try_catch
      (let* favicon := getFavicon url settings (debug settings) in
       let L' := {| info := set_favicon (info L) (Some favicon);
                    originalInfo := set_favicon (originalInfo L) (Some favicon) |} in
       (if useCache settings && truthy favicon
        then cache_set url favicon >>
             debug_log (debug settings) "[Link Embed] Cached favicon for:"
        else ret tt) >>
       ret L')
      (λ error,
         showNotice (payload_of "Error fetching favicon for existing embed: " error)
           "Link Embed - Favicon" "error" >>
         ret L).

(** The favicon step: a spinner for the first render, and the real favicon
    from the cache or from a pending fetch. *)
Definition faviconStep (settings : Settings) (L : Locals) : M (Locals * list Promise) :=
  match EmbedInfo.url (info L) with
  | Some url =>
      if negb (truthy_favicon (EmbedInfo.favicon (info L)))
         && truthy_string url && enableFavicon settings
      then
        debug_log (debug settings) "[Link Embed] Fetching missing favicon for:" >>
        let L := {| info := set_favicon (info L) (Some (VString SPINNER));
                    originalInfo := originalInfo L |} in
        let* hit := (if useCache settings then cache_has url else ret false) in
        if hit then
          let* cachedFavicon := cache_get url in
          debug_log (debug settings) "[Link Embed] Using cached favicon for:" >>
          ret ({| info := set_favicon (info L) (Some cachedFavicon);
                  originalInfo := set_favicon (originalInfo L) (Some cachedFavicon) |},
               [])
        else ret (L, [faviconPromise settings url])
      else ret (L, [])
  | None => ret (L, [])
  end.

(** [getImageDimensions(info.image, ...).then(...).catch(...)], for the
    block of element [el]. *)
Definition aspectRatioPromise (settings : Settings) (el : nat) (image : string) : Promise :=
  λ L,
    try_catch
      (let* dimensions :=
         (emit (ImageProbed image (useCache settings)) >>
          lift (getImageDimensions image (useCache settings))) in
       match dimensions with
       | Some d =>
           let L' := {| info := info L;
                        originalInfo :=
                          set_aspectRatio (originalInfo L) (Some (dim_aspectRatio d)) |} in
           (if useCache settings then cache_set image (VDimensions d) else ret tt) >>
           debug_log (debug settings) "[Link Embed] Calculated image aspect ratio:" >>
           ret L'
       | None => ret L
       end)
      (λ error,
         showNotice
           (payload_of
              ("Error calculating dynamic aspect ratio at " +:+ locationOf el +:+ ": ")
              error)
           "Link Embed - Aspect Ratio" "error" >>
         ret L).

(** The aspect ratio step: ratio 100 for the first render, and the real
    ratio from the cache or from a pending probe. *)
Definition aspectRatioStep (settings : Settings) (el : nat) (L : Locals)
    : M (Locals * list Promise) :=
  match EmbedInfo.image (info L) with
  | Some image =>
      if respectImageAspectRatio settings
         && negb (truthy_ratio (EmbedInfo.aspectRatio (info L)))
         && truthy_string image
      then
        let L := {| info := set_aspectRatio (info L) (Some 100%Q);
                    originalInfo := originalInfo L |} in
        let* hit := (if useCache settings then cache_has image else ret false) in
        if hit then
          let* dimensions := cache_get image in
          let L := if truthy dimensions
                   then {| info := set_aspectRatio (info L) (aspectRatio_of dimensions);
                           originalInfo :=
                             set_aspectRatio (originalInfo L) (aspectRatio_of dimensions) |}
                   else L in
          debug_log (debug settings) "[Link Embed] Using cached image dimensions for:" >>
          ret (L, [])
        else ret (L, [aspectRatioPromise settings el image])
      else ret (L, [])
  | None => ret (L, [])
  end.

(** [Promise.all(promises)]: the pending enrichments settle one after the
    other. *)
Fixpoint settle_all (promises : list Promise) (L : Locals) : M Locals :=
  match promises with
  | [] => ret L
  | p :: rest => let* L' := p L in settle_all rest L'
  end.

(** The three button handlers ([addRefreshButtonHandler],
    [addCopyButtonHandler], [addDeleteButtonHandler]) are attached. *)
Definition addButtonHandlers (el : nat) : M unit := emit (HandlersAttached el).

Definition handleEmbedCodeBlock (source : string) (el : nat) (settings : Settings)
    : M unit :=
  let parsed := parseYaml (stripLineMargins source) in
  if isDummyEmbed parsed then
    renderEmbed parsed (EmbedInfo.image parsed) (Some 1%Q) el settings >>
    ret tt
  else
    let L := {| info := parsed; originalInfo := parsed |} in
    let* L := convertLocalImage settings L in
    let* '(L, faviconPromises) := faviconStep settings L in
    let* '(L, ratioPromises) := aspectRatioStep settings el L in
    let promises := faviconPromises ++ ratioPromises in
    let* newEl :=
      renderEmbed (info L) (EmbedInfo.image (info L))
        (EmbedInfo.aspectRatio (info L)) el settings in
    addButtonHandlers newEl >>
    if (0 <? length promises)%nat then
      try_catch
        (let* L := settle_all promises L in
         let* finalEl :=
           renderEmbed (originalInfo L) (EmbedInfo.image (originalInfo L))
             (EmbedInfo.aspectRatio (originalInfo L)) newEl settings in
         addButtonHandlers finalEl >>
         debug_log (debug settings) "[Link Embed] Final render completed with real values:")
        (λ error,
           showNotice (payload_of "Error during data fetching: " error)
             "Link Embed - Data Fetch" "warning")
    else ret tt.

(** *** [convertUrlToMarkdownLink] and the command that uses it *)

(** [None]: the fuel of [tryParsers] ran out; the resolved value [None] is
    [null]. *)
Definition convertUrlToMarkdownLink (url : string) (selectedParsers : list string)
    (settings : Settings) (w : world) : option (settled (option string) * world) :=
  match tryParsers url selectedParsers settings "create-markdown-link" w with
  | None => None
  | Some (Resolved r, w) =>
      if truthy_string (Metadata.title (data r))
      then Some (Resolved (Some ("[" +:+ Metadata.title (data r) +:+ "](" +:+ url +:+ ")")), w)
      else Some (Resolved None, w)
  | Some (Rejected error, w) =>
      Some ((debug_log (debug settings)
               "Link Embed: Failed to fetch title for markdown link" >>
             ret None) w)
  end.

(** [checkUrlValid] of [./urlUtils]. *)
Variable checkUrlValid : Selected.t → bool.

(** [handleCreateMarkdownLinkCommand] on the document [text]: the document
    after the command. [selected] is what the first statement,
    [await ExEditor.getText(editor, settings.debug)], settles to ([ExEditor]
    is not among the sources); the await stands outside any [try], so when
    it rejects the command rejects with its error. [parsers = None]: the
    optional argument is left out. *)
Definition handleCreateMarkdownLinkCommand (text : string)
    (selected : settled Selected.t) (settings : Settings)
    (parsers : option (list string)) (w : world)
    : option (settled string * world) :=
  match selected with
  | Rejected error => Some (Rejected error, w)
  | Resolved selected =>
      if negb (checkUrlValid selected) then Some (Resolved text, w)
      else
        let url := Selected.text selected in
        let selectedParsers := default [primary settings; backup settings] parsers in
        match convertUrlToMarkdownLink url selectedParsers settings w with
        | None => None
        | Some (Resolved mdLink, w) =>
            match mdLink with
            | Some mdLink =>
                if truthy_string mdLink
                then Some (Resolved (replaceRange text mdLink
                                       (Selected.boundary_start selected)
                                       (Selected.boundary_end selected)), w)
                else Some (Resolved text, w)
            | None => Some (Resolved text, w)
            end
        | Some (Rejected error, w) => Some (Rejected error, w)
        end
  end.

(** *** [refreshEmbed] and the button handlers *)

(** [oldEmbed] of [refreshEmbed] and [embedCode] of the copy handler: the
    lines of the section. *)
Definition sectionText (content : string) (sectionInfo : SectionInfo) : string :=
  let lines := split_lines content in
  let startLine := lineStart sectionInfo in
  let endLine := (lineEnd sectionInfo + 1)%nat in
  join_lines (slice lines startLine endLine).

(** The inner [catch] of [refreshEmbed]. *)
Definition refresh_failed (v : Vault) (error : thrown) : M (bool * Vault) :=
  showNotice (payload_of "All parsers failed to fetch metadata: " error)
    "Link Embed - Refresh" "error" >>
  ret (false, v).

(** [refreshEmbed(url, element, ctx, settings, vault)]: the result and the
    vault after the call. [None]: the fuel of [tryParsers] ran out. *)
Definition refreshEmbed (url : string) (element : nat) (ctx : Context)
    (settings : Settings) (v : Vault) (w : world)
    : option (settled (bool * Vault) * world) :=
  let w := exec (debug_log (debug settings) "[Link Embed] Refreshing embed for URL:") w in
  match getAbstractFileByPath v (sourcePath ctx) with
  | None =>
      Some ((showNotice (PayloadText ("File not found: " +:+ sourcePath ctx))
               "Link Embed - Refresh" "error" >>
             ret (false, v)) w)
  | Some file =>
      match getSectionInfo ctx element with
      | None =>
          Some ((showNotice (PayloadText "Could not get section info")
                   "Link Embed - Refresh" "error" >>
                 ret (false, v)) w)
      | Some sectionInfo =>
          let locationInfo :=
            sourcePath ctx +:+ ":"
            +:+ Js.integer_to_string (Z.of_nat (lineStart sectionInfo)) in
          match vault_read v file with
          | Rejected error =>
              Some ((showNotice (payload_of "Error refreshing embed: " error)
                       "Link Embed - Refresh" "error" >>
                     ret (false, v)) w)
          | Resolved content =>
              let oldEmbed := sectionText content sectionInfo in
              match tryParsers url [primary settings; backup settings] settings
                      locationInfo w with
              | None => None
              | Some (Resolved r, w) =>
                  let newEmbed :=
                    generateEmbedMarkdown (data r) settings (selectedParser r) in
                  let indentation := indentation_of oldEmbed in
                  let indentedNewEmbed := indent_lines indentation newEmbed in
                  let newContent := replace_first content oldEmbed indentedNewEmbed in
                  match vault_modify v file newContent with
                  | Resolved v' =>
                      Some ((debug_log (debug settings)
                               "[Link Embed] Successfully refreshed embed" >>
                             ret (true, v')) w)
                  | Rejected error => Some (refresh_failed v error w)
                  end
              | Some (Rejected error, w) => Some (refresh_failed v error w)
              end
          end
      end
  end.

(** The click handler of the refresh button, attached when the embed has a
    URL. *)
Definition refreshButtonClicked (url : string) (element : nat) (ctx : Context)
    (settings : Settings) (v : Vault) (w : world)
    : option (settled Vault * world) :=
  match refreshEmbed url element ctx settings v w with
  | None => None
  | Some (Resolved (success, v'), w) =>
      Some ((when success
               (showNotice (PayloadText "Embed refreshed successfully")
                  "Link Embed - Refresh" "success") >>
             ret v') w)
  | Some (Rejected error, w) => Some (Rejected error, w)
  end.

(** [navigator.clipboard.writeText(text)]. *)
Variable clipboard_writeText : string → settled unit.

(** The click handler of the copy button: what was handed to the clipboard,
    if anything. *)
Definition copyButtonClicked (element : nat) (ctx : Context) (v : Vault)
    : M (option string) :=
  try_catch
    (match getAbstractFileByPath v (sourcePath ctx) with
     | None =>
         showNotice (PayloadText ("File not found: " +:+ sourcePath ctx))
           "Link Embed - Copy" "error" >>
         ret None
     | Some file =>
         match getSectionInfo ctx element with
         | None =>
             showNotice (PayloadText "Could not get section info")
               "Link Embed - Copy" "error" >>
             ret None
         | Some sectionInfo =>
             let* content := lift (vault_read v file) in
             let embedCode := sectionText content sectionInfo in
             try_catch
               (emit (ClipboardWriteText embedCode) >>
                lift (clipboard_writeText embedCode) >>
                showNotice (PayloadText "Embed code copied to clipboard")
                  "Link Embed - Copy" "success")
               (λ error,
                  showNotice (payload_of "Error copying to clipboard: " error)
                    "Link Embed - Copy" "error") >>
             ret (Some embedCode)
         end
     end)
    (λ error,
       showNotice (payload_of "Error copying embed code: " error)
         "Link Embed - Copy" "error" >>
       ret None).

(** The click handler of the delete button: the vault after the click. *)
Definition deleteButtonClicked (element : nat) (ctx : Context) (v : Vault) : M Vault :=
  try_catch
    (match getAbstractFileByPath v (sourcePath ctx) with
     | None =>
         showNotice (PayloadText ("File not found: " +:+ sourcePath ctx))
           "Link Embed - Delete" "error" >>
         ret v
     | Some file =>
         match getSectionInfo ctx element with
         | None =>
             showNotice (PayloadText "Could not get section info")
               "Link Embed - Delete" "error" >>
             ret v
         | Some sectionInfo =>
             let* content := lift (vault_read v file) in
             let lines := split_lines content in
             let startLine := lineStart sectionInfo in
             let endLine := (lineEnd sectionInfo + 1)%nat in
             let newLines := slice lines 0 startLine ++ drop endLine lines in
             let newContent := join_lines newLines in
             let* v' := lift (vault_modify v file newContent) in
             showNotice (PayloadText "Embed block deleted")
               "Link Embed - Delete" "success" >>
             ret v'
         end
     end)
    (λ error,
       showNotice (payload_of "Error deleting embed block: " error)
         "Link Embed - Delete" "error" >>
       ret v).

(** *** [handleEditorPaste] *)

(** [isUrl] of [./urlUtils]. *)
Variable isUrl : string → bool.

(** [handleEditorPaste(evt, pasteInfo)], for the plain text of the
    clipboard: the paste information after the call. *)
Definition handleEditorPaste (clipboardText : string) (pasteInfo : PasteInfo.t)
    : PasteInfo.t :=
  let pasteInfo := {| PasteInfo.trigger := false; PasteInfo.text := "" |} in
  if isUrl clipboardText
  then {| PasteInfo.trigger := true; PasteInfo.text := clipboardText |}
  else pasteInfo.

(** *** [LinkFaviconHandler.processLinks] *)

(** The body of the loop for one link of the node list. *)
Definition processLink (ls : LinkFaviconSettings) (settings : Settings)
    (link : Anchor) : M Anchor :=
  if isDisabled ls link then ret link
  else
    let link := mark_processed link in
    try_catch
      (let url := href link in
       if negb (truthy_string url) || negb (Js.startsWith url "http") then ret link
       else
         let* favicon := getFavicon url settings (debug settings) in
         if truthy favicon then
           let faviconImg := FaviconImg favicon in
           let link :=
             if bool_decide (markdownLinkFaviconPosition ls = "before")
             then prepend link faviconImg
             else append link faviconImg in
           debug_log (debug settings) "[Link Embed] Added favicon to markdown link:" >>
           ret link
         else ret link)
      (λ error,
         debug_log (debug settings) "[Link Embed] Error adding favicon to link:" >>
         ret link).

(** The loop over the anchors of the element, in document order; the links
    the selector leaves out stay as they are. *)
Fixpoint processEach (ls : LinkFaviconSettings) (settings : Settings)
    (links : list Anchor) : M (list Anchor) :=
  match links with
  | [] => ret []
  | link :: rest =>
      let* link' :=
        (if selected_link link then processLink ls settings link else ret link) in
      let* rest' := processEach ls settings rest in
      ret (link' :: rest')
  end.

(** [processLinks(element, ctx)] on the anchors of the element: the anchors
    after the call. *)
Definition processLinks (ls : LinkFaviconSettings) (settings : Settings)
    (links : list Anchor) : M (list Anchor) :=
  if negb (enableMarkdownLinkFavicon ls) then ret links
  else if negb (enableMarkdownLinkFaviconInReading ls) then ret links
  else processEach ls settings links.

(** *** [FaviconDecorationSet.computeAsyncDecorations] *)

(** The body of the loop for one token, with the decoration cache and the
    decorations collected so far. *)
Definition decorateToken (ls : LinkFaviconSettings) (settings : Settings)
    (token : TokenSpec) (decoCache : gmap string Decoration)
    (decorations : list PlacedDecoration)
    : M (gmap string Decoration * list PlacedDecoration) :=
  let* '(decoCache, deco) :=
    (match decoCache !! token_value token with
     | Some deco => ret (decoCache, Some deco)
     | None =>
         try_catch
           (let* favicon := getFavicon (token_value token) settings (debug settings) in
            if truthy favicon then
              let deco :=
                {| faviconUrl := favicon;
                   side := if bool_decide (markdownLinkFaviconPosition ls = "before")
                           then -1 else 1 |} in
              ret (<[token_value token := deco]> decoCache, Some deco)
            else ret (decoCache, None))
           (λ error,
              debug_log (debug settings) "[Link Embed] Error fetching favicon:" >>
              ret (decoCache, None))
     end) in
  match deco with
  | Some deco =>
      ret (decoCache,
           decorations ++ [{| placed_from := token_from token;
                              placed_to := token_from token; deco := deco |}])
  | None => ret (decoCache, decorations)
  end.

Fixpoint decorateTokens (ls : LinkFaviconSettings) (settings : Settings)
    (tokens : list TokenSpec) (decoCache : gmap string Decoration)
    (decorations : list PlacedDecoration)
    : M (gmap string Decoration * list PlacedDecoration) :=
  match tokens with
  | [] => ret (decoCache, decorations)
  | token :: rest =>
      let* '(decoCache, decorations) :=
        decorateToken ls settings token decoCache decorations in
      decorateTokens ls settings rest decoCache decorations
  end.

(** [computeAsyncDecorations(tokens)]: the decoration cache after the call
    and the decorations handed to [Decoration.set], in the order of the
    tokens ([None] is [null]). *)
Definition computeAsyncDecorations (ls : LinkFaviconSettings) (settings : Settings)
    (tokens : list TokenSpec) (decoCache : gmap string Decoration)
    : M (gmap string Decoration * option (list PlacedDecoration)) :=
  let* '(decoCache, decorations) := decorateTokens ls settings tokens decoCache [] in
  if (length decorations =? 0)%nat then ret (decoCache, None)
  else ret (decoCache, Some decorations).

(** *** What a computation does to the world *)

(** [m] never rejects. *)
Definition resolves {A} (m : M A) : Prop :=
  ∀ w, ∃ a, (m w).1 = Resolved a.

(** [m] only adds to the log, every event it adds satisfies [P], and when
    it resolves its value satisfies [Q]; with [frame] it leaves the cache as
    it is. *)
Definition confined {A} (P : event → Prop) (frame : bool) (Q : A → Prop) (m : M A)
    : Prop :=
  ∀ w, (∃ new, log (m w).2 = new ++ log w ∧ Forall P new)
       ∧ (frame = true → cache (m w).2 = cache w)
       ∧ match (m w).1 with
         | Resolved a => Q a
         | Rejected _ => True
         end.

(** The renders in the log, newest first: the element replaced and the new
    element. *)
Fixpoint renders (l : list event) : list (nat * nat) :=
  match l with
  | [] => []
  | Rendered el newEl _ :: older => (el, newEl) :: renders older
  | _ :: older => renders older
  end.

(** The favicons handed to the template by the renders in the log, newest
    first. *)
Fixpoint rendered_favicons (l : list event) : list (option jsval) :=
  match l with
  | [] => []
  | Rendered _ _ d :: older => td_favicon d :: rendered_favicons older
  | _ :: older => rendered_favicons older
  end.

Definition is_render_event (e : event) : bool :=
  match e with
  | Rendered _ _ _ => true
  | _ => false
  end.

(** Console lines, notices, image conversions and probes, and the
    attachment of handlers. *)
Definition plain_event (e : event) : bool :=
  negb (is_cache_event e) && negb (is_fetch_event e) && negb (is_render_event e).

(** What the events of a call may be, for the settings of the call: the
    plain events always, fetch events where a favicon is fetched, cache
    events when caching is enabled; a call that is to leave the cache as it
    is runs with caching disabled. *)
Record permits (P : event → Prop) (frame : bool) (settings : Settings) : Prop := {
  permits_plain : ∀ e, plain_event e = true → P e;
  permits_fetch : enableFavicon settings = true → ∀ e, is_fetch_event e = true → P e;
  permits_cache : useCache settings = true → ∀ e, is_cache_event e = true → P e;
  permits_frame : frame = true → useCache settings = false
}.

(** Every pending enrichment of the list is confined. *)
Definition promises_confined (P : event → Prop) (frame : bool) (promises : list Promise)
    : Prop :=
  Forall (λ p : Promise, ∀ L, confined P frame (λ _, True) (p L)) promises.

(** What [processLinks] may do to an anchor: nothing; or, for an external
    link that is not disabled, mark it as processed and give it at most one
    favicon image with a truthy source, in front of its children or behind
    them. *)
Definition decorated (ls : LinkFaviconSettings) (link link' : Anchor) : Prop :=
  link' = link
  ∨ (selected_link link = true
     ∧ isDisabled ls link = false
     ∧ ∃ cs, link' = set_children (mark_processed link) cs
             ∧ (cs = children link
                ∨ ∃ icon, truthy icon = true
                          ∧ cs = if bool_decide (markdownLinkFaviconPosition ls = "before")
                                 then FaviconImg icon :: children link
                                 else children link ++ [FaviconImg icon])).

(** An anchor that [processLinks] passes over. *)
Definition passed_over (ls : LinkFaviconSettings) (link : Anchor) : Prop :=
  selected_link link = false ∨ isDisabled ls link = true.

(** The decoration placed for a token: a widget of no width where the
    token starts. *)
Definition placed_at (token : TokenSpec) (d : Decoration) : PlacedDecoration :=
  {| placed_from := token_from token; placed_to := token_from token; deco := d |}.

(** A decoration that [computeAsyncDecorations] makes: its favicon is
    truthy and its side follows the position setting. *)
Definition well_made (ls : LinkFaviconSettings) (d : Decoration) : Prop :=
  truthy (faviconUrl d) = true
  ∧ side d = if bool_decide (markdownLinkFaviconPosition ls = "before") then -1 else 1.

(** ** Properties *)

(** *** Strings as character lists *)

Lemma chars_app (a b : string) : Js.chars (a +:+ b) = Js.chars a ++ Js.chars b.
Proof. induction a as [|c a IH]; simpl; [done | by rewrite IH]. Qed.

Lemma chars_length (s : string) : length (Js.chars s) = String.length s.
Proof. induction s as [|c s IH]; simpl; [done | by rewrite IH]. Qed.

Lemma str_app (a b : list ascii) : Js.str (a ++ b) = Js.str a +:+ Js.str b.
Proof. induction a as [|c a IH]; simpl; [done | by rewrite IH]. Qed.

Lemma str_chars (s : string) : Js.str (Js.chars s) = s.
Proof. apply String.string_of_list_ascii_of_string. Qed.

Lemma chars_str (l : list ascii) : Js.chars (Js.str l) = l.
Proof. apply String.list_ascii_of_string_of_list_ascii. Qed.

Lemma chars_inj (a b : string) : Js.chars a = Js.chars b → a = b.
Proof. intros H. rewrite <- (str_chars a), <- (str_chars b). by rewrite H. Qed.

(** *** Occurrences *)

Lemma occ_decompose (pat s : list ascii) (k : nat) :
  Js.occ pat s k ↔ ∃ a b, s = a ++ pat ++ b ∧ length a = k.
Proof.
  split.
  - intros [Hlen Heq].
    exists (take k s), (drop (k + length pat) s). split.
    + rewrite <- (take_drop k s) at 1. f_equal.
      rewrite <- (take_drop (length pat) (drop k s)) at 1.
      rewrite Heq. f_equal. by rewrite drop_drop.
    + rewrite length_take. lia.
  - intros (a & b & -> & <-). split.
    + rewrite !length_app. lia.
    + rewrite drop_app_length. by rewrite take_app_length.
Qed.

Lemma occurs_at_occ (pat s : string) (k : nat) :
  Js.occurs_at pat s k ↔ Js.occ (Js.chars pat) (Js.chars s) k.
Proof.
  rewrite occ_decompose. split.
  - intros (a & b & -> & <-). exists (Js.chars a), (Js.chars b).
    by rewrite !chars_app, chars_length.
  - intros (a & b & Hs & <-). exists (Js.str a), (Js.str b). split.
    + apply chars_inj. by rewrite !chars_app, !chars_str.
    + by rewrite <- chars_length, chars_str.
Qed.

Lemma matches_at_occ (pat s : list ascii) (k : nat) :
  (k ≤ length s)%nat → Js.matches_at pat s k = true ↔ Js.occ pat s k.
Proof.
  intros Hk. unfold Js.matches_at, Js.occ. rewrite bool_decide_eq_true. split.
  - intros H. split; [|done].
    apply (f_equal length) in H. rewrite length_take, length_drop in H. lia.
  - by intros [_ H].
Qed.

Lemma matches_at_not_occ (pat s : list ascii) (k : nat) :
  (k ≤ length s)%nat → Js.matches_at pat s k = false ↔ ¬ Js.occ pat s k.
Proof.
  intros Hk. rewrite <- matches_at_occ by done.
  destruct (Js.matches_at pat s k); split; try done; tauto.
Qed.

Lemma occ_bound (pat s : list ascii) (k : nat) :
  Js.occ pat s k → (k + length pat ≤ length s)%nat.
Proof. by intros [H _]. Qed.

(** *** The two searches *)

Lemma search_up_Some (pat s : list ascii) (n k i : nat) :
  Js.search_up pat s n k = Some i ↔
  (k ≤ i < k + n)%nat ∧ Js.matches_at pat s i = true
  ∧ ∀ j, (k ≤ j < i)%nat → Js.matches_at pat s j = false.
Proof.
  revert k. induction n as [|n IH]; intros k; simpl.
  - split; [done | lia].
  - destruct (Js.matches_at pat s k) eqn:Hm.
    + split.
      * intros [= <-]. split; [lia|]. split; [done|]. lia.
      * intros (Hi & Hmi & Hmin). f_equal.
        destruct (decide (k = i)) as [|Hne]; [done|].
        rewrite Hmin in Hm by lia. done.
    + rewrite IH. split.
      * intros (Hi & Hmi & Hmin). split; [lia|]. split; [done|].
        intros j Hj. destruct (decide (j = k)) as [->|]; [done|]. apply Hmin. lia.
      * intros (Hi & Hmi & Hmin).
        assert (k ≠ i) by (intros ->; congruence).
        split; [lia|]. split; [done|]. intros j Hj. apply Hmin. lia.
Qed.

Lemma search_up_None (pat s : list ascii) (n k : nat) :
  Js.search_up pat s n k = None ↔
  ∀ j, (k ≤ j < k + n)%nat → Js.matches_at pat s j = false.
Proof.
  revert k. induction n as [|n IH]; intros k; simpl.
  - split; [lia | done].
  - destruct (Js.matches_at pat s k) eqn:Hm.
    + split; [done|]. intros H. rewrite H in Hm by lia. done.
    + rewrite IH. split.
      * intros H j Hj. destruct (decide (j = k)) as [->|]; [done|]. apply H. lia.
      * intros H j Hj. apply H. lia.
Qed.

Lemma search_down_Some (pat s : list ascii) (k i : nat) :
  Js.search_down pat s k = Some i ↔
  (i ≤ k)%nat ∧ Js.matches_at pat s i = true
  ∧ ∀ j, (i < j ≤ k)%nat → Js.matches_at pat s j = false.
Proof.
  induction k as [|k IH]; simpl.
  - destruct (Js.matches_at pat s 0) eqn:Hm.
    + split.
      * intros [= <-]. split; [lia|]. split; [done|]. lia.
      * intros (Hi & _). f_equal. lia.
    + split; [done|]. intros (Hi & Hmi & _).
      assert (i = 0)%nat as -> by lia. congruence.
  - destruct (Js.matches_at pat s (S k)) eqn:Hm.
    + split.
      * intros [= <-]. split; [lia|]. split; [done|]. lia.
      * intros (Hi & Hmi & Hmax). f_equal.
        destruct (decide (S k = i)) as [|Hne]; [done|].
        rewrite Hmax in Hm by lia. done.
    + rewrite IH. split.
      * intros (Hi & Hmi & Hmax). split; [lia|]. split; [done|].
        intros j Hj. destruct (decide (j = S k)) as [->|]; [done|]. apply Hmax. lia.
      * intros (Hi & Hmi & Hmax).
        assert (S k ≠ i) by (intros <-; congruence).
        split; [lia|]. split; [done|]. intros j Hj. apply Hmax. lia.
Qed.

Lemma search_down_None (pat s : list ascii) (k : nat) :
  Js.search_down pat s k = None ↔
  ∀ j, (j ≤ k)%nat → Js.matches_at pat s j = false.
Proof.
  induction k as [|k IH]; simpl.
  - destruct (Js.matches_at pat s 0) eqn:Hm.
    + split; [done|]. intros H. rewrite H in Hm by lia. done.
    + split; [|done]. intros _ j Hj. by assert (j = 0)%nat as -> by lia.
  - destruct (Js.matches_at pat s (S k)) eqn:Hm.
    + split; [done|]. intros H. rewrite H in Hm by lia. done.
    + rewrite IH. split.
      * intros H j Hj. destruct (decide (j = S k)) as [->|]; [done|]. apply H. lia.
      * intros H j Hj. apply H. lia.
Qed.

(** *** [indexOf], [lastIndexOf], [includes], [substring] *)

Lemma indexOf_chars_Some (pat s : list ascii) (pos i : nat) :
  Js.indexOf_chars pat s pos = Some i ↔
  (Nat.min pos (length s) ≤ i)%nat ∧ Js.occ pat s i
  ∧ ∀ j, (Nat.min pos (length s) ≤ j < i)%nat → ¬ Js.occ pat s j.
Proof.
  unfold Js.indexOf_chars. rewrite search_up_Some. split.
  - intros (Hi & Hm & Hmin).
    assert (i ≤ length s)%nat by lia.
    split; [lia|]. split; [by apply matches_at_occ|].
    intros j Hj. apply matches_at_not_occ; [lia|]. by apply Hmin.
  - intros (Hi & Ho & Hmin). pose proof (occ_bound _ _ _ Ho).
    split; [lia|]. split; [apply matches_at_occ; [lia | done]|].
    intros j Hj. apply matches_at_not_occ; [lia|]. by apply Hmin.
Qed.

Lemma indexOf_chars_None (pat s : list ascii) (pos : nat) :
  Js.indexOf_chars pat s pos = None ↔
  ∀ j, (Nat.min pos (length s) ≤ j)%nat → ¬ Js.occ pat s j.
Proof.
  unfold Js.indexOf_chars. rewrite search_up_None. split.
  - intros H j Hj Ho. pose proof (occ_bound _ _ _ Ho).
    apply matches_at_occ in Ho; [|lia]. rewrite H in Ho; [done | lia].
  - intros H j Hj. apply matches_at_not_occ; [lia|]. apply H. lia.
Qed.

Lemma lastIndexOf_chars_Some (pat s : list ascii) (pos i : nat) :
  Js.lastIndexOf_chars pat s pos = Some i ↔
  (i ≤ pos)%nat ∧ Js.occ pat s i ∧ ∀ j, (i < j ≤ pos)%nat → ¬ Js.occ pat s j.
Proof.
  unfold Js.lastIndexOf_chars. rewrite search_down_Some. split.
  - intros (Hi & Hm & Hmax).
    split; [lia|]. split; [apply matches_at_occ; [lia | done]|].
    intros j Hj Ho. pose proof (occ_bound _ _ _ Ho).
    apply matches_at_occ in Ho; [|lia]. rewrite Hmax in Ho; [done | lia].
  - intros (Hi & Ho & Hmax). pose proof (occ_bound _ _ _ Ho).
    split; [lia|]. split; [apply matches_at_occ; [lia | done]|].
    intros j Hj. apply matches_at_not_occ; [lia|]. apply Hmax. lia.
Qed.

Lemma lastIndexOf_chars_None (pat s : list ascii) (pos : nat) :
  Js.lastIndexOf_chars pat s pos = None ↔
  ∀ j, (j ≤ pos)%nat → ¬ Js.occ pat s j.
Proof.
  unfold Js.lastIndexOf_chars. rewrite search_down_None. split.
  - intros H j Hj Ho. pose proof (occ_bound _ _ _ Ho).
    apply matches_at_occ in Ho; [|lia]. rewrite H in Ho; [done | lia].
  - intros H j Hj. apply matches_at_not_occ; [lia|]. apply H. lia.
Qed.

Lemma occurs_at_bound (pat s : string) (k : nat) :
  Js.occurs_at pat s k → (k + String.length pat ≤ String.length s)%nat.
Proof.
  rewrite occurs_at_occ. intros H%occ_bound. by rewrite !chars_length in H.
Qed.

(** [indexOf] finds the first occurrence from the position on, and answers
    [-1] exactly when there is none. *)
Lemma indexOf_spec (s pat : string) (from : nat) :
  (from ≤ String.length s)%nat →
  (Js.indexOf s pat (Z.of_nat from) = -1
   ∧ ∀ k, (from ≤ k)%nat → ¬ Js.occurs_at pat s k)
  ∨ (∃ k, Js.indexOf s pat (Z.of_nat from) = Z.of_nat k
          ∧ Js.first_from pat s from k).
Proof.
  intros Hfrom. unfold Js.indexOf. rewrite Nat2Z.id.
  assert (Nat.min from (length (Js.chars s)) = from) as Hmin
    by (rewrite chars_length; lia).
  destruct (Js.indexOf_chars (Js.chars pat) (Js.chars s) from) as [k|] eqn:E.
  - right. exists k. split; [done|].
    apply indexOf_chars_Some in E as (Hk & Ho & Hfirst). rewrite Hmin in *.
    split; [done|]. split; [by apply occurs_at_occ|].
    intros j Hj. rewrite occurs_at_occ. by apply Hfirst.
  - left. split; [done|]. intros k Hk. rewrite occurs_at_occ.
    rewrite indexOf_chars_None in E. apply E. lia.
Qed.

(** [lastIndexOf] finds the last occurrence up to the position, and answers
    [-1] exactly when there is none. *)
Lemma lastIndexOf_spec (s pat : string) (upto : nat) :
  (Js.lastIndexOf s pat (Z.of_nat upto) = -1
   ∧ ∀ k, (k ≤ upto)%nat → ¬ Js.occurs_at pat s k)
  ∨ (∃ k, Js.lastIndexOf s pat (Z.of_nat upto) = Z.of_nat k
          ∧ Js.last_upto pat s upto k).
Proof.
  unfold Js.lastIndexOf. rewrite Nat2Z.id.
  destruct (Js.lastIndexOf_chars (Js.chars pat) (Js.chars s) upto) as [k|] eqn:E.
  - right. exists k. split; [done|].
    apply lastIndexOf_chars_Some in E as (Hk & Ho & Hlast).
    split; [done|]. split; [by apply occurs_at_occ|].
    intros j Hj. rewrite occurs_at_occ. by apply Hlast.
  - left. split; [done|]. intros k Hk. rewrite occurs_at_occ.
    rewrite lastIndexOf_chars_None in E. by apply E.
Qed.

Lemma first_from_unique (pat s : string) (from k k' : nat) :
  Js.first_from pat s from k → Js.first_from pat s from k' → k = k'.
Proof.
  intros (H1 & H2 & H3) (H1' & H2' & H3').
  destruct (decide (k < k')%nat); [exfalso; apply (H3' k); [lia | done]|].
  destruct (decide (k' < k)%nat); [exfalso; apply (H3 k'); [lia | done]|].
  lia.
Qed.

Lemma last_upto_unique (pat s : string) (upto k k' : nat) :
  Js.last_upto pat s upto k → Js.last_upto pat s upto k' → k = k'.
Proof.
  intros (H1 & H2 & H3) (H1' & H2' & H3').
  destruct (decide (k < k')%nat); [exfalso; apply (H3 k'); [lia | done]|].
  destruct (decide (k' < k)%nat); [exfalso; apply (H3' k); [lia | done]|].
  lia.
Qed.

Lemma indexOf_found (s pat : string) (from k : nat) :
  Js.first_from pat s from k → Js.indexOf s pat (Z.of_nat from) = Z.of_nat k.
Proof.
  intros Hk. pose proof Hk as (Hle & Ho%occurs_at_bound & _).
  destruct (indexOf_spec s pat from) as [[_ Hnone]|(k' & -> & Hk')]; [lia|..].
  - destruct Hk as (? & ? & _). by destruct (Hnone k).
  - f_equal. eapply first_from_unique; eauto.
Qed.

Lemma lastIndexOf_found (s pat : string) (upto k : nat) :
  Js.last_upto pat s upto k → Js.lastIndexOf s pat (Z.of_nat upto) = Z.of_nat k.
Proof.
  intros Hk.
  destruct (lastIndexOf_spec s pat upto) as [[_ Hnone]|(k' & -> & Hk')].
  - destruct Hk as (? & ? & _). by destruct (Hnone k).
  - f_equal. eapply last_upto_unique; eauto.
Qed.

Lemma includes_occurs_in (s pat : string) :
  Js.includes s pat = true ↔ Js.occurs_in pat s.
Proof.
  unfold Js.includes, Js.occurs_in.
  destruct (indexOf_spec s pat 0) as [[E Hnone]|(k & E & Hk)]; [lia|..];
    change (Z.of_nat 0) with 0 in E; rewrite E.
  - split; [done|]. intros [k Hk]. destruct (Hnone k); [lia | done].
  - split; [|intros _; simpl; apply negb_true_iff, Z.eqb_neq; lia].
    intros _. exists k. by destruct Hk as (_ & ? & _).
Qed.

(** The substring between two offsets of a text cut in three. *)
Lemma substring_middle (a b c : string) :
  Js.substring (a +:+ b +:+ c)
    (Z.of_nat (String.length a))
    (Z.of_nat (String.length a + String.length b)) = b.
Proof.
  unfold Js.substring. rewrite !chars_app, !length_app, !chars_length.
  set (la := String.length a). set (lb := String.length b).
  set (lc := String.length c).
  replace (Z.min (Z.max (Z.of_nat la) 0) (Z.of_nat (la + (lb + lc))))
    with (Z.of_nat la) by lia.
  replace (Z.min (Z.max (Z.of_nat (la + lb)) 0) (Z.of_nat (la + (lb + lc))))
    with (Z.of_nat (la + lb)) by lia.
  replace (Z.min (Z.of_nat la) (Z.of_nat (la + lb))) with (Z.of_nat la) by lia.
  replace (Z.max (Z.of_nat la) (Z.of_nat (la + lb))) with (Z.of_nat (la + lb)) by lia.
  replace (Z.to_nat (Z.of_nat (la + lb) - Z.of_nat la)) with lb by lia.
  rewrite Nat2Z.id. subst la lb. rewrite <- !chars_length.
  rewrite drop_app_length, take_app_length. apply str_chars.
Qed.

(** *** Occurrences in concatenations *)







(** *** The editor: offsets and positions *)

Lemma posToOffset_offsetToPos_chars (l : list ascii) (o : nat) :
  (o ≤ length l)%nat →
  posToOffset_chars l (offsetToPos_chars l o).1 (offsetToPos_chars l o).2 = o.
Proof.
  revert o. induction l as [|c l IH]; intros o Ho.
  - simpl in Ho. assert (o = 0)%nat as -> by lia. done.
  - destruct o as [|o]; [done|]. simpl in Ho.
    specialize (IH o ltac:(lia)). simpl.
    destruct (offsetToPos_chars l o) as [ln col]. simpl in IH.
    destruct (bool_decide (c = newline_char)) eqn:Hc; simpl.
    + by rewrite IH.
    + destruct ln; simpl; rewrite ?Hc; by rewrite IH.
Qed.

Lemma posToOffset_offsetToPos (text : string) (o : nat) :
  (o ≤ String.length text)%nat →
  posToOffset text (offsetToPos text (Z.of_nat o)) = o.
Proof.
  intros Ho. unfold posToOffset, offsetToPos. rewrite Nat2Z.id.
  pose proof (posToOffset_offsetToPos_chars (Js.chars text) o) as H.
  rewrite chars_length in H. specialize (H Ho).
  by destruct (offsetToPos_chars (Js.chars text) o).
Qed.

(** Replacing the range between two offsets of a text cut in three. *)
Lemma replaceRange_middle (a b c replacement : string) :
  replaceRange (a +:+ b +:+ c) replacement
    (offsetToPos (a +:+ b +:+ c) (Z.of_nat (String.length a)))
    (offsetToPos (a +:+ b +:+ c) (Z.of_nat (String.length a + String.length b)))
  = a +:+ replacement +:+ c.
Proof.
  set (text := a +:+ b +:+ c). unfold replaceRange.
  assert (String.length text = String.length a + String.length b + String.length c)%nat
    as Hlen.
  { unfold text. rewrite <- !chars_length, !chars_app, !length_app. lia. }
  rewrite !posToOffset_offsetToPos by lia.
  unfold text. rewrite !chars_app, <- !chars_length.
  rewrite take_app_length.
  rewrite drop_app_add, drop_app_length.
  rewrite !str_app, !str_chars. done.
Qed.

(** *** Occurrences in strings *)

Lemma string_app_assoc (a b c : string) : (a +:+ b) +:+ c = a +:+ b +:+ c.
Proof. apply chars_inj. by rewrite !chars_app, app_assoc. Qed.

Lemma string_length_app (a b : string) :
  String.length (a +:+ b) = (String.length a + String.length b)%nat.
Proof. by rewrite <- !chars_length, chars_app, length_app. Qed.



Lemma occurs_at_here (pat a c : string) :
  Js.occurs_at pat (a +:+ pat +:+ c) (String.length a).
Proof. by exists a, c. Qed.

Lemma occurs_at_empty (s : string) : Js.occurs_at "" s 0.
Proof. by exists "", s. Qed.


(** *** The fences *)



(** *** [embedUrl]: the replacement step *)






(** C4. In the replacement step of [embedUrl], for every current document
    text: if the placeholder id is absent, or no opening embed fence is
    found at or before the id, or no closing fence is found at or after the
    id, or the block located between the two fences does not contain the
    line of the expected URL, then the replacement is aborted: the document
    text is unchanged and the only effect is the notice that the dummy
    preview was deleted or modified. *)
Theorem replaceDummy_cancels (fullText X u embed sel : string) (w : world) :
  stale_dummy fullText X u →
  replaceDummy fullText X u embed sel w =
    (Resolved fullText,
     World (cache w) (NoticeCreated (fresh w) cancelled :: log w) (S (fresh w))).
Proof.
  intros Hstale. unfold replaceDummy. cbv zeta. change 0 with (Z.of_nat 0).
  destruct Hstale as [Habsent | p Hp Hnone | p Hp Hnone | p s e Hp Hs He Hurl].
  - destruct (indexOf_spec fullText X 0 ltac:(lia)) as [[-> _]|(k & _ & _ & Hk & _)];
      [done|]. destruct Habsent. by exists k.
  - rewrite (indexOf_found _ _ _ _ Hp).
    destruct (Z.eqb_spec (Z.of_nat p) (-1)); [lia|].
    destruct (lastIndexOf_spec fullText "```embed" p)
      as [[-> _]|(k & _ & Hk & Ho & _)]; [done|].
    by destruct (Hnone k).
  - rewrite (indexOf_found _ _ _ _ Hp).
    destruct (Z.eqb_spec (Z.of_nat p) (-1)); [lia|].
    destruct (Z.eqb_spec (Js.lastIndexOf fullText "```embed" (Z.of_nat p)) (-1));
      [done|].
    assert (p ≤ String.length fullText)%nat as Hbound
      by (destruct Hp as (_ & Ho%occurs_at_bound & _); lia).
    destruct (indexOf_spec fullText "```" p Hbound)
      as [[-> _]|(k & _ & Hk & Ho & _)]; [done|].
    by destruct (Hnone k).
  - rewrite (indexOf_found _ _ _ _ Hp), (lastIndexOf_found _ _ _ _ Hs),
      (indexOf_found _ _ _ _ He).
    destruct (Z.eqb_spec (Z.of_nat p) (-1)); [lia|].
    destruct (Z.eqb_spec (Z.of_nat s) (-1)); [lia|].
    destruct (Z.eqb_spec (Z.of_nat e) (-1)); [lia|].
    destruct (Js.includes _ (url_line u)) eqn:Hinc; [|done].
    apply includes_occurs_in in Hinc. done.
Qed.

(** *** [tryParsers] *)

Section TryParsersProperties.

Variable url : string.
Variable selectedParsers : list string.
Variable settings : Settings.
Variable locationInfo : string.

Local Abbreviation loop := (tryParsers_loop url selectedParsers settings locationInfo).
Local Abbreviation outcome_of := (parser_outcome url settings locationInfo).
Local Abbreviation failure := (failure_of url settings locationInfo).

Lemma open_after_success (n : nat) (notice : option nat) (l : list nat) :
  (∀ x, x ∈ l → notice = Some x) →
  filter (λ x, x ≠ n) (n :: hide_open notice l) = [].
Proof.
  intros Hl. apply elem_of_nil_inv. intros x.
  rewrite list_elem_of_filter, elem_of_cons.
  intros [Hne [->|Hx]]; [done|].
  destruct notice as [m|]; simpl in Hx.
  - apply list_elem_of_filter in Hx as [Hm Hx]. apply Hl in Hx. congruence.
  - apply Hl in Hx. done.
Qed.

Lemma open_after_failure (n : nat) (notice : option nat) (l : list nat) (x : nat) :
  (∀ x, x ∈ l → notice = Some x) →
  x ∈ n :: hide_open notice l → Some n = Some x.
Proof.
  intros Hl. rewrite elem_of_cons. intros [->|Hx]; [done|].
  destruct notice as [m|]; simpl in Hx.
  - apply list_elem_of_filter in Hx as [Hm Hx]. apply Hl in Hx. congruence.
  - apply Hl in Hx. done.
Qed.

Lemma loop_unfold (fuel idx : nat) (notice : option nat) (w : world) :
  loop (S fuel) idx notice w =
  if (idx <? length selectedParsers)%nat then
    let selectedParser := nth idx selectedParsers "" in
    let w := exec (debug_log (debug settings) "[Link Embed] Parser:") w in
    let w := exec (hide_if notice) w in
    let '(n, w) :=
      create_notice ("Fetching link metadata using " +:+ selectedParser +:+ "...") w in
    let notice := Some n in
    match attempt url settings locationInfo selectedParser n w with
    | (Resolved result, w) => Some (Resolved result, notice, w)
    | (Rejected error, w) =>
        let w := exec (showNotice (payload_of "" error) "Link Embed - Parser" "error") w in
        let idx := S idx in
        if (idx =? length selectedParsers)%nat then
          let w := exec (hide_if notice) w in
          Some (Rejected error, notice, w)
        else loop fuel idx notice w
    end
  else
    let w := exec (hide_if notice) w in
    Some (Rejected (ErrorObject "All parsers failed"), notice, w).
Proof. reflexivity. Qed.

(** A successful attempt ends the loop. *)
Lemma loop_step_success (fuel idx : nat) (notice : option nat) (w : world)
    (name : string) (d : Metadata.t) :
  selectedParsers !! idx = Some name →
  outcome_of name = Resolved d →
  ∃ w', loop (S fuel) idx notice w
        = Some (Resolved {| data := d; selectedParser := name |}, Some (fresh w), w')
    ∧ instantiated (log w') = name :: instantiated (log w)
    ∧ invoked (log w') = name :: invoked (log w)
    ∧ shown_notices (log w') = shown_notices (log w)
    ∧ (only_open notice w → open_notices (log w') = [])
    ∧ length (created_notices (log w')) = S (length (created_notices (log w)))
    ∧ cache w' = cache w.
Proof.
  intros Hidx Hout. pose proof (lookup_lt_Some _ _ _ Hidx) as Hlt.
  apply Nat.ltb_lt in Hlt. rewrite loop_unfold, Hlt, nth_lookup, Hidx.
  unfold parser_outcome in Hout. simpl.
  unfold attempt, bind, emit, lift, ret. simpl.
  destruct (createParser name settings) as [parser|]; [|done].
  rewrite Hout.
  destruct (debug settings), notice as [m|]; simpl; (eexists; split; [reflexivity|]);
    simpl; repeat split; try done; intros Hopen.
  - by apply (open_after_success (fresh w) (Some m)).
  - by apply (open_after_success (fresh w) None).
  - by apply (open_after_success (fresh w) (Some m)).
  - by apply (open_after_success (fresh w) None).
Qed.

(** A failed attempt shows the failure notice; the loop goes on to the next
    parser, or ends when this was the last one. *)
Lemma loop_step_failure (fuel idx : nat) (notice : option nat) (w : world)
    (name : string) (e : thrown) :
  selectedParsers !! idx = Some name →
  outcome_of name = Rejected e →
  ∃ w1, loop (S fuel) idx notice w
        = (if (S idx =? length selectedParsers)%nat
           then Some (Rejected e, Some (fresh w), exec (hide_if (Some (fresh w))) w1)
           else loop fuel (S idx) (Some (fresh w)) w1)
    ∧ instantiated (log w1) = name :: instantiated (log w)
    ∧ invoked (log w1)
      = (if constructible settings name then [name] else []) ++ invoked (log w)
    ∧ shown_notices (log w1) = payload_of "" e :: shown_notices (log w)
    ∧ (only_open notice w → only_open (Some (fresh w)) w1)
    ∧ length (created_notices (log w1)) = S (length (created_notices (log w)))
    ∧ cache w1 = cache w.
Proof.
  intros Hidx Hout. pose proof (lookup_lt_Some _ _ _ Hidx) as Hlt.
  apply Nat.ltb_lt in Hlt. rewrite loop_unfold, Hlt, nth_lookup, Hidx.
  unfold parser_outcome in Hout. unfold constructible. cbv zeta.
  set (last_one := (S idx =? length selectedParsers)%nat). simpl.
  unfold attempt, bind, emit, lift, ret. simpl.
  destruct (createParser name settings) as [parser|e'].
  - rewrite Hout.
    destruct (debug settings), notice as [m|]; simpl; (eexists; split; [reflexivity|]);
      simpl; repeat split; try done; intros Hopen x Hx.
    + by apply (open_after_failure (fresh w) (Some m) (open_notices (log w))).
    + by apply (open_after_failure (fresh w) None (open_notices (log w))).
    + by apply (open_after_failure (fresh w) (Some m) (open_notices (log w))).
    + by apply (open_after_failure (fresh w) None (open_notices (log w))).
  - injection Hout as ->.
    destruct (debug settings), notice as [m|]; simpl; (eexists; split; [reflexivity|]);
      simpl; repeat split; try done; intros Hopen x Hx.
    + by apply (open_after_failure (fresh w) (Some m) (open_notices (log w))).
    + by apply (open_after_failure (fresh w) None (open_notices (log w))).
    + by apply (open_after_failure (fresh w) (Some m) (open_notices (log w))).
    + by apply (open_after_failure (fresh w) None (open_notices (log w))).
Qed.

(** The loop from [idx] on, when the first parser to succeed from there is
    the one at index [k]. *)
Lemma loop_first_success (k : nat) (pk : string) (d : Metadata.t) :
  selectedParsers !! k = Some pk →
  outcome_of pk = Resolved d →
  ∀ (fuel idx : nat) (notice : option nat) (w : world),
    (idx ≤ k)%nat → (k - idx < fuel)%nat →
    (∀ j pj, (idx ≤ j < k)%nat → selectedParsers !! j = Some pj →
             ∃ e, outcome_of pj = Rejected e) →
    ∃ n w', loop fuel idx notice w
            = Some (Resolved {| data := d; selectedParser := pk |}, Some n, w')
      ∧ instantiated (log w')
        = reverse (take (S k - idx) (drop idx selectedParsers)) ++ instantiated (log w)
      ∧ invoked (log w')
        = reverse (filter (constructible settings)
                     (take (S k - idx) (drop idx selectedParsers)))
          ++ invoked (log w)
      ∧ shown_notices (log w')
        = reverse (payload_of "" <$> omap failure (take (k - idx) (drop idx selectedParsers)))
          ++ shown_notices (log w)
      ∧ (only_open notice w → open_notices (log w') = [])
      ∧ length (created_notices (log w'))
        = (S k - idx + length (created_notices (log w)))%nat
      ∧ cache w' = cache w.
Proof.
  intros Hk Hok fuel. induction fuel as [|fuel IH]; intros idx notice w Hidx Hfuel Hfail;
    [lia|].
  destruct (decide (idx = k)) as [->|Hne].
  - destruct (loop_step_success fuel k notice w pk d Hk Hok)
      as (w' & -> & Hi & Hv & Hs & Ho & Hc & Hca).
    exists (fresh w), w'. split; [done|].
    replace (S k - k)%nat with 1%nat by lia. rewrite Nat.sub_diag.
    rewrite (drop_S _ _ _ Hk). simpl.
    assert (constructible settings pk = true) as Hcons.
    { unfold constructible. unfold parser_outcome in Hok.
      by destruct (createParser pk settings). }
    rewrite filter_cons_True by (by rewrite Hcons).
    rewrite take_0, filter_nil. repeat split; done.
  - assert (idx < k)%nat as Hlt by lia.
    pose proof (lookup_lt_Some _ _ _ Hk) as Hklen.
    destruct (lookup_lt_is_Some_2 selectedParsers idx ltac:(lia)) as [pj Hpj].
    destruct (Hfail idx pj ltac:(lia) Hpj) as [e He].
    destruct (loop_step_failure fuel idx notice w pj e Hpj He)
      as (w1 & -> & Hi & Hv & Hs & Ho & Hc & Hca).
    destruct (Nat.eqb_spec (S idx) (length selectedParsers)) as [|_]; [lia|].
    destruct (IH (S idx) (Some (fresh w)) w1 ltac:(lia) ltac:(lia))
      as (n & w' & -> & Hi' & Hv' & Hs' & Ho' & Hc' & Hca').
    { intros j pj' Hj. apply Hfail. lia. }
    exists n, w'. split; [done|].
    replace (S k - idx)%nat with (S (S k - S idx)) by lia.
    replace (k - idx)%nat with (S (k - S idx)) by lia.
    rewrite (drop_S _ _ _ Hpj). simpl.
    assert (failure pj = Some e) as Hf by (unfold failure_of; by rewrite He).
    rewrite Hf. simpl. rewrite !reverse_cons, <- !app_assoc. simpl.
    rewrite Hi', Hi, Hs', Hs, Hv', Hv, Hc', Hc, Hca', Hca.
    repeat split; try done.
    + destruct (constructible settings pj) eqn:Hcons.
      * rewrite filter_cons_True by (by rewrite Hcons).
        by rewrite reverse_cons, <- app_assoc.
      * rewrite filter_cons_False by (rewrite Hcons; exact id). done.
    + intros Hopen. by apply Ho', Ho.
Qed.

Lemma hide_open_only (notice : option nat) (w : world) :
  only_open notice w → hide_open notice (open_notices (log w)) = [].
Proof.
  intros Hopen. apply elem_of_nil_inv. intros x Hx.
  destruct notice as [m|]; simpl in Hx.
  - apply list_elem_of_filter in Hx as [Hm Hx]. apply Hopen in Hx. congruence.
  - apply Hopen in Hx. done.
Qed.

(** The loop from [idx] on, when every parser from there on fails. *)
Lemma loop_exhausts :
  ∀ (fuel idx : nat) (notice : option nat) (w : world),
    (idx < length selectedParsers)%nat →
    (length selectedParsers - idx ≤ fuel)%nat →
    (∀ j pj, (idx ≤ j)%nat → selectedParsers !! j = Some pj →
             ∃ e, outcome_of pj = Rejected e) →
    ∃ e n w', loop fuel idx notice w = Some (Rejected e, Some n, w')
      ∧ (∃ name, last selectedParsers = Some name ∧ outcome_of name = Rejected e)
      ∧ instantiated (log w') = reverse (drop idx selectedParsers) ++ instantiated (log w)
      ∧ shown_notices (log w')
        = reverse (payload_of "" <$> omap failure (drop idx selectedParsers))
          ++ shown_notices (log w)
      ∧ length (omap failure (drop idx selectedParsers))
        = length (drop idx selectedParsers)
      ∧ (only_open notice w → open_notices (log w') = [])
      ∧ length (created_notices (log w'))
        = (length selectedParsers - idx + length (created_notices (log w)))%nat
      ∧ cache w' = cache w.
Proof.
  induction fuel as [|fuel IH]; intros idx notice w Hidx Hfuel Hfail; [lia|].
  destruct (lookup_lt_is_Some_2 selectedParsers idx Hidx) as [pj Hpj].
  destruct (Hfail idx pj ltac:(lia) Hpj) as [e He].
  destruct (loop_step_failure fuel idx notice w pj e Hpj He)
    as (w1 & -> & Hi & _ & Hs & Ho & Hc & Hca).
  assert (failure pj = Some e) as Hf by (unfold failure_of; by rewrite He).
  assert (omap failure (pj :: drop (S idx) selectedParsers)
          = e :: omap failure (drop (S idx) selectedParsers)) as Hom
    by (simpl; by rewrite Hf).
  destruct (Nat.eqb_spec (S idx) (length selectedParsers)) as [Hlast|Hmore];
    rewrite (drop_S _ _ _ Hpj), Hom, fmap_cons, !reverse_cons, <- !app_assoc,
      !length_cons; simpl app.
  - exists e, (fresh w), (exec (hide_if (Some (fresh w))) w1).
    split; [done|]. rewrite drop_ge by lia. simpl.
    rewrite Hi, Hs, Hc, Hca. repeat split; try done; try lia.
    + exists pj. split; [|done]. rewrite last_lookup, <- Hlast. done.
    + intros Hopen. by apply (hide_open_only (Some (fresh w))), Ho.
  - destruct (IH (S idx) (Some (fresh w)) w1 ltac:(lia) ltac:(lia))
      as (e' & n & w' & -> & Hlast & Hi' & Hs' & Hlen & Ho' & Hc' & Hca').
    { intros j pj' Hj. apply Hfail. lia. }
    exists e', n, w'. split; [done|].
    rewrite Hi', Hi, Hs', Hs, Hlen, Hc', Hc, Hca', Hca.
    repeat split; try done; try lia.
    intros Hopen. by apply Ho', Ho.
Qed.

(** The loop always ends, with every notice hidden and the cache as it
    was. *)
Lemma loop_total :
  ∀ (fuel idx : nat) (notice : option nat) (w : world),
    (length selectedParsers - idx < fuel)%nat →
    ∃ r n w', loop fuel idx notice w = Some (r, n, w')
      ∧ (only_open notice w → open_notices (log w') = [])
      ∧ cache w' = cache w.
Proof.
  induction fuel as [|fuel IH]; intros idx notice w Hfuel; [lia|].
  destruct (decide (idx < length selectedParsers)%nat) as [Hidx|Hidx].
  - destruct (lookup_lt_is_Some_2 selectedParsers idx Hidx) as [pj Hpj].
    destruct (outcome_of pj) as [d|e] eqn:Hout.
    + destruct (loop_step_success fuel idx notice w pj d Hpj Hout)
        as (w' & -> & _ & _ & _ & Ho & _ & Hca).
      by eexists _, _, _.
    + destruct (loop_step_failure fuel idx notice w pj e Hpj Hout)
        as (w1 & -> & _ & _ & _ & Ho & _ & Hca).
      destruct (Nat.eqb_spec (S idx) (length selectedParsers)) as [Hlast|Hmore].
      * eexists _, _, _. split; [done|]. split; [|done].
        intros Hopen. by apply (hide_open_only (Some (fresh w))), Ho.
      * destruct (IH (S idx) (Some (fresh w)) w1 ltac:(lia))
          as (r & n & w' & -> & Ho' & Hca').
        eexists _, _, _. split; [done|]. split; [|congruence].
        intros Hopen. by apply Ho', Ho.
  - rewrite loop_unfold. destruct (Nat.ltb_spec idx (length selectedParsers)); [lia|].
    eexists _, _, _. split; [done|]. split.
    + intros Hopen. destruct notice as [m|]; simpl.
      * by apply (hide_open_only (Some m)).
      * by apply (hide_open_only None).
    + by destruct notice.
Qed.

(** C1. For every URL and every list of parser names, if the parser at
    index [k] is the first whose [parse(url)] succeeds (every parser before
    it fails), then [tryParsers] resolves to [{data, selectedParser}] with
    the data of that parser and its name; the parsers handed to
    [createParser] are exactly the first [k+1] names of the list, in order,
    and [parse] is called on those of them that could be created: no later
    parser is instantiated or invoked. *)
Theorem tryParsers_first_success (k : nat) (pk : string) (d : Metadata.t) (w : world) :
  selectedParsers !! k = Some pk →
  outcome_of pk = Resolved d →
  (∀ j pj, (j < k)%nat → selectedParsers !! j = Some pj →
           ∃ e, outcome_of pj = Rejected e) →
  ∃ w', tryParsers url selectedParsers settings locationInfo w
        = Some (Resolved {| data := d; selectedParser := pk |}, w')
    ∧ instantiated (log w')
      = reverse (take (S k) selectedParsers) ++ instantiated (log w)
    ∧ invoked (log w')
      = reverse (filter (constructible settings) (take (S k) selectedParsers))
        ++ invoked (log w)
    ∧ cache w' = cache w.
Proof.
  intros Hk Hok Hfail. pose proof (lookup_lt_Some _ _ _ Hk) as Hlen.
  destruct (loop_first_success k pk d Hk Hok (S (length selectedParsers)) 0 None w
              ltac:(lia) ltac:(lia))
    as (n & w' & Hrun & Hi & Hv & _ & _ & _ & Hca).
  { intros j pj Hj. apply Hfail. lia. }
  exists w'. unfold tryParsers. rewrite Hrun.
  rewrite Nat.sub_0_r, drop_0 in Hi, Hv. done.
Qed.

(** C2 (amended). On every exit path of [tryParsers] (success, failure of
    an attempt, exhaustion) the progress notices are retracted: the call
    ends, and when no notice was open before it none is open after it. For
    every URL and every non-empty list of parser names whose parsers all
    fail on the URL, [tryParsers] rejects with the error of the last parser
    of the list, as that parser threw it; exactly one failure notice was
    shown per parser, in the order of the list, each with the error of its
    parser, and one progress notice was created per parser. *)
Theorem tryParsers_all_fail :
  (∀ w, open_notices (log w) = [] →
        ∃ r w', tryParsers url selectedParsers settings locationInfo w = Some (r, w')
                ∧ open_notices (log w') = [])
  ∧ (selectedParsers ≠ [] →
     (∀ name, name ∈ selectedParsers → ∃ e, outcome_of name = Rejected e) →
     ∀ w, ∃ e w',
       tryParsers url selectedParsers settings locationInfo w = Some (Rejected e, w')
       ∧ (∃ name, last selectedParsers = Some name ∧ outcome_of name = Rejected e)
       ∧ shown_notices (log w')
         = reverse (payload_of "" <$> omap failure selectedParsers)
           ++ shown_notices (log w)
       ∧ length (omap failure selectedParsers) = length selectedParsers
       ∧ length (created_notices (log w'))
         = (length selectedParsers + length (created_notices (log w)))%nat
       ∧ instantiated (log w') = reverse selectedParsers ++ instantiated (log w)).
Proof.
  split.
  - intros w Hopen.
    destruct (loop_total (S (length selectedParsers)) 0 None w ltac:(lia))
      as (r & n & w' & Hrun & Ho & _).
    assert (open_notices (log w') = []) as Hclosed.
    { apply Ho. intros x Hx. rewrite Hopen in Hx. by apply elem_of_nil in Hx. }
    unfold tryParsers. rewrite Hrun. destruct r as [result|e].
    + by exists (Resolved result), w'.
    + exists (Rejected e), (exec (hide_if n) w'). split; [done|].
      destruct n as [m|]; simpl; [|done]. by rewrite Hclosed.
  - intros Hne Hfail w.
    assert (0 < length selectedParsers)%nat as Hlen
      by (destruct selectedParsers; [done | simpl; lia]).
    destruct (loop_exhausts (S (length selectedParsers)) 0 None w Hlen ltac:(lia))
      as (e & n & w' & Hrun & Hlast & Hi & Hs & Hall & _ & Hc & _).
    { intros j pj _ Hj. apply Hfail. by eapply list_elem_of_lookup_2. }
    rewrite drop_0 in Hi, Hs, Hall. rewrite Nat.sub_0_r in Hc.
    exists e, (exec (hide_if (Some n)) w'). unfold tryParsers. rewrite Hrun.
    by repeat split.
Qed.

End TryParsersProperties.

(** C10. For the empty list of parser names [tryParsers] rejects with the
    generic error [All parsers failed] and leaves the world as it was:
    nothing is logged, so no parser is instantiated or invoked, no failure
    notice is shown and no progress notice is created. *)
Theorem tryParsers_no_parsers (url : string) (settings : Settings)
    (locationInfo : string) (w : world) :
  ∃ w', tryParsers url [] settings locationInfo w
        = Some (Rejected (ErrorObject "All parsers failed"), w')
    ∧ w' = w
    ∧ instantiated (log w') = instantiated (log w)
    ∧ invoked (log w') = invoked (log w)
    ∧ shown_notices (log w') = shown_notices (log w)
    ∧ created_notices (log w') = created_notices (log w).
Proof.
  exists w. unfold tryParsers. rewrite loop_unfold.
  change (0 <? length (@nil string))%nat with false. cbv iota zeta.
  unfold exec, hide_if, ret. simpl. by repeat split.
Qed.

(** *** [getFavicon] *)

(** One case distinction on what a collaborator of [getFavicon] answers. *)
Ltac case_collaborator :=
  match goal with
  | |- context [createParser ?a ?b] => destruct (createParser a b) eqn:?
  | |- context [getHtmlByElectron ?a ?b ?c] => destruct (getHtmlByElectron a b c) eqn:?
  | |- context [truthy_opt ?a] => destruct (truthy_opt a) eqn:?
  | |- context [getHtmlByRequest ?a ?b ?c] => destruct (getHtmlByRequest a b c) eqn:?
  | |- context [match ?x with Some _ => _ | None => _ end] => is_var x; destruct x
  | |- context [truthy_string ?a] => destruct (truthy_string a) eqn:?
  | |- context [new_URL ?a] => destruct (new_URL a) eqn:?
  | |- context [parser_getFavicon ?a ?b ?c ?d] =>
      destruct (parser_getFavicon a b c d) eqn:?
  | |- context [if ?b then _ else _] => is_var b; destruct b
  | |- context [useCache ?a] => destruct (useCache a) eqn:?
  | |- context [bool_decide ?P] => destruct (bool_decide P) eqn:?
  end.

Ltac run_getFavicon :=
  unfold getFavicon, getFavicon_try, fetchHtml, try_catch, bind, lift, ret, emit, debug_log,
    when, showNotice, emit, cache_has, cache_get, cache_set, record_event; simpl.

(** C7. For every URL, when caching is enabled and the cache has the URL as
    a key, [getFavicon] resolves to the cached value; the cache is asked
    before anything else, and nothing else happens: the only effects are the
    two cache reads (and the console line of debug mode), so there is no
    fetch, no parsing and no cache write. *)
Theorem getFavicon_cached (url : string) (settings : Settings) (dbg : bool)
    (w : world) (v : jsval) :
  useCache settings = true →
  cache w !! url = Some v →
  getFavicon url settings dbg w =
    (Resolved v,
     World (cache w)
       (CacheGet url
        :: (if dbg then [ConsoleLog "[Link Embed] Using cached favicon for:"] else [])
        ++ CacheHas url :: log w)
       (fresh w)).
Proof.
  intros Huse Hv. run_getFavicon. rewrite Huse. simpl. rewrite Hv. simpl.
  destruct dbg; unfold ret; simpl; by rewrite Hv.
Qed.

(** C8. When caching is disabled, [getFavicon] neither reads nor writes the
    cache: its result is the same in any two worlds (whatever their caches),
    the cache after the call is the cache before it, and the call adds no
    cache operation to the log. *)
Theorem getFavicon_without_cache (url : string) (settings : Settings) (dbg : bool) :
  useCache settings = false →
  (∀ w1 w2, (getFavicon url settings dbg w1).1 = (getFavicon url settings dbg w2).1)
  ∧ (∀ w, cache (getFavicon url settings dbg w).2 = cache w
          ∧ cache_accesses (log (getFavicon url settings dbg w).2)
            = cache_accesses (log w)).
Proof.
  intros Huse. split.
  - intros w1 w2. run_getFavicon. rewrite Huse. simpl.
    repeat (case_collaborator; simpl; try done).
  - intros w. run_getFavicon. rewrite Huse. simpl.
    repeat (case_collaborator; simpl; try done).
Qed.

Lemma fetchHtml_run (localParser : Parser) (dbg : bool) (url : string) (w : world) :
  ∃ w', fetchHtml localParser dbg url w = (fetchedHtml localParser dbg url, w')
        ∧ cache w' = cache w
        ∧ shown_notices (log w') = shown_notices (log w).
Proof.
  unfold fetchHtml, fetchedHtml, bind, emit, lift, ret. simpl.
  destruct (getHtmlByElectron localParser dbg url) as [byElectron|e]; [|by eexists].
  destruct (truthy_opt byElectron); by eexists.
Qed.

(** On a cache miss the [try] block runs. *)
Lemma getFavicon_miss (url : string) (settings : Settings) (dbg : bool) (w : world) :
  useCache settings = false ∨ cache w !! url = None →
  getFavicon url settings dbg w =
    try_catch (getFavicon_try url settings dbg)
      (λ error,
         showNotice (payload_of "Error fetching favicon: " error)
           "Link Embed - Favicon" "error" >>
         ret (VString ""))
      (after_cache_check url settings w).
Proof.
  intros Hmiss. unfold getFavicon, after_cache_check, bind, cache_has, ret.
  destruct (useCache settings); [|done].
  destruct Hmiss as [|Hnone]; [done|]. by rewrite Hnone.
Qed.

Lemma after_cache_check_same (url : string) (settings : Settings) (w : world) :
  cache (after_cache_check url settings w) = cache w
  ∧ shown_notices (log (after_cache_check url settings w)) = shown_notices (log w).
Proof. unfold after_cache_check. by destruct (useCache settings). Qed.

Local Arguments fetchHtml : simpl never.

(** C5 (amended). For every URL, settings and cache, [getFavicon] never
    rejects: it always resolves. When the cache does not answer and the
    fetch or the parse throws (the parser cannot be created, a fetch throws,
    the URL is malformed, the extraction throws), the error is caught: the
    call resolves to the empty string, exactly one notice is shown for the
    error, and the cache is as before. When the extraction finds no favicon
    ([null] or the empty string), the call resolves to the empty string,
    the cache is as before and no notice is shown. A fetch that fails
    without throwing is not reported: when the two fetches give no HTML
    ([null] or the empty string) nothing is thrown or caught, and the call
    resolves to the empty string with the cache as before and without a
    notice (the failure is written to the console, in debug mode only). *)
Theorem getFavicon_never_rejects (url : string) (settings : Settings) (dbg : bool) :
  (∀ w, ∃ v w', getFavicon url settings dbg w = (Resolved v, w'))
  ∧ (∀ w error,
       useCache settings = false ∨ cache w !! url = None →
       favicon_failure url settings dbg error →
       ∃ w', getFavicon url settings dbg w = (Resolved (VString ""), w')
             ∧ shown_notices (log w')
               = payload_of "Error fetching favicon: " error :: shown_notices (log w)
             ∧ cache w' = cache w)
  ∧ (∀ w localParser html urlObj favicon,
       useCache settings = false ∨ cache w !! url = None →
       createParser "local" settings = Resolved localParser →
       fetchedHtml localParser dbg url = Resolved (Some html) →
       truthy_string html = true →
       new_URL url = Resolved urlObj →
       parser_getFavicon localParser dbg (parseFromString html) urlObj = Resolved favicon →
       truthy_opt favicon = false →
       ∃ w', getFavicon url settings dbg w = (Resolved (VString ""), w')
             ∧ shown_notices (log w') = shown_notices (log w)
             ∧ cache w' = cache w)
  ∧ (∀ w localParser html,
       useCache settings = false ∨ cache w !! url = None →
       createParser "local" settings = Resolved localParser →
       fetchedHtml localParser dbg url = Resolved html →
       truthy_opt html = false →
       ∃ w', getFavicon url settings dbg w = (Resolved (VString ""), w')
             ∧ shown_notices (log w') = shown_notices (log w)
             ∧ cache w' = cache w).
Proof.
  split; [|split; [|split]].
  - intros w. run_getFavicon.
    repeat (case_collaborator; simpl; try (eexists _, _; reflexivity)).
  - intros w error Hmiss Hfail. rewrite getFavicon_miss by done.
    destruct (after_cache_check_same url settings w) as [Hc Hs].
    set (w0 := after_cache_check url settings w) in *.
    unfold try_catch, getFavicon_try, bind, emit, lift, showNotice, emit, ret. simpl.
    destruct Hfail as [Hp | p Hp Hf | p html Hp Hf Ht Hu | p html u Hp Hf Ht Hu He];
      rewrite Hp.
    + eexists. split; [done|]. simpl. by rewrite Hc, Hs.
    + destruct (fetchHtml_run p dbg url (record_event (ParserCreated "local") w0)) as (w1 & -> & Hc1 & Hs1).
      rewrite Hf. eexists. split; [done|]. simpl. simpl in *. by rewrite Hc1, Hs1, Hc, Hs.
    + destruct (fetchHtml_run p dbg url (record_event (ParserCreated "local") w0)) as (w1 & -> & Hc1 & Hs1).
      rewrite Hf, Ht. simpl. rewrite Hu.
      eexists. split; [done|]. simpl. simpl in *. by rewrite Hc1, Hs1, Hc, Hs.
    + destruct (fetchHtml_run p dbg url (record_event (ParserCreated "local") w0)) as (w1 & -> & Hc1 & Hs1).
      rewrite Hf, Ht. simpl. rewrite Hu, He.
      eexists. split; [done|]. simpl. simpl in *. by rewrite Hc1, Hs1, Hc, Hs.
  - intros w p html u favicon Hmiss Hp Hf Ht Hu He Hfalsy.
    rewrite getFavicon_miss by done.
    destruct (after_cache_check_same url settings w) as [Hc Hs].
    set (w0 := after_cache_check url settings w) in *.
    unfold try_catch, getFavicon_try, bind, emit, lift, showNotice, emit, ret. simpl.
    rewrite Hp.
    destruct (fetchHtml_run p dbg url (record_event (ParserCreated "local") w0)) as (w1 & -> & Hc1 & Hs1).
    rewrite Hf, Ht. simpl. rewrite Hu, He.
    destruct favicon as [favicon|]; simpl in *.
    + rewrite Hfalsy. simpl. eexists. split; [done|]. simpl. by rewrite Hc1, Hs1, Hc, Hs.
    + eexists. split; [done|]. simpl. by rewrite Hc1, Hs1, Hc, Hs.
  - intros w p html Hmiss Hp Hf Hfalsy.
    rewrite getFavicon_miss by done.
    destruct (after_cache_check_same url settings w) as [Hc Hs].
    set (w0 := after_cache_check url settings w) in *.
    unfold try_catch, getFavicon_try, bind, emit, lift, showNotice, emit, ret. simpl.
    rewrite Hp.
    destruct (fetchHtml_run p dbg url (record_event (ParserCreated "local") w0))
      as (w1 & -> & Hc1 & Hs1).
    simpl in Hc1, Hs1.
    rewrite Hf. destruct html as [html|]; simpl in Hfalsy; rewrite ?Hfalsy;
      destruct dbg; simpl; (eexists; split; [done|]); simpl;
      by rewrite Hc1, Hs1, Hc, Hs.
Qed.

(** *** [embedUrl] after the parsers *)


(** *** [renderEmbed] *)

Lemma truthy_positive (r : Q) : (0 < r)%Q → truthy_number r = true.
Proof.
  intros Hr. unfold truthy_number. destruct (Qeq_bool r 0) eqn:E; [|done].
  apply Qeq_bool_iff in E. rewrite E in Hr. by apply Qlt_irrefl in Hr.
Qed.

Lemma pow2_pos (e : Z) : (0 < pow2 e)%Q.
Proof.
  unfold pow2. destruct (Z.leb_spec 0 e).
  - change 0%Q with (inject_Z 0). rewrite <- Zlt_Qlt. by apply Z.pow_pos_nonneg.
  - done.
Qed.

Lemma pow2_le_2 (e : Z) : e ≤ 1 → (pow2 e <= 2)%Q.
Proof.
  intros He. unfold pow2. destruct (Z.leb_spec 0 e).
  - assert (e = 0 ∨ e = 1) as [-> | ->] by lia; done.
  - unfold Qle. simpl. lia.
Qed.

Lemma round_half_even_close (y : Q) :
  (- (1 # 2) <= inject_Z (round_half_even y) - y <= 1 # 2)%Q.
Proof.
  unfold round_half_even.
  pose proof (Qfloor_le y) as Hlo. pose proof (Qlt_floor y) as Hhi.
  rewrite inject_Z_plus in Hhi. change (inject_Z 1) with 1%Q in Hhi.
  destruct (Qcompare_spec (y - inject_Z (Qfloor y)) (1 # 2)) as [E|E|E].
  - destruct (Z.even (Qfloor y)); rewrite ?inject_Z_plus;
      change (inject_Z 1) with 1%Q; lra.
  - lra.
  - rewrite inject_Z_plus. change (inject_Z 1) with 1%Q. lra.
Qed.

Lemma exponent_bound (x : Q) (k : Z) :
  0 ≤ k → (0 < x)%Q → (x < inject_Z (2 ^ k))%Q → exponent x ≤ k.
Proof.
  intros Hk Hpos Hlt.
  assert (Z.log2 (Qnum x) - Z.log2 (Z.pos (Qden x)) ≤ k) as Hle.
  { unfold Qlt in Hpos, Hlt. simpl in Hpos, Hlt.
    assert (Z.log2 (Qnum x) ≤ Z.log2 (Z.pos (Qden x) * 2 ^ k))
      by (apply Z.log2_le_mono; lia).
    rewrite Z.log2_mul_pow2 in H by lia. lia. }
  unfold exponent. destruct (Qle_bool _ _); lia.
Qed.

Lemma nearest_double_close (x : Q) :
  (0 < x)%Q → (x < inject_Z (2 ^ 53))%Q →
  (-1 <= nearest_double x - x <= 1)%Q.
Proof.
  intros Hpos Hlt. unfold nearest_double.
  pose proof (exponent_bound x 53 ltac:(lia) Hpos Hlt) as He.
  set (ulp := pow2 _).
  assert (0 < ulp)%Q as Hulp by apply pow2_pos.
  assert (ulp <= 2)%Q as Hulp2 by (apply pow2_le_2; lia).
  pose proof (round_half_even_close (x / ulp)) as Hclose.
  set (m := inject_Z (round_half_even (x / ulp))) in *.
  assert (x == (x / ulp) * ulp)%Q as Hx by (field; lra).
  set (y := (x / ulp)%Q) in *. clearbody m y ulp.
  rewrite Hx. nra.
Qed.

Lemma to_double_close (x : Q) :
  (0 < x)%Q → (x < inject_Z (2 ^ 53))%Q → (-1 <= to_double x - x <= 1)%Q.
Proof.
  intros Hpos Hlt. unfold to_double.
  pose proof (Qred_correct x) as Hred.
  assert (0 < Qred x)%Q as Hpos' by (by rewrite Hred).
  assert (Qred x < inject_Z (2 ^ 53))%Q as Hlt' by (by rewrite Hred).
  pose proof (nearest_double_close _ Hpos' Hlt') as Hclose.
  destruct (Qnum (Qred x)) eqn:E.
  - unfold Qlt in Hpos'. simpl in Hpos'. lia.
  - rewrite <- Hred at 2 4. done.
  - unfold Qlt in Hpos'. simpl in Hpos'. lia.
Qed.

Lemma Qfloor_lt (x : Q) (n : Z) : (x < inject_Z n)%Q → Qfloor x < n.
Proof.
  intros H. rewrite Zlt_Qlt. eapply Qle_lt_trans; [apply Qfloor_le | done].
Qed.

Lemma Math_round_close (a b : Q) :
  (a <= b + 1)%Q → Math_round a ≤ Math_round b + 1.
Proof.
  intros H. unfold Math_round.
  assert (Qfloor (a + (1 # 2)) < Qfloor (b + (1 # 2)) + 2); [|lia].
  apply Qfloor_lt. pose proof (Qlt_floor (b + (1 # 2))) as Hhi.
  rewrite !inject_Z_plus in *. change (inject_Z 2) with 2%Q.
  change (inject_Z 1) with 1%Q in Hhi. lra.
Qed.

Lemma to_double_comp (x y : Q) : (x == y)%Q → to_double x = to_double y.
Proof. intros H. unfold to_double. by rewrite (Qred_complete _ _ H). Qed.

(** C6 (amended). In [renderEmbed] the computed width is [Math.round] of
    the quotient of doubles [16000 / aspectRatio]. For every aspect ratio
    greater than zero with [16000 / aspectRatio] below [2^53] it is within
    one of [round(16000 / aspectRatio)], and equal to it whenever the exact
    quotient is itself a double; it is not always equal: at the double
    nearest to 51.2 the quotient of doubles is the tie 312.5, and the width
    is 313 where the exact quotient rounds to 312. The width is 16000 when
    the aspect ratio is absent, and it is a function of the aspect ratio
    alone: equal ratios give equal widths, whatever the other inputs of the
    rendering. *)
Theorem calculatedWidth_spec :
  (∀ r, (0 < r)%Q → (16000 / r < inject_Z (2 ^ 53))%Q →
        calculatedWidth (Some r) = Math_round (to_double (16000 / r))
        ∧ Math_round (16000 / r) - 1 ≤ calculatedWidth (Some r)
          ≤ Math_round (16000 / r) + 1)
  ∧ (∀ r, (0 < r)%Q → (to_double (16000 / r) == 16000 / r)%Q →
          calculatedWidth (Some r) = Math_round (16000 / r))
  ∧ (calculatedWidth (Some (to_double (256 # 5))) = 313
     ∧ Math_round (16000 / to_double (256 # 5)) = 312)
  ∧ calculatedWidth None = 16000
  ∧ (∀ r r' info info' image image' settings settings',
       (r == r')%Q →
       td_calculatedWidth (templateData info image (Some r) settings)
       = td_calculatedWidth (templateData info' image' (Some r') settings')).
Proof.
  split; [|split; [|split; [|split]]].
  - intros r Hr Hbound. unfold calculatedWidth. rewrite truthy_positive by done.
    change (inject_Z (baseWidth * 100)) with 16000%Q. split; [done|].
    assert (0 < 16000 / r)%Q as Hpos
      by (apply Qlt_shift_div_l; [done | by rewrite Qmult_0_l]).
    pose proof (to_double_close _ Hpos Hbound) as [Hlo Hhi].
    split.
    + assert (Math_round (16000 / r) ≤ Math_round (to_double (16000 / r)) + 1);
        [apply Math_round_close; lra | lia].
    + apply Math_round_close. lra.
  - intros r Hr Hexact. unfold calculatedWidth. rewrite truthy_positive by done.
    change (inject_Z (baseWidth * 100)) with 16000%Q.
    unfold Math_round. apply Qfloor_comp. by rewrite Hexact.
  - split; by vm_compute.
  - done.
  - intros r r' info info' image image' settings settings' Heq.
    unfold templateData, td_calculatedWidth, calculatedWidth, truthy_number.
    assert (Qeq_bool r 0 = Qeq_bool r' 0) as ->
      by (apply eq_true_iff_eq; rewrite !Qeq_bool_iff; by rewrite Heq).
    destruct (Qeq_bool r' 0); cbn [negb]; [done|].
    f_equal. apply to_double_comp. by rewrite Heq.
Qed.

(** *** [handleEmbedCodeBlock] *)

(** C9 (amended). In [handleEmbedCodeBlock], for every embed block source
    whose parsed fields mark it as a fetching stub, that is title
    [Fetching], the spinner as image and a description that starts with
    [Fetching ], the block is rendered as it is, with aspect ratio 1, and
    processing stops: the render is the only effect, so no image is
    converted, no favicon is fetched, no aspect ratio is probed and the
    cache is not touched. *)
Theorem dummy_embed_rendered_verbatim (source : string) (el : nat)
    (settings : Settings) (w : world) (description : string) :
  let parsed := parseYaml (stripLineMargins source) in
  EmbedInfo.title parsed = Some "Fetching" →
  EmbedInfo.image parsed = Some SPINNER →
  EmbedInfo.description parsed = Some description →
  Js.startsWith description "Fetching " = true →
  handleEmbedCodeBlock source el settings w =
    (Resolved tt,
     World (cache w)
       (Rendered el (fresh w)
          (templateData parsed (EmbedInfo.image parsed) (Some 1%Q) settings) :: log w)
       (S (fresh w))).
Proof.
  intros parsed Htitle Himage Hdescr Hprefix.
  unfold handleEmbedCodeBlock. fold parsed.
  assert (isDummyEmbed parsed = true) as ->.
  { unfold isDummyEmbed. rewrite Htitle, Himage, Hdescr, Hprefix.
    by rewrite !bool_decide_true by done. }
  done.
Qed.

(** *** Checking occurrences by computation *)


Lemma not_includes (s pat : string) : Js.includes s pat = false → ¬ Js.occurs_in pat s.
Proof. intros H Ho%includes_occurs_in. congruence. Qed.

(** *** Lines *)

Lemma split_chars_nonempty (l : list ascii) : split_chars l ≠ [].
Proof.
  destruct l as [|c l]; simpl; [done|].
  destruct (bool_decide (c = newline_char)); [done|].
  by destruct (split_chars l).
Qed.

Lemma split_lines_nonempty (s : string) : split_lines s ≠ [].
Proof.
  unfold split_lines. intros H%fmap_nil_inv. by apply split_chars_nonempty in H.
Qed.

Lemma join_lines_cons (l : string) (rest : list string) :
  rest ≠ [] → join_lines (l :: rest) = l +:+ newline +:+ join_lines rest.
Proof. by destruct rest. Qed.

Lemma join_lines_app (x y : list string) :
  x ≠ [] → y ≠ [] → join_lines (x ++ y) = join_lines x +:+ newline +:+ join_lines y.
Proof.
  intros Hx Hy. induction x as [|l x IH]; [done|].
  destruct x as [|l' x].
  - simpl app. by rewrite join_lines_cons.
  - rewrite <- app_comm_cons. rewrite !join_lines_cons by done.
    rewrite IH by done. by rewrite !string_app_assoc.
Qed.

(** Joining the lines of a text gives the text back. *)
Lemma join_split_chars (l : list ascii) :
  Js.chars (join_lines (Js.str <$> split_chars l)) = l.
Proof.
  induction l as [|c l IH]; [done|]. simpl.
  pose proof (split_chars_nonempty l) as Hne.
  destruct (bool_decide (c = newline_char)) eqn:Hc.
  - apply bool_decide_eq_true in Hc as ->.
    rewrite fmap_cons, join_lines_cons by (intros H%fmap_nil_inv; done).
    rewrite !chars_app, IH. done.
  - destruct (split_chars l) as [|first rest]; [done|].
    rewrite !fmap_cons in IH |- *. destruct rest as [|second rest].
    + simpl in IH |- *. rewrite chars_str in IH |- *. by rewrite IH.
    + rewrite fmap_cons in IH |- *. rewrite join_lines_cons in IH by done.
      rewrite join_lines_cons by done.
      rewrite !chars_app, chars_str in IH |- *. rewrite <- app_comm_cons.
      by rewrite IH.
Qed.

Lemma join_split (s : string) : join_lines (split_lines s) = s.
Proof. apply chars_inj, join_split_chars. Qed.

Lemma split_chars_one_line (l : list ascii) :
  Forall (λ line, newline_char ∉ line) (split_chars l).
Proof.
  induction l as [|c l IH]; simpl.
  - constructor; [|done]. apply not_elem_of_nil.
  - destruct (bool_decide (c = newline_char)) eqn:Hc.
    + constructor; [apply not_elem_of_nil | done].
    + apply bool_decide_eq_false in Hc.
      destruct (split_chars l) as [|first rest].
      { constructor; [|done]. rewrite not_elem_of_cons.
        split; [congruence | apply not_elem_of_nil]. }
      apply Forall_cons in IH as [Hfirst Hrest]. constructor; [|done].
      rewrite not_elem_of_cons. split; [congruence | done].
Qed.

Lemma split_lines_one_line (s : string) : Forall one_line (split_lines s).
Proof.
  unfold split_lines. apply Forall_fmap.
  eapply Forall_impl; [apply split_chars_one_line|].
  intros line Hline. unfold one_line. simpl. by rewrite chars_str.
Qed.

Lemma split_chars_line (l : list ascii) :
  newline_char ∉ l → split_chars l = [l].
Proof.
  induction l as [|c l IH]; [done|]. rewrite not_elem_of_cons. intros [Hc Hl].
  simpl. rewrite bool_decide_false by congruence. by rewrite IH.
Qed.

Lemma split_chars_app (a b : list ascii) :
  newline_char ∉ a → split_chars (a ++ newline_char :: b) = a :: split_chars b.
Proof.
  induction a as [|c a IH]; intros Ha.
  - done.
  - apply not_elem_of_cons in Ha as [Hc Ha]. simpl.
    rewrite bool_decide_false by congruence. by rewrite IH.
Qed.

(** Splitting the join of lines gives the lines back. *)
Lemma split_join (lines : list string) :
  lines ≠ [] → Forall one_line lines → split_lines (join_lines lines) = lines.
Proof.
  intros Hne Hall. unfold split_lines.
  induction lines as [|l rest IH]; [done|].
  apply Forall_cons in Hall as [Hl Hrest].
  destruct rest as [|l' rest].
  - simpl. rewrite split_chars_line by done. simpl. by rewrite str_chars.
  - rewrite join_lines_cons by done. rewrite !chars_app.
    change (Js.chars newline) with [newline_char]. simpl app.
    rewrite split_chars_app by done. rewrite fmap_cons, str_chars.
    f_equal. by apply IH.
Qed.

Lemma sublist_one_line (lines kept : list string) :
  Forall one_line lines → kept ⊆ lines → Forall one_line kept.
Proof.
  rewrite !Forall_forall. intros Hall Hsub l Hl. apply Hall, Hsub, Hl.
Qed.

(** The text of a section occurs in the text of the note, whatever the
    section is. *)
Lemma join_lines_middle (x y z : list string) :
  ∃ a b, join_lines (x ++ y ++ z) = a +:+ join_lines y +:+ b.
Proof.
  destruct y as [|l y].
  - exists "", (join_lines (x ++ z)). done.
  - destruct x as [|lx x], z as [|lz z].
    + exists "", "". rewrite app_nil_r, app_nil_l.
      generalize (join_lines (l :: y)). intros s. apply chars_inj.
      by rewrite !chars_app, app_nil_r.
    + exists "", (newline +:+ join_lines (lz :: z)). rewrite app_nil_l.
      by rewrite join_lines_app.
    + exists (join_lines (lx :: x) +:+ newline), "". rewrite app_nil_r.
      rewrite join_lines_app by done. apply chars_inj.
      by rewrite !chars_app, app_nil_r, <- !app_assoc.
    + exists (join_lines (lx :: x) +:+ newline), (newline +:+ join_lines (lz :: z)).
      rewrite !join_lines_app by done. apply chars_inj.
      by rewrite !chars_app, <- !app_assoc.
Qed.

Lemma slice_partition {A} (l : list A) (s e : nat) :
  (s ≤ e)%nat → l = take s l ++ slice l s e ++ drop e l.
Proof.
  intros Hse. unfold slice.
  rewrite <- (take_drop s l) at 1. f_equal.
  rewrite <- (take_drop (e - s) (drop s l)) at 1. f_equal.
  rewrite drop_drop. f_equal. lia.
Qed.

Lemma sectionText_occurs (content : string) (si : SectionInfo) :
  Js.occurs_in (sectionText content si) content.
Proof.
  unfold sectionText. set (lines := split_lines content).
  destruct (decide (lineStart si ≤ lineEnd si + 1)%nat) as [Hse|Hse].
  - destruct (join_lines_middle (take (lineStart si) lines)
                (slice lines (lineStart si) (lineEnd si + 1))
                (drop (lineEnd si + 1) lines)) as (a & b & Hab).
    rewrite <- slice_partition in Hab by done.
    unfold lines in Hab at 1. rewrite join_split in Hab.
    exists (String.length a), a, b. done.
  - unfold slice. replace (lineEnd si + 1 - lineStart si)%nat with 0%nat by lia.
    rewrite take_0. exists 0%nat. apply occurs_at_empty.
Qed.

(** *** [String.prototype.replace] *)

Lemma first_from_indexOf (s pat : string) (k : nat) :
  Js.indexOf s pat 0 = Z.of_nat k → Js.first_from pat s 0 k.
Proof.
  intros Hk. destruct (indexOf_spec s pat 0 ltac:(lia)) as [[Hnone _]|(k' & Hk' & Hfirst)];
    change (Z.of_nat 0) with 0 in *.
  - rewrite Hk in Hnone. lia.
  - rewrite Hk in Hk'. by apply Nat2Z.inj in Hk' as ->.
Qed.

Lemma substring_prefix (a rest : string) :
  Js.substring (a +:+ rest) 0 (Z.of_nat (String.length a)) = a.
Proof. apply (substring_middle "" a rest). Qed.

Lemma substring_suffix (a b : string) :
  Js.substring (a +:+ b) (Z.of_nat (String.length a))
    (Z.of_nat (String.length (a +:+ b))) = b.
Proof.
  pose proof (substring_middle a b "") as H.
  assert (b +:+ "" = b) as Hb by (apply chars_inj; by rewrite chars_app, app_nil_r).
  rewrite Hb in H. by rewrite string_length_app.
Qed.

(** The pattern of [replace] is replaced where it occurs first. *)
Lemma replace_first_spec (s pattern replacement : string) :
  Js.occurs_in pattern s →
  ∃ a b, s = a +:+ pattern +:+ b
         ∧ Js.first_from pattern s 0 (String.length a)
         ∧ replace_first s pattern replacement
           = a +:+ getSubstitution pattern a b replacement +:+ b.
Proof.
  intros [j Hj]. unfold replace_first.
  destruct (indexOf_spec s pattern 0 ltac:(lia)) as [[_ Hnone]|(k & Hk & Hfirst)].
  { destruct (Hnone j); [lia | done]. }
  change (Z.of_nat 0) with 0 in Hk. rewrite Hk.
  destruct (Z.eqb_spec (Z.of_nat k) (-1)) as [|_]; [lia|].
  pose proof Hfirst as (_ & (a & b & Hs & Ha) & _).
  exists a, b. subst k. split; [done|]. split; [done|].
  assert (Js.substring s 0 (Z.of_nat (String.length a)) = a) as ->
    by (rewrite Hs; apply substring_prefix).
  assert (Js.substring s (Z.of_nat (String.length a) + Z.of_nat (String.length pattern))
            (Z.of_nat (String.length s)) = b) as ->.
  { rewrite Hs, <- string_app_assoc, <- Nat2Z.inj_add, <- string_length_app.
    apply substring_suffix. }
  done.
Qed.

Lemma getSubstitution_chars_plain (matched preceding following template : list ascii) :
  dollar ∉ template →
  getSubstitution_chars matched preceding following template = template.
Proof.
  induction template as [|c t IH]; [done|]. rewrite not_elem_of_cons. intros [Hc Ht].
  simpl. rewrite bool_decide_false by congruence. by rewrite IH.
Qed.

Lemma getSubstitution_chars_app (matched preceding following x t : list ascii) :
  dollar ∉ x →
  getSubstitution_chars matched preceding following (x ++ t)
  = x ++ getSubstitution_chars matched preceding following t.
Proof.
  induction x as [|c x IH]; [done|]. rewrite not_elem_of_cons. intros [Hc Hx].
  rewrite <- !app_comm_cons. cbn [getSubstitution_chars].
  rewrite bool_decide_false by congruence. by rewrite IH.
Qed.

(** *** The button handlers *)

Lemma getAbstractFileByPath_present (v : Vault) (path content : string) :
  v !! path = Some content → getAbstractFileByPath v path = Some path.
Proof. intros H. unfold getAbstractFileByPath. by rewrite bool_decide_true by by eexists. Qed.

Lemma getAbstractFileByPath_absent (v : Vault) (path : string) :
  v !! path = None → getAbstractFileByPath v path = None.
Proof.
  intros H. unfold getAbstractFileByPath. rewrite bool_decide_false; [done|].
  rewrite H. by intros [? ?].
Qed.

Lemma slice_from_0 {A} (l : list A) (n : nat) : slice l 0 n = take n l.
Proof. unfold slice. by rewrite drop_0, Nat.sub_0_r. Qed.

(** X1. The delete button removes the lines of the section from the note,
    and nothing else: the lines of the note after the click are the lines
    before the first line of the section followed by the lines after its
    last line (the note is empty when no line is left); the other notes of
    the vault stay as they are and one notice tells of the deletion. *)
Theorem deleteButtonClicked_removes_section (element : nat) (ctx : Context)
    (v : Vault) (w : world) (content : string) (si : SectionInfo) :
  v !! sourcePath ctx = Some content →
  getSectionInfo ctx element = Some si →
  let lines := split_lines content in
  let kept := take (lineStart si) lines ++ drop (S (lineEnd si)) lines in
  ∃ newContent,
    deleteButtonClicked element ctx v w
    = (Resolved (<[sourcePath ctx := newContent]> v),
       record_event
         (ShowNotice (PayloadText "Embed block deleted") "Link Embed - Delete" "success") w)
    ∧ (kept ≠ [] → split_lines newContent = kept)
    ∧ (kept = [] → newContent = "").
Proof.
  intros Hfile Hsection lines kept. exists (join_lines kept).
  split; [|split].
  - unfold deleteButtonClicked, try_catch, bind, lift, showNotice, emit, ret.
    rewrite (getAbstractFileByPath_present _ _ _ Hfile), Hsection.
    unfold vault_read, vault_modify. rewrite Hfile.
    rewrite slice_from_0, Nat.add_1_r. done.
  - intros Hkept. apply split_join; [done|].
    apply Forall_app. split; [apply Forall_take | apply Forall_drop];
      apply split_lines_one_line.
  - by intros ->.
Qed.

(** X2. The copy button hands to the clipboard the lines of the section of
    the note, first to last, as they are in the note: for a section that
    starts inside the note, the lines of the note are the lines before the
    section, the lines of the text handed to the clipboard and the lines
    after the section. That text is the result of the handler, the write
    of it to the clipboard and one notice are the only effects, and the
    notice tells what the clipboard did with that very text: the success
    notice when it took the text, the error of the clipboard when it did
    not. *)
Theorem copyButtonClicked_copies_section (element : nat) (ctx : Context)
    (v : Vault) (w : world) (content : string) (si : SectionInfo) :
  v !! sourcePath ctx = Some content →
  getSectionInfo ctx element = Some si →
  (lineStart si ≤ lineEnd si)%nat →
  (lineStart si < length (split_lines content))%nat →
  let lines := split_lines content in
  ∃ code w',
    copyButtonClicked element ctx v w = (Resolved (Some code), w')
    ∧ lines = take (lineStart si) lines ++ split_lines code ++ drop (S (lineEnd si)) lines
    ∧ length (shown_notices (log w')) = S (length (shown_notices (log w)))
    ∧ w' = record_event
             match clipboard_writeText code with
             | Resolved _ =>
                 ShowNotice (PayloadText "Embed code copied to clipboard")
                   "Link Embed - Copy" "success"
             | Rejected error =>
                 ShowNotice (payload_of "Error copying to clipboard: " error)
                   "Link Embed - Copy" "error"
             end
             (record_event (ClipboardWriteText code) w).
Proof.
  intros Hfile Hsection Hse Hstart lines. fold lines in Hstart.
  exists (sectionText content si).
  assert (split_lines (sectionText content si)
          = slice lines (lineStart si) (S (lineEnd si))) as Hcode.
  { unfold sectionText. fold lines. rewrite Nat.add_1_r. apply split_join.
    - unfold slice. intros Hnil%(f_equal length). revert Hnil.
      rewrite length_take, length_drop. simpl. lia.
    - unfold slice. apply Forall_take, Forall_drop, split_lines_one_line. }
  unfold copyButtonClicked, try_catch, bind, lift, showNotice, emit, ret.
  rewrite (getAbstractFileByPath_present _ _ _ Hfile), Hsection.
  unfold vault_read. rewrite Hfile.
  destruct (clipboard_writeText (sectionText content si)) as [[]|error];
    (eexists; split; [reflexivity|]); rewrite Hcode;
    (split; [apply slice_partition; lia|]); done.
Qed.

(** *** [refreshEmbed] *)

Lemma bind_debug_log {A} (dbg : bool) (message : string) (k : unit → M A) (w : world) :
  bind (debug_log dbg message) k w = k tt (exec (debug_log dbg message) w).
Proof. by destruct dbg. Qed.

Lemma exec_debug_log (dbg : bool) (message : string) (w : world) :
  cache (exec (debug_log dbg message) w) = cache w
  ∧ shown_notices (log (exec (debug_log dbg message) w)) = shown_notices (log w)
  ∧ fresh (exec (debug_log dbg message) w) = fresh w.
Proof. by destruct dbg. Qed.

(** What a call of [refreshEmbed] comes to. *)
Lemma refreshEmbed_outcome (url : string) (element : nat) (ctx : Context)
    (settings : Settings) (v : Vault) (w : world) :
  ∃ success v' w',
    refreshEmbed url element ctx settings v w = Some (Resolved (success, v'), w')
    ∧ cache w' = cache w
    ∧ (success = false →
       v' = v
       ∧ ∃ payload,
           head (log w') = Some (ShowNotice payload "Link Embed - Refresh" "error"))
    ∧ (success = true →
       ∃ content newContent,
         v !! sourcePath ctx = Some content
         ∧ v' = <[sourcePath ctx := newContent]> v).
Proof.
  unfold refreshEmbed.
  set (w0 := exec (debug_log (debug settings) "[Link Embed] Refreshing embed for URL:") w).
  assert (cache w0 = cache w) as Hw0 by (unfold w0; by destruct (debug settings)).
  destruct (v !! sourcePath ctx) as [content|] eqn:Hfile.
  - rewrite (getAbstractFileByPath_present _ _ _ Hfile).
    destruct (getSectionInfo ctx element) as [si|].
    + unfold vault_read, vault_modify. rewrite Hfile. unfold tryParsers.
      destruct (loop_total url [primary settings; backup settings] settings
                  (sourcePath ctx +:+ ":"
                   +:+ Js.integer_to_string (Z.of_nat (lineStart si)))
                  (S (length [primary settings; backup settings])) 0 None w0
                  ltac:(lia)) as (r & n & w1 & -> & _ & Hcache).
      destruct r as [r|error].
      * rewrite bind_debug_log. eexists true, _, _. split; [reflexivity|].
        split; [by rewrite (proj1 (exec_debug_log _ _ _)), Hcache|].
        split; [done|]. intros _. by eexists _, _.
      * eexists false, v, _. split; [reflexivity|].
        split; [|split; [|done]].
        -- unfold refresh_failed, bind, showNotice, emit, ret, exec, hide_if.
           destruct n; simpl; by rewrite Hcache.
        -- intros _. split; [done|]. by eexists.
    + eexists false, v, _. split; [reflexivity|]. split; [done|].
      split; [|done]. intros _. split; [done|]. by eexists.
  - rewrite (getAbstractFileByPath_absent _ _ Hfile).
    eexists false, v, _. split; [reflexivity|]. split; [done|].
    split; [|done]. intros _. split; [done|]. by eexists.
Qed.

(** X3. [refreshEmbed] never rejects, whatever the vault, the section and
    the parsers do. When it resolves to [false] the vault is as it was and
    the last thing it did was to show an error notice; when it resolves to
    [true] the note of the block, and no other note, was written. The
    cache is never touched. *)
Theorem refreshEmbed_settles (url : string) (element : nat) (ctx : Context)
    (settings : Settings) (v : Vault) (w : world) :
  ∃ success v' w',
    refreshEmbed url element ctx settings v w = Some (Resolved (success, v'), w')
    ∧ cache w' = cache w
    ∧ (success = false →
       v' = v
       ∧ ∃ payload,
           head (log w') = Some (ShowNotice payload "Link Embed - Refresh" "error"))
    ∧ (success = true →
       ∃ content newContent,
         v !! sourcePath ctx = Some content
         ∧ v' = <[sourcePath ctx := newContent]> v).
Proof.
  destruct (refreshEmbed_outcome url element ctx settings v w)
    as (success & v' & w' & Hrun & Hcache & Hfalse & Htrue).
  exists success, v', w'. split; [exact Hrun|]. split; [exact Hcache|].
  split; [exact Hfalse | exact Htrue].
Qed.

(** X27. The refresh button never rejects and tells what happened: either
    the note of the block was written and the last thing logged is the
    success notice, or the vault is as it was and the last thing logged is
    an error notice of the refresh. *)
Theorem refreshButtonClicked_reports (url : string) (element : nat) (ctx : Context)
    (settings : Settings) (v : Vault) (w : world) :
  ∃ v' w',
    refreshButtonClicked url element ctx settings v w = Some (Resolved v', w')
    ∧ cache w' = cache w
    ∧ ((∃ content newContent,
          v !! sourcePath ctx = Some content
          ∧ v' = <[sourcePath ctx := newContent]> v)
       ∧ head (log w')
         = Some (ShowNotice (PayloadText "Embed refreshed successfully")
                   "Link Embed - Refresh" "success")
       ∨ v' = v
         ∧ ∃ payload,
             head (log w') = Some (ShowNotice payload "Link Embed - Refresh" "error")).
Proof.
  destruct (refreshEmbed_outcome url element ctx settings v w)
    as (success & v' & w' & Hrun & Hcache & Hfalse & Htrue).
  unfold refreshButtonClicked. rewrite Hrun.
  destruct success.
  - eexists _, _. split; [reflexivity|]. split; [done|]. left. by split; [apply Htrue|].
  - eexists _, _. split; [reflexivity|]. split; [done|]. right. by apply Hfalse.
Qed.

(** X28. Without the note or without the section of the block, the delete
    button and the copy button do nothing but show one error notice, with
    the same text: the vault is as it was and nothing is handed to the
    clipboard. *)
Theorem button_handlers_without_note (element : nat) (ctx : Context) (v : Vault)
    (w : world) :
  v !! sourcePath ctx = None ∨ getSectionInfo ctx element = None →
  ∃ payload,
    deleteButtonClicked element ctx v w
    = (Resolved v, record_event (ShowNotice payload "Link Embed - Delete" "error") w)
    ∧ copyButtonClicked element ctx v w
      = (Resolved None, record_event (ShowNotice payload "Link Embed - Copy" "error") w).
Proof.
  intros Hcase. unfold deleteButtonClicked, copyButtonClicked.
  destruct (v !! sourcePath ctx) as [content|] eqn:Hfile.
  - destruct Hcase as [|Hsection]; [done|].
    rewrite (getAbstractFileByPath_present _ _ _ Hfile), Hsection.
    by exists (PayloadText "Could not get section info").
  - rewrite (getAbstractFileByPath_absent _ _ Hfile).
    by exists (PayloadText ("File not found: " +:+ sourcePath ctx)).
Qed.

(** X4. When one of the two configured parsers succeeds, [refreshEmbed]
    always writes the note, for every section: the text of the section
    lines occurs in the note, and it is its first occurrence in the note
    that is replaced, wherever the section is. What is put in its place is
    the new embed, indented like the old text, with the substitution
    patterns of [String.prototype.replace] expanded. *)
Theorem refreshEmbed_replaces_first_occurrence (url : string) (element : nat)
    (ctx : Context) (settings : Settings) (v : Vault) (w : world) (content : string)
    (si : SectionInfo) (k : nat) (pk : string) (d : Metadata.t) :
  v !! sourcePath ctx = Some content →
  getSectionInfo ctx element = Some si →
  let locationInfo :=
    sourcePath ctx +:+ ":" +:+ Js.integer_to_string (Z.of_nat (lineStart si)) in
  [primary settings; backup settings] !! k = Some pk →
  parser_outcome url settings locationInfo pk = Resolved d →
  (∀ j pj, (j < k)%nat → [primary settings; backup settings] !! j = Some pj →
           ∃ e, parser_outcome url settings locationInfo pj = Rejected e) →
  let oldEmbed := sectionText content si in
  let newEmbed :=
    indent_lines (indentation_of oldEmbed) (generateEmbedMarkdown d settings pk) in
  ∃ a b w',
    content = a +:+ oldEmbed +:+ b
    ∧ Js.first_from oldEmbed content 0 (String.length a)
    ∧ refreshEmbed url element ctx settings v w
      = Some (Resolved
                (true,
                 <[sourcePath ctx := a +:+ getSubstitution oldEmbed a b newEmbed +:+ b]> v),
              w').
Proof.
  intros Hfile Hsection locationInfo Hk Hok Hfail oldEmbed newEmbed.
  destruct (replace_first_spec content oldEmbed newEmbed (sectionText_occurs content si))
    as (a & b & Hcontent & Hfirst & Hreplace).
  exists a, b. unfold refreshEmbed.
  rewrite (getAbstractFileByPath_present _ _ _ Hfile), Hsection.
  unfold vault_read, vault_modify. rewrite Hfile. fold locationInfo.
  set (w0 := exec (debug_log (debug settings) "[Link Embed] Refreshing embed for URL:") w).
  destruct (loop_first_success url [primary settings; backup settings] settings
              locationInfo k pk d Hk Hok
              (S (length [primary settings; backup settings])) 0 None w0
              ltac:(lia) ltac:(apply lookup_lt_Some in Hk; simpl in Hk |- *; lia))
    as (n & w1 & Hrun & _).
  { intros j pj Hj. apply Hfail. lia. }
  unfold tryParsers. rewrite Hrun. cbn [data selectedParser].
  fold oldEmbed. fold newEmbed. rewrite Hreplace, bind_debug_log.
  eexists. split; [exact Hcontent|]. split; [exact Hfirst|]. reflexivity.
Qed.

(** X5. In the text that [refreshEmbed] puts in the place of the old
    block, a replacement without a dollar sign is taken as it is; a doubled
    dollar sign comes out as one, and a dollar sign followed by an
    ampersand comes out as the old block. *)
Theorem refresh_replacement_patterns (a oldEmbed b x y : string) :
  Js.first_from oldEmbed (a +:+ oldEmbed +:+ b) 0 (String.length a) →
  dollar ∉ Js.chars x →
  dollar ∉ Js.chars y →
  replace_first (a +:+ oldEmbed +:+ b) oldEmbed x = a +:+ x +:+ b
  ∧ replace_first (a +:+ oldEmbed +:+ b) oldEmbed (x +:+ "$$" +:+ y)
    = a +:+ (x +:+ "$" +:+ y) +:+ b
  ∧ replace_first (a +:+ oldEmbed +:+ b) oldEmbed (x +:+ "$&" +:+ y)
    = a +:+ (x +:+ oldEmbed +:+ y) +:+ b.
Proof.
  intros Hfirst Hx Hy.
  assert (∀ t, ∃ a' b', a +:+ oldEmbed +:+ b = a' +:+ oldEmbed +:+ b'
                 ∧ String.length a' = String.length a
                 ∧ replace_first (a +:+ oldEmbed +:+ b) oldEmbed t
                   = a' +:+ getSubstitution oldEmbed a' b' t +:+ b') as Hspec.
  { intros t.
    destruct (replace_first_spec (a +:+ oldEmbed +:+ b) oldEmbed t) as
      (a' & b' & Hs & Hfirst' & Hr).
    { exists (String.length a). apply occurs_at_here. }
    exists a', b'. split; [done|]. split; [|done].
    eapply first_from_unique; eauto. }
  assert (∀ a' b', a +:+ oldEmbed +:+ b = a' +:+ oldEmbed +:+ b' →
                   String.length a' = String.length a → a' = a ∧ b' = b) as Hsame.
  { intros a' b' Hs Hlen. apply (f_equal Js.chars) in Hs.
    rewrite !chars_app in Hs. apply app_inj_1 in Hs as [Ha Hrest].
    - apply chars_inj in Ha. apply app_inv_head in Hrest.
      apply chars_inj in Hrest. done.
    - by rewrite !chars_length. }
  split; [|split].
  - destruct (Hspec x) as (a' & b' & Hs & Hlen & ->).
    destruct (Hsame a' b' Hs Hlen) as [-> ->]. unfold getSubstitution.
    by rewrite getSubstitution_chars_plain, str_chars.
  - destruct (Hspec (x +:+ "$$" +:+ y)) as (a' & b' & Hs & Hlen & ->).
    destruct (Hsame a' b' Hs Hlen) as [-> ->]. unfold getSubstitution.
    rewrite !chars_app, getSubstitution_chars_app by done.
    change (Js.chars "$$" ++ Js.chars y) with (dollar :: dollar :: Js.chars y).
    cbn [getSubstitution_chars]. rewrite !bool_decide_true by done.
    rewrite getSubstitution_chars_plain by done.
    do 2 f_equal. apply chars_inj. by rewrite !chars_app, chars_str.
  - destruct (Hspec (x +:+ "$&" +:+ y)) as (a' & b' & Hs & Hlen & ->).
    destruct (Hsame a' b' Hs Hlen) as [-> ->]. unfold getSubstitution.
    rewrite !chars_app, getSubstitution_chars_app by done.
    change (Js.chars "$&" ++ Js.chars y) with (dollar :: ampersand :: Js.chars y).
    cbn [getSubstitution_chars]. rewrite bool_decide_true by done.
    rewrite bool_decide_false by done. rewrite bool_decide_true by done.
    rewrite getSubstitution_chars_plain by done.
    do 2 f_equal. apply chars_inj. by rewrite !chars_app, chars_str.
Qed.

Lemma leading_space_app (i rest : list ascii) :
  Forall (λ c, Js.is_white_space c = true) i →
  match rest with
  | c :: _ => Js.is_white_space c = false
  | [] => True
  end →
  leading_space (i ++ rest) = i.
Proof.
  intros Hi Hrest. induction Hi as [|c i Hc _ IH]; simpl.
  - destruct rest as [|c rest]; [done|]. simpl. by rewrite Hrest.
  - by rewrite Hc, IH.
Qed.

(** X6. [refreshEmbed] keeps the indentation of the block: when the old
    text starts with spaces or tabs followed by a character that is no
    white space, that run is the indentation, and the lines of the text
    written in its place are the lines of the new embed (without its
    trailing white space), each with the indentation in front. *)
Theorem refresh_keeps_indentation (i rest newEmbed : string) :
  Forall (λ c, Js.is_white_space c = true ∧ c ≠ newline_char) (Js.chars i) →
  match Js.chars rest with
  | c :: _ => Js.is_white_space c = false
  | [] => True
  end →
  indentation_of (i +:+ rest) = i
  ∧ split_lines (indent_lines (indentation_of (i +:+ rest)) newEmbed)
    = (λ line, i +:+ line) <$> split_lines (Js.trimEnd newEmbed).
Proof.
  intros Hi Hrest.
  assert (indentation_of (i +:+ rest) = i) as ->.
  { unfold indentation_of. rewrite chars_app, leading_space_app, str_chars; [done| |done].
    eapply Forall_impl; [exact Hi|]. by intros c [? _]. }
  split; [done|]. unfold indent_lines. apply split_join.
  - intros H%fmap_nil_inv. by apply split_lines_nonempty in H.
  - apply Forall_fmap. eapply Forall_impl; [apply split_lines_one_line|].
    intros l Hl. unfold one_line in *. simpl. rewrite chars_app, elem_of_app.
    intros [Hin|Hin]; [|done].
    rewrite Forall_forall in Hi. by destruct (Hi _ Hin).
Qed.

(** *** [convertUrlToMarkdownLink] *)

(** X7. [convertUrlToMarkdownLink] never rejects, whatever the parsers do:
    it always resolves, to a link or to [null]; the cache is left as it
    is, and no progress notice stays open. *)
Theorem convertUrlToMarkdownLink_settles (url : string) (selectedParsers : list string)
    (settings : Settings) (w : world) :
  ∃ mdLink w',
    convertUrlToMarkdownLink url selectedParsers settings w = Some (Resolved mdLink, w')
    ∧ cache w' = cache w
    ∧ (open_notices (log w) = [] → open_notices (log w') = []).
Proof.
  unfold convertUrlToMarkdownLink, tryParsers.
  destruct (loop_total url selectedParsers settings "create-markdown-link"
              (S (length selectedParsers)) 0 None w ltac:(lia))
    as (r & n & w1 & -> & Hopen & Hcache).
  assert (open_notices (log w) = [] → open_notices (log w1) = []) as Hclosed.
  { intros Hw. apply Hopen. intros x Hx. rewrite Hw in Hx. by apply elem_of_nil in Hx. }
  destruct r as [r|error].
  - destruct (truthy_string (Metadata.title (data r))); by eexists _, _.
  - rewrite bind_debug_log. eexists _, _. split; [reflexivity|].
    unfold exec, hide_if, debug_log, when, emit, ret.
    destruct n, (debug settings); simpl; split; try done;
      intros Hw; rewrite (Hclosed Hw); done.
Qed.

(** X8. The link is made of the title of the first parser that succeeds:
    when the parser at index [k] is the first to succeed,
    [convertUrlToMarkdownLink] resolves to the title in brackets followed
    by the URL in parentheses if the title is not empty, and to [null] if
    it is empty; the parsers after that one are not asked for a title. *)
Theorem convertUrlToMarkdownLink_first_title (url : string)
    (selectedParsers : list string) (settings : Settings) (w : world)
    (k : nat) (pk : string) (d : Metadata.t) :
  selectedParsers !! k = Some pk →
  parser_outcome url settings "create-markdown-link" pk = Resolved d →
  (∀ j pj, (j < k)%nat → selectedParsers !! j = Some pj →
           ∃ e, parser_outcome url settings "create-markdown-link" pj = Rejected e) →
  ∃ w',
    convertUrlToMarkdownLink url selectedParsers settings w
    = Some (Resolved (if truthy_string (Metadata.title d)
                      then Some ("[" +:+ Metadata.title d +:+ "](" +:+ url +:+ ")")
                      else None), w')
    ∧ instantiated (log w') = reverse (take (S k) selectedParsers) ++ instantiated (log w).
Proof.
  intros Hk Hok Hfail. pose proof (lookup_lt_Some _ _ _ Hk) as Hlen.
  destruct (loop_first_success url selectedParsers settings "create-markdown-link"
              k pk d Hk Hok (S (length selectedParsers)) 0 None w ltac:(lia) ltac:(lia))
    as (n & w' & Hrun & Hi & _).
  { intros j pj Hj. apply Hfail. lia. }
  rewrite Nat.sub_0_r, drop_0 in Hi.
  exists w'. unfold convertUrlToMarkdownLink, tryParsers. rewrite Hrun.
  cbn [data]. by destruct (truthy_string (Metadata.title d)).
Qed.

(** What [tryParsers] resolves to is the data of one of the parsers of the
    list, as that parser gave it. *)
Lemma loop_sound (url : string) (selectedParsers : list string) (settings : Settings)
    (locationInfo : string) :
  ∀ (fuel idx : nat) (notice : option nat) (w : world) r n w',
    tryParsers_loop url selectedParsers settings locationInfo fuel idx notice w
    = Some (Resolved r, n, w') →
    selectedParser r ∈ selectedParsers
    ∧ parser_outcome url settings locationInfo (selectedParser r) = Resolved (data r).
Proof.
  induction fuel as [|fuel IH]; intros idx notice w r n w' Hrun; [done|].
  destruct (decide (idx < length selectedParsers)%nat) as [Hidx|Hidx].
  - destruct (lookup_lt_is_Some_2 selectedParsers idx Hidx) as [pj Hpj].
    destruct (parser_outcome url settings locationInfo pj) as [d|e] eqn:Hout.
    + destruct (loop_step_success url selectedParsers settings locationInfo
                  fuel idx notice w pj d Hpj Hout) as (w1 & Hstep & _).
      rewrite Hstep in Hrun. injection Hrun as <- _ _. simpl.
      split; [by eapply list_elem_of_lookup_2 | done].
    + destruct (loop_step_failure url selectedParsers settings locationInfo
                  fuel idx notice w pj e Hpj Hout) as (w1 & Hstep & _).
      rewrite Hstep in Hrun.
      destruct (S idx =? length selectedParsers)%nat; [done|].
      by apply IH in Hrun.
  - rewrite loop_unfold in Hrun.
    destruct (Nat.ltb_spec idx (length selectedParsers)); [lia|]. done.
Qed.

(** X9. The command that makes a markdown link rejects in one case only:
    when the read of the selection, [ExEditor.getText], rejects; the command
    then rejects with that error, and nothing else has happened. Once the
    selection is read the command never rejects, and it changes the
    document in one way only: the range of the selection is replaced by a
    link whose text is the non-empty title that one of the parsers of the
    list gave for the selected URL. In every other case (the selection is no
    valid URL, no parser succeeds, the title is empty) the document is left
    as it is. *)
Theorem handleCreateMarkdownLinkCommand_spec (text : string) (settings : Settings)
    (parsers : option (list string)) (w : world) :
  (∀ error,
     handleCreateMarkdownLinkCommand text (Rejected error) settings parsers w
     = Some (Rejected error, w))
  ∧ (∀ selected,
       let url := Selected.text selected in
       let selectedParsers := default [primary settings; backup settings] parsers in
       ∃ text' w',
         handleCreateMarkdownLinkCommand text (Resolved selected) settings parsers w
         = Some (Resolved text', w')
         ∧ cache w' = cache w
         ∧ (text' = text
            ∨ ∃ pk d,
                checkUrlValid selected = true
                ∧ pk ∈ selectedParsers
                ∧ parser_outcome url settings "create-markdown-link" pk = Resolved d
                ∧ Metadata.title d ≠ ""
                ∧ text' = replaceRange text
                            ("[" +:+ Metadata.title d +:+ "](" +:+ url +:+ ")")
                            (Selected.boundary_start selected)
                            (Selected.boundary_end selected))).
Proof.
  split; [done|].
  intros selected url selectedParsers. unfold handleCreateMarkdownLinkCommand.
  destruct (checkUrlValid selected) eqn:Hvalid; simpl negb; cbv iota.
  2: { eexists _, _. split; [reflexivity|]. split; [done|]. by left. }
  fold url selectedParsers. unfold convertUrlToMarkdownLink, tryParsers.
  destruct (loop_total url selectedParsers settings "create-markdown-link"
              (S (length selectedParsers)) 0 None w ltac:(lia))
    as (r & n & w1 & Hrun & _ & Hcache).
  rewrite Hrun. destruct r as [r|error].
  - apply loop_sound in Hrun as [Hin Hout].
    destruct (truthy_string (Metadata.title (data r))) eqn:Htitle.
    + assert (truthy_string ("[" +:+ Metadata.title (data r) +:+ "](" +:+ url +:+ ")")
              = true) as -> by done.
      eexists _, _. split; [reflexivity|]. split; [done|]. right.
      exists (selectedParser r), (data r). repeat split; try done.
      intros Hempty. rewrite Hempty in Htitle. done.
    + eexists _, _. split; [reflexivity|]. split; [done|]. by left.
  - rewrite bind_debug_log. eexists _, _. split; [reflexivity|]. split; [|by left].
    unfold ret. simpl. rewrite (proj1 (exec_debug_log _ _ _)).
    by destruct n.
Qed.

(** X10. When [ExEditor.getText] gives a selection in the middle of the
    document and a first successful parser gives a title, the command puts
    the link in the place of the selection and leaves the text before and
    after it as it is. *)
Theorem handleCreateMarkdownLinkCommand_replaces_selection (a sel c : string)
    (selected : Selected.t) (settings : Settings) (parsers : option (list string))
    (w : world) (k : nat) (pk : string) (d : Metadata.t) :
  let text := a +:+ sel +:+ c in
  let url := Selected.text selected in
  let selectedParsers := default [primary settings; backup settings] parsers in
  checkUrlValid selected = true →
  Selected.boundary_start selected = offsetToPos text (Z.of_nat (String.length a)) →
  Selected.boundary_end selected
  = offsetToPos text (Z.of_nat (String.length a + String.length sel)) →
  selectedParsers !! k = Some pk →
  parser_outcome url settings "create-markdown-link" pk = Resolved d →
  (∀ j pj, (j < k)%nat → selectedParsers !! j = Some pj →
           ∃ e, parser_outcome url settings "create-markdown-link" pj = Rejected e) →
  Metadata.title d ≠ "" →
  ∃ w',
    handleCreateMarkdownLinkCommand text (Resolved selected) settings parsers w
    = Some (Resolved (a +:+ ("[" +:+ Metadata.title d +:+ "](" +:+ url +:+ ")") +:+ c), w').
Proof.
  intros text url selectedParsers Hvalid Hstart Hend Hk Hok Hfail Htitle.
  pose proof (lookup_lt_Some _ _ _ Hk) as Hlen.
  destruct (loop_first_success url selectedParsers settings "create-markdown-link"
              k pk d Hk Hok (S (length selectedParsers)) 0 None w ltac:(lia) ltac:(lia))
    as (n & w' & Hrun & _).
  { intros j pj Hj. apply Hfail. lia. }
  exists w'. unfold handleCreateMarkdownLinkCommand. rewrite Hvalid. simpl negb. cbv iota.
  fold url selectedParsers. unfold convertUrlToMarkdownLink, tryParsers. rewrite Hrun.
  cbn [data].
  assert (truthy_string (Metadata.title d) = true) as ->.
  { unfold truthy_string. by rewrite bool_decide_false. }
  assert (truthy_string ("[" +:+ Metadata.title d +:+ "](" +:+ url +:+ ")") = true)
    as -> by done.
  rewrite Hstart, Hend. unfold text. by rewrite replaceRange_middle.
Qed.

(** *** [embedUrl] *)

Lemma replaceDummy_resolves (fullText placeholderId url embed selectedParser : string)
    (w : world) :
  ∃ newText w',
    replaceDummy fullText placeholderId url embed selectedParser w = (Resolved newText, w')
    ∧ cache w' = cache w.
Proof.
  unfold replaceDummy, cancel_replacement, new_Notice, create_notice, bind, emit, ret.
  repeat match goal with
         | |- context [if ?b then _ else _] => destruct b
         end; by eexists _, _.
Qed.

(** X11. Once the dummy block is in the document, [embedUrl] never rejects:
    whatever the parsers do and whatever has become of the document, it
    resolves, and the cache is left as it is. *)
Theorem embedUrl_resolve_settles (url : string) (selectedParsers : list string)
    (settings : Settings) (locationInfo placeholderId fullText : string) (w : world) :
  ∃ newText w',
    embedUrl_resolve url selectedParsers settings locationInfo placeholderId fullText w
    = Some (Resolved newText, w')
    ∧ cache w' = cache w.
Proof.
  unfold embedUrl_resolve, tryParsers.
  destruct (loop_total url selectedParsers settings locationInfo
              (S (length selectedParsers)) 0 None w ltac:(lia))
    as (r & n & w1 & -> & _ & Hcache).
  destruct r as [r|error].
  - destruct (replaceDummy_resolves fullText placeholderId url
                (generateEmbedMarkdown (data r) settings (selectedParser r))
                (selectedParser r) w1) as (newText & w' & -> & Hcache').
    exists newText, w'. split; [done | congruence].
  - eexists _, _. split; [reflexivity|].
    unfold bind, emit, showNotice, emit, ret, exec, hide_if.
    destruct n; simpl; done.
Qed.

(** X12. When every parser of a non-empty list fails, [embedUrl] leaves the
    document as it finds it, so the dummy block stays in the note; the
    error of the last parser is shown twice, once by [tryParsers] and once
    more by [embedUrl], after one notice for each of the parsers before
    it. *)
Theorem embedUrl_failure_keeps_dummy (url : string) (selectedParsers : list string)
    (settings : Settings) (locationInfo placeholderId fullText : string) (w : world) :
  selectedParsers ≠ [] →
  (∀ name, name ∈ selectedParsers →
           ∃ e, parser_outcome url settings locationInfo name = Rejected e) →
  ∃ e name w',
    embedUrl_resolve url selectedParsers settings locationInfo placeholderId fullText w
    = Some (Resolved fullText, w')
    ∧ last selectedParsers = Some name
    ∧ parser_outcome url settings locationInfo name = Rejected e
    ∧ shown_notices (log w')
      = payload_of "" e
        :: reverse (payload_of ""
                    <$> omap (failure_of url settings locationInfo) selectedParsers)
        ++ shown_notices (log w)
    ∧ head (reverse (payload_of ""
                     <$> omap (failure_of url settings locationInfo) selectedParsers))
      = Some (payload_of "" e).
Proof.
  intros Hne Hfail.
  assert (0 < length selectedParsers)%nat as Hlen
    by (destruct selectedParsers; [done | simpl; lia]).
  destruct (loop_exhausts url selectedParsers settings locationInfo
              (S (length selectedParsers)) 0 None w Hlen ltac:(lia))
    as (e & n & w1 & Hrun & (name & Hlast & Hout) & _ & Hshown & _).
  { intros j pj _ Hj. apply Hfail. by eapply list_elem_of_lookup_2. }
  rewrite drop_0 in Hshown.
  exists e, name. unfold embedUrl_resolve, tryParsers. rewrite Hrun.
  eexists. split; [reflexivity|]. split; [done|]. split; [done|].
  split; [simpl; by rewrite Hshown|].
  destruct (exists_last Hne) as (front & name' & Hsplit).
  rewrite Hsplit in Hlast |- *. rewrite last_snoc in Hlast. injection Hlast as ->.
  rewrite omap_app. simpl. unfold failure_of at 2. rewrite Hout. simpl.
  by rewrite fmap_app, reverse_app.
Qed.

(** *** Computations that never reject, and what they add to the log *)

Lemma resolves_ret {A} (a : A) : resolves (ret a).
Proof. intros w. by exists a. Qed.

Lemma resolves_bind {A B} (m : M A) (k : A → M B) :
  resolves m → (∀ a, resolves (k a)) → resolves (bind m k).
Proof.
  intros Hm Hk w. unfold bind. destruct (Hm w) as [a Ha].
  destruct (m w) as [[a'|e] w1]; simpl in Ha; [|done]. apply Hk.
Qed.

Lemma resolves_try_catch {A} (m : M A) (handler : thrown → M A) :
  (∀ e, resolves (handler e)) → resolves (try_catch m handler).
Proof.
  intros Hh w. unfold try_catch. destruct (m w) as [[a|e] w1]; [by exists a|]. apply Hh.
Qed.

Lemma resolves_emit (e : event) : resolves (emit e).
Proof. intros w. by exists tt. Qed.

Lemma resolves_debug_log (dbg : bool) (message : string) : resolves (debug_log dbg message).
Proof. intros w. exists tt. by destruct dbg. Qed.

Lemma resolves_showNotice (payload : notice_payload) (context type : string) :
  resolves (showNotice payload context type).
Proof. intros w. by exists tt. Qed.

Lemma resolves_cache_has (key : string) : resolves (cache_has key).
Proof. intros w. by eexists. Qed.

Lemma resolves_cache_get (key : string) : resolves (cache_get key).
Proof. intros w. by eexists. Qed.

Lemma resolves_cache_set (key : string) (value : jsval) : resolves (cache_set key value).
Proof. intros w. by eexists. Qed.

Lemma resolves_renderEmbed (renderInfo : EmbedInfo.t) (imageUrl : option string)
    (aspectRatio : option Q) (el : nat) (settings : Settings) :
  resolves (renderEmbed renderInfo imageUrl aspectRatio el settings).
Proof. intros w. by eexists. Qed.

(** One step of the proof that a computation never rejects. *)
Ltac resolve_step :=
  lazymatch goal with
  | |- resolves (ret _) => apply resolves_ret
  | |- resolves (bind _ _) => apply resolves_bind; [|intros ?]
  | |- resolves (try_catch _ _) => apply resolves_try_catch; intros ?
  | |- resolves (emit _) => apply resolves_emit
  | |- resolves (debug_log _ _) => apply resolves_debug_log
  | |- resolves (showNotice _ _ _) => apply resolves_showNotice
  | |- resolves (cache_has _) => apply resolves_cache_has
  | |- resolves (cache_get _) => apply resolves_cache_get
  | |- resolves (cache_set _ _) => apply resolves_cache_set
  | |- resolves (renderEmbed _ _ _ _ _) => apply resolves_renderEmbed
  | |- resolves (if ?b then _ else _) => destruct b
  | |- resolves (match ?x with _ => _ end) => destruct x
  end.

Lemma bind_ret {A B} (a : A) (k : A → M B) : bind (ret a) k = k a.
Proof. reflexivity. Qed.

Lemma confined_ret {A} (P : event → Prop) (frame : bool) (Q : A → Prop) (a : A) :
  Q a → confined P frame Q (ret a).
Proof. intros Ha w. split; [by exists [] | by split]. Qed.

Lemma confined_bind {A B} (P : event → Prop) (frame : bool) (Q1 : A → Prop)
    (Q : B → Prop) (m : M A) (k : A → M B) :
  confined P frame Q1 m → (∀ a, Q1 a → confined P frame Q (k a)) →
  confined P frame Q (bind m k).
Proof.
  intros Hm Hk w. unfold bind.
  destruct (Hm w) as ((new & Hlog & Hnew) & Hc & Hq).
  destruct (m w) as [[a|e] w1]; simpl in Hlog, Hc, Hq.
  - destruct (Hk a Hq w1) as ((new' & Hlog' & Hnew') & Hc' & Hq').
    split; [|split; [|done]].
    + exists (new' ++ new). rewrite Hlog', Hlog, app_assoc. split; [done|].
      by apply Forall_app.
    + intros Hf. by rewrite Hc', Hc.
  - split; [by exists new | by split].
Qed.

Lemma confined_bind_any {A B} (P : event → Prop) (frame : bool) (Q : B → Prop)
    (m : M A) (k : A → M B) :
  confined P frame (λ _, True) m → (∀ a, confined P frame Q (k a)) →
  confined P frame Q (bind m k).
Proof. intros Hm Hk. eapply confined_bind; [exact Hm|]. intros a _. apply Hk. Qed.

Lemma confined_try_catch {A} (P : event → Prop) (frame : bool) (Q : A → Prop)
    (m : M A) (handler : thrown → M A) :
  confined P frame Q m → (∀ e, confined P frame Q (handler e)) →
  confined P frame Q (try_catch m handler).
Proof.
  intros Hm Hh w. unfold try_catch.
  destruct (Hm w) as ((new & Hlog & Hnew) & Hc & Hq).
  destruct (m w) as [[a|e] w1]; simpl in Hlog, Hc, Hq.
  - split; [by exists new | by split].
  - destruct (Hh e w1) as ((new' & Hlog' & Hnew') & Hc' & Hq').
    split; [|split; [|done]].
    + exists (new' ++ new). rewrite Hlog', Hlog, app_assoc. split; [done|].
      by apply Forall_app.
    + intros Hf. by rewrite Hc', Hc.
Qed.

Lemma confined_weaken {A} (P : event → Prop) (frame : bool) (Q Q' : A → Prop) (m : M A) :
  confined P frame Q m → (∀ a, Q a → Q' a) → confined P frame Q' m.
Proof.
  intros Hm HQ w. destruct (Hm w) as (Hlog & Hc & Hq). split; [done|]. split; [done|].
  destruct (m w).1; [by apply HQ | done].
Qed.

Lemma confined_emit (P : event → Prop) (frame : bool) (e : event) :
  P e → confined P frame (λ _, True) (emit e).
Proof.
  intros He w. split; [|by split]. exists [e]. split; [done|]. by constructor.
Qed.

Lemma confined_lift {A} (P : event → Prop) (frame : bool) (r : settled A) :
  confined P frame (λ _, True) (lift r).
Proof. intros w. split; [by exists [] | split; [done|]]. simpl. by destruct r. Qed.

Lemma confined_debug_log (P : event → Prop) (frame : bool) (dbg : bool) (message : string) :
  P (ConsoleLog message) → confined P frame (λ _, True) (debug_log dbg message).
Proof.
  intros He. destruct dbg; [by apply confined_emit | by apply confined_ret].
Qed.

Lemma confined_showNotice (P : event → Prop) (frame : bool) (payload : notice_payload)
    (context type : string) :
  P (ShowNotice payload context type) →
  confined P frame (λ _, True) (showNotice payload context type).
Proof. apply confined_emit. Qed.

Lemma confined_cache_has (P : event → Prop) (frame : bool) (key : string) :
  P (CacheHas key) → confined P frame (λ _, True) (cache_has key).
Proof.
  intros He w. split; [|by split]. exists [CacheHas key]. split; [done|]. by constructor.
Qed.

Lemma confined_cache_get (P : event → Prop) (frame : bool) (key : string) :
  P (CacheGet key) → confined P frame (λ _, True) (cache_get key).
Proof.
  intros He w. split; [|by split]. exists [CacheGet key]. split; [done|]. by constructor.
Qed.

Lemma confined_cache_set (P : event → Prop) (key : string) (value : jsval) :
  P (CacheSet key value) → confined P false (λ _, True) (cache_set key value).
Proof.
  intros He w. split; [|by split]. exists [CacheSet key value]. split; [done|].
  by constructor.
Qed.

Lemma confined_renderEmbed (P : event → Prop) (frame : bool) (renderInfo : EmbedInfo.t)
    (imageUrl : option string) (aspectRatio : option Q) (el : nat) (settings : Settings) :
  (∀ newEl, P (Rendered el newEl (templateData renderInfo imageUrl aspectRatio settings))) →
  confined P frame (λ _, True) (renderEmbed renderInfo imageUrl aspectRatio el settings).
Proof.
  intros He w. split; [|by split]. eexists [_]. split; [done|]. by constructor.
Qed.

(** One step of the proof that a computation is confined; the events are
    left as goals. *)
Ltac confine_step :=
  lazymatch goal with
  | |- confined _ _ _ (ret _) => by apply confined_ret
  | |- confined _ _ _ (bind _ _) => apply confined_bind_any; [|intros ?]
  | |- confined _ _ _ (try_catch _ _) => apply confined_try_catch; [|intros ?]
  | |- confined _ _ _ (emit _) => apply confined_emit
  | |- confined _ _ _ (lift _) => apply confined_lift
  | |- confined _ _ _ (debug_log _ _) => apply confined_debug_log
  | |- confined _ _ _ (showNotice _ _ _) => apply confined_showNotice
  | |- confined _ _ _ (cache_has _) => apply confined_cache_has
  | |- confined _ _ _ (cache_get _) => apply confined_cache_get
  | |- confined _ false _ (cache_set _ _) => apply confined_cache_set
  | |- confined _ _ _ (renderEmbed _ _ _ _ _) => apply confined_renderEmbed; intros ?
  | |- confined _ _ _ (if ?b then _ else _) => destruct b
  | |- confined _ _ _ (match ?x with _ => _ end) => destruct x
  end.

(** What [getFavicon] adds to the log are plain events, fetch events and,
    with caching enabled, cache events; with caching disabled the cache is
    left as it is. *)
Lemma getFavicon_confined (P : event → Prop) (frame : bool) (url : string)
    (settings : Settings) (dbg : bool) :
  (∀ e, plain_event e = true → P e) →
  (∀ e, is_fetch_event e = true → P e) →
  (useCache settings = true → ∀ e, is_cache_event e = true → P e) →
  (frame = true → useCache settings = false) →
  confined P frame (λ _, True) (getFavicon url settings dbg).
Proof.
  intros Hplain Hfetch Hcache Hframe.
  unfold getFavicon, getFavicon_try, fetchHtml.
  destruct (useCache settings) eqn:Huse.
  - destruct frame; [by specialize (Hframe eq_refl)|].
    specialize (Hcache eq_refl).
    repeat confine_step;
      first [ by apply Hplain | by apply Hfetch | by apply Hcache ].
  - rewrite bind_ret.
    repeat (rewrite ?andb_false_r; confine_step);
      first [ by apply Hplain | by apply Hfetch ].
Qed.

Lemma getFavicon_resolves (url : string) (settings : Settings) (dbg : bool) :
  resolves (getFavicon url settings dbg).
Proof. unfold getFavicon. repeat resolve_step. Qed.

(** *** [handleEmbedCodeBlock] *)

Lemma convertLocalImage_confined (P : event → Prop) (frame : bool)
    (settings : Settings) (L : Locals) :
  permits P frame settings →
  confined P frame (λ _, True) (convertLocalImage settings L).
Proof.
  intros [Hplain _ _ _]. unfold convertLocalImage.
  repeat confine_step; by apply Hplain.
Qed.

Lemma faviconPromise_confined (P : event → Prop) (frame : bool) (settings : Settings)
    (url : string) (L : Locals) :
  permits P frame settings →
  enableFavicon settings = true →
  confined P frame (λ _, True) (faviconPromise settings url L).
Proof.
  intros [Hplain Hfetch Hcache Hframe] Henabled. specialize (Hfetch Henabled).
  unfold faviconPromise.
  apply confined_try_catch; [|intros ?; repeat confine_step; by apply Hplain].
  apply confined_bind_any; [by apply getFavicon_confined|]. intros favicon.
  destruct (useCache settings) eqn:Huse.
  - destruct frame; [by specialize (Hframe eq_refl)|]. specialize (Hcache eq_refl).
    repeat confine_step; first [ by apply Hplain | by apply Hcache ].
  - simpl andb. cbv iota. repeat confine_step.
Qed.

Lemma faviconStep_confined (P : event → Prop) (frame : bool) (settings : Settings)
    (L : Locals) :
  permits P frame settings →
  confined P frame (λ r, promises_confined P frame r.2) (faviconStep settings L).
Proof.
  intros Hpermits. pose proof Hpermits as [Hplain Hfetch Hcache Hframe].
  unfold faviconStep.
  destruct (EmbedInfo.url (info L)) as [url|]; [|by apply confined_ret; constructor].
  destruct (negb (truthy_favicon (EmbedInfo.favicon (info L))) && truthy_string url)
    eqn:Hcond; simpl andb; [|by apply confined_ret; constructor].
  destruct (enableFavicon settings) eqn:Henabled; [|by apply confined_ret; constructor].
  apply confined_bind_any; [by apply confined_debug_log, Hplain|]. intros _.
  destruct (useCache settings) eqn:Huse.
  - destruct frame; [by specialize (Hframe eq_refl)|]. specialize (Hcache eq_refl).
    apply confined_bind_any; [by apply confined_cache_has, Hcache|]. intros hit.
    destruct hit.
    + apply confined_bind_any; [by apply confined_cache_get, Hcache|]. intros cached.
      apply confined_bind_any; [by apply confined_debug_log, Hplain|]. intros _.
      apply confined_ret. constructor.
    + apply confined_ret. constructor; [|constructor].
      intros L'. by apply faviconPromise_confined.
  - rewrite bind_ret. apply confined_ret. constructor; [|constructor].
    intros L'. by apply faviconPromise_confined.
Qed.

Lemma aspectRatioPromise_confined (P : event → Prop) (frame : bool)
    (settings : Settings) (el : nat) (image : string) (L : Locals) :
  permits P frame settings →
  confined P frame (λ _, True) (aspectRatioPromise settings el image L).
Proof.
  intros [Hplain _ Hcache Hframe]. unfold aspectRatioPromise.
  destruct (useCache settings) eqn:Huse.
  - destruct frame; [by specialize (Hframe eq_refl)|]. specialize (Hcache eq_refl).
    repeat confine_step; first [ by apply Hplain | by apply Hcache ].
  - repeat confine_step; by apply Hplain.
Qed.

Lemma aspectRatioStep_confined (P : event → Prop) (frame : bool) (settings : Settings)
    (el : nat) (L : Locals) :
  permits P frame settings →
  confined P frame (λ r, promises_confined P frame r.2) (aspectRatioStep settings el L).
Proof.
  intros Hpermits. pose proof Hpermits as [Hplain _ Hcache Hframe].
  unfold aspectRatioStep.
  destruct (EmbedInfo.image (info L)) as [image|]; [|by apply confined_ret; constructor].
  destruct (respectImageAspectRatio settings
            && negb (truthy_ratio (EmbedInfo.aspectRatio (info L)))
            && truthy_string image); [|by apply confined_ret; constructor].
  destruct (useCache settings) eqn:Huse.
  - destruct frame; [by specialize (Hframe eq_refl)|]. specialize (Hcache eq_refl).
    apply confined_bind_any; [by apply confined_cache_has, Hcache|]. intros hit.
    destruct hit.
    + apply confined_bind_any; [by apply confined_cache_get, Hcache|]. intros cached.
      apply confined_bind_any; [by apply confined_debug_log, Hplain|]. intros _.
      apply confined_ret. constructor.
    + apply confined_ret. constructor; [|constructor].
      intros L'. by apply aspectRatioPromise_confined.
  - rewrite bind_ret. apply confined_ret. constructor; [|constructor].
    intros L'. by apply aspectRatioPromise_confined.
Qed.

Lemma settle_all_confined (P : event → Prop) (frame : bool) (promises : list Promise) :
  promises_confined P frame promises →
  ∀ L, confined P frame (λ _, True) (settle_all promises L).
Proof.
  induction 1 as [|p rest Hp _ IH]; intros L; simpl.
  - by apply confined_ret.
  - apply confined_bind_any; [apply Hp | apply IH].
Qed.

(** The events of [handleEmbedCodeBlock] are plain events, the renders of
    the block, fetch events when favicons are enabled and cache events when
    caching is enabled; with caching disabled the cache is left as it
    is. *)
Lemma handleEmbedCodeBlock_confined (P : event → Prop) (frame : bool)
    (source : string) (el : nat) (settings : Settings) :
  permits P frame settings →
  (∀ el newEl renderInfo imageUrl aspectRatio,
     P (Rendered el newEl (templateData renderInfo imageUrl aspectRatio settings))) →
  confined P frame (λ _, True) (handleEmbedCodeBlock source el settings).
Proof.
  intros Hpermits Hrender. pose proof Hpermits as [Hplain _ _ _].
  unfold handleEmbedCodeBlock.
  destruct (isDummyEmbed (parseYaml (stripLineMargins source))).
  { apply confined_bind_any; [by apply confined_renderEmbed | by intros; apply confined_ret]. }
  apply confined_bind_any; [by apply convertLocalImage_confined|]. intros L1.
  eapply confined_bind; [by apply faviconStep_confined|]. intros [L2 faviconPromises] Hf.
  eapply confined_bind; [by apply aspectRatioStep_confined|]. intros [L3 ratioPromises] Hr.
  apply confined_bind_any; [by apply confined_renderEmbed|]. intros newEl.
  apply confined_bind_any; [by apply confined_emit, Hplain|]. intros _.
  destruct (0 <? length (faviconPromises ++ ratioPromises))%nat; [|by apply confined_ret].
  apply confined_try_catch; [|intros ?; by apply confined_showNotice, Hplain].
  apply confined_bind_any.
  { apply settle_all_confined. by apply Forall_app. }
  intros L4. apply confined_bind_any; [by apply confined_renderEmbed|]. intros finalEl.
  apply confined_bind_any; [by apply confined_emit, Hplain|]. intros _.
  by apply confined_debug_log, Hplain.
Qed.

Lemma handleEmbedCodeBlock_resolves (source : string) (el : nat) (settings : Settings) :
  resolves (handleEmbedCodeBlock source el settings).
Proof.
  unfold handleEmbedCodeBlock, convertLocalImage, faviconStep, aspectRatioStep,
    addButtonHandlers.
  repeat resolve_step.
Qed.

Lemma plain_not_cache (e : event) : plain_event e = true → is_cache_event e = false.
Proof. by destruct e. Qed.

Lemma plain_not_fetch (e : event) : plain_event e = true → is_fetch_event e = false.
Proof. by destruct e. Qed.

Lemma plain_not_render (e : event) : plain_event e = true → is_render_event e = false.
Proof. by destruct e. Qed.

Lemma cache_accesses_new (new old : list event) :
  Forall (λ e, is_cache_event e = false) new →
  cache_accesses (new ++ old) = cache_accesses old.
Proof. induction 1 as [|e new He _ IH]; [done|]. simpl. by rewrite He. Qed.

Lemma renders_new (new old : list event) :
  Forall (λ e, is_render_event e = false) new → renders (new ++ old) = renders old.
Proof. induction 1 as [|e new He _ IH]; [done|]. simpl. by destruct e. Qed.

(** X13. On a block that parses, [handleEmbedCodeBlock] never rejects:
    whatever fields [parseYaml] found, and whatever the image conversion,
    the favicon fetch and the image probe do (each of them may reject), the
    call resolves; and it only adds to the log of effects. *)
Theorem handleEmbedCodeBlock_never_rejects (source : string) (el : nat)
    (settings : Settings) (w : world) :
  ∃ w' new,
    handleEmbedCodeBlock source el settings w = (Resolved tt, w')
    ∧ log w' = new ++ log w.
Proof.
  destruct (handleEmbedCodeBlock_resolves source el settings w) as [[] Hr].
  destruct (handleEmbedCodeBlock_confined (λ _, True) false source el settings)
    with (w := w) as ((new & Hlog & _) & _); [by split | done |].
  destruct (handleEmbedCodeBlock source el settings w) as [r w'].
  simpl in Hr, Hlog. subst r. by exists w', new.
Qed.

(** X14. With caching disabled, [handleEmbedCodeBlock] neither reads nor
    writes the cache, for every block: the cache after the call is the
    cache before it, and the call adds no cache operation to the log. *)
Theorem handleEmbedCodeBlock_without_cache (source : string) (el : nat)
    (settings : Settings) (w : world) :
  useCache settings = false →
  cache (handleEmbedCodeBlock source el settings w).2 = cache w
  ∧ cache_accesses (log (handleEmbedCodeBlock source el settings w).2)
    = cache_accesses (log w).
Proof.
  intros Huse.
  destruct (handleEmbedCodeBlock_confined (λ e, is_cache_event e = false) true
              source el settings) with (w := w) as ((new & Hlog & Hnew) & Hcache & _).
  - split.
    + apply plain_not_cache.
    + intros _ e. by destruct e.
    + rewrite Huse. done.
    + done.
  - done.
  - split; [by apply Hcache|]. rewrite Hlog. by apply cache_accesses_new.
Qed.

(** X15. With favicons disabled, [handleEmbedCodeBlock] fetches nothing
    for a favicon, for every block: none of the events it adds to the log
    is a fetch event (no parser is created, no page is requested or
    parsed), and every render it makes hands the empty string to the
    template as favicon. *)
Theorem handleEmbedCodeBlock_favicon_disabled (source : string) (el : nat)
    (settings : Settings) (w : world) :
  enableFavicon settings = false →
  ∃ new,
    log (handleEmbedCodeBlock source el settings w).2 = new ++ log w
    ∧ Forall (λ e, is_fetch_event e = false) new
    ∧ Forall (λ favicon, favicon = Some (VString "")) (rendered_favicons new).
Proof.
  intros Hoff.
  destruct (handleEmbedCodeBlock_confined
              (λ e, is_fetch_event e = false
                    ∧ match e with
                      | Rendered _ _ d => td_favicon d = Some (VString "")
                      | _ => True
                      end)
              false source el settings) with (w := w) as ((new & Hlog & Hnew) & _).
  - split.
    + intros e He. split; [by apply plain_not_fetch | by destruct e].
    + rewrite Hoff. done.
    + intros _ e He. by destruct e.
    + done.
  - intros. split; [done|]. unfold templateData. simpl. by rewrite Hoff.
  - exists new. split; [done|]. split.
    + eapply Forall_impl; [exact Hnew|]. by intros e [? _].
    + clear Hlog. induction Hnew as [|e new [_ He] _ IH]; [constructor|].
      destruct e; simpl; try done. by constructor.
Qed.

Lemma run_quietly {A} (Q : A → Prop) (m : M A) (w : world) :
  resolves m →
  confined (λ e, is_render_event e = false) false Q m →
  ∃ a w1, m w = (Resolved a, w1) ∧ renders (log w1) = renders (log w) ∧ Q a.
Proof.
  intros Hr Hc. destruct (Hr w) as [a Ha].
  destruct (Hc w) as ((new & Hlog & Hnew) & _ & Hq).
  destruct (m w) as [r w1]. simpl in Ha, Hlog, Hq. subst r.
  exists a, w1. split; [done|]. split; [|done]. rewrite Hlog. by apply renders_new.
Qed.

Lemma permits_no_render (settings : Settings) :
  permits (λ e, is_render_event e = false) false settings.
Proof. split; [apply plain_not_render | intros _ e; by destruct e.. | done]. Qed.

Lemma bind_fail {A B} (m : M A) (k : A → M B) (w w1 : world) (e : thrown) :
  m w = (Rejected e, w1) → bind m k w = (Rejected e, w1).
Proof. intros H. unfold bind. by rewrite H. Qed.

Lemma bind_renderEmbed {B} (renderInfo : EmbedInfo.t) (imageUrl : option string)
    (aspectRatio : option Q) (el : nat) (settings : Settings) (k : nat → M B) (w : world) :
  bind (renderEmbed renderInfo imageUrl aspectRatio el settings) k w
  = k (fresh w)
      (World (cache w)
         (Rendered el (fresh w) (templateData renderInfo imageUrl aspectRatio settings)
          :: log w)
         (S (fresh w))).
Proof. reflexivity. Qed.

Lemma bind_emit {B} (e : event) (k : unit → M B) (w : world) :
  bind (emit e) k w = k tt (record_event e w).
Proof. reflexivity. Qed.

Lemma bind_run {A B} (m : M A) (k : A → M B) (w w1 : world) (a : A) :
  m w = (Resolved a, w1) → bind m k w = k a w1.
Proof. intros H. unfold bind. by rewrite H. Qed.

(** X16. [handleEmbedCodeBlock] renders a block that parses once or twice,
    and in a chain: the first render replaces the element of the block, and
    the final render, if there is one, replaces the element that the first
    render made. *)
Theorem handleEmbedCodeBlock_renders (source : string) (el : nat)
    (settings : Settings) (w : world) :
  ∃ first,
    renders (log (handleEmbedCodeBlock source el settings w).2)
    = (el, first) :: renders (log w)
    ∨ ∃ final,
        renders (log (handleEmbedCodeBlock source el settings w).2)
        = (first, final) :: (el, first) :: renders (log w).
Proof.
  unfold handleEmbedCodeBlock.
  set (parsed := parseYaml (stripLineMargins source)).
  destruct (isDummyEmbed parsed).
  { exists (fresh w). by left. }
  pose proof (permits_no_render settings) as Hpermits.
  destruct (run_quietly (λ _, True) (convertLocalImage settings
              {| info := parsed; originalInfo := parsed |}) w)
    as (L1 & w1 & E1 & R1 & _).
  { unfold convertLocalImage. repeat resolve_step. }
  { by apply convertLocalImage_confined. }
  rewrite (bind_run _ _ _ _ _ E1).
  destruct (run_quietly _ (faviconStep settings L1) w1
              ltac:(unfold faviconStep; repeat resolve_step)
              (faviconStep_confined _ _ settings L1 Hpermits))
    as ([L2 faviconPromises] & w2 & E2 & R2 & Hf).
  rewrite (bind_run _ _ _ _ _ E2).
  destruct (run_quietly _ (aspectRatioStep settings el L2) w2
              ltac:(unfold aspectRatioStep; repeat resolve_step)
              (aspectRatioStep_confined _ _ settings el L2 Hpermits))
    as ([L3 ratioPromises] & w3 & E3 & R3 & Hr).
  rewrite (bind_run _ _ _ _ _ E3).
  exists (fresh w3). unfold addButtonHandlers. rewrite bind_renderEmbed, bind_emit.
  set (w4 := record_event (HandlersAttached (fresh w3)) _).
  assert (renders (log w4) = (el, fresh w3) :: renders (log w)) as R4
    by (simpl; congruence).
  clearbody w4.
  destruct (0 <? length (faviconPromises ++ ratioPromises))%nat; [|by left].
  destruct (settle_all_confined _ false (faviconPromises ++ ratioPromises)
              ltac:(by apply Forall_app) L3 w4) as ((new & Hlog & Hnew) & _).
  destruct (settle_all (faviconPromises ++ ratioPromises) L3 w4) as [[L4|error] w5]
    eqn:E5; simpl in Hlog.
  - right. exists (fresh w5). unfold try_catch.
    rewrite (bind_run _ _ _ _ _ E5), bind_renderEmbed, bind_emit.
    destruct (debug settings); simpl; rewrite Hlog, renders_new by done; by rewrite R4.
  - left. unfold try_catch. rewrite (bind_fail _ _ _ _ _ E5).
    simpl. rewrite Hlog, renders_new by done. done.
Qed.

(** *** [LinkFaviconHandler.processLinks] *)

Lemma processLink_result (ls : LinkFaviconSettings) (settings : Settings)
    (link : Anchor) (w : world) :
  ∃ link' w',
    processLink ls settings link w = (Resolved link', w')
    ∧ (isDisabled ls link = true ∧ link' = link ∧ w' = w
       ∨ isDisabled ls link = false
         ∧ ∃ cs, link' = set_children (mark_processed link) cs
                 ∧ (cs = children link
                    ∨ ∃ icon, truthy icon = true
                              ∧ cs = if bool_decide (markdownLinkFaviconPosition ls = "before")
                                     then FaviconImg icon :: children link
                                     else children link ++ [FaviconImg icon])).
Proof.
  unfold processLink. destruct (isDisabled ls link) eqn:Hdis.
  { eexists _, _. split; [reflexivity|]. by left. }
  assert (∀ cs, cs = children link →
                set_children (mark_processed link) cs = mark_processed link) as Hsame
    by (by intros cs ->).
  unfold try_catch.
  destruct (negb (truthy_string (href (mark_processed link)))
            || negb (Js.startsWith (href (mark_processed link)) "http")).
  { eexists _, _. split; [reflexivity|]. right. split; [done|].
    exists (children link). split; [by rewrite Hsame | by left]. }
  destruct (getFavicon_resolves (href (mark_processed link)) settings (debug settings) w)
    as [favicon Hfav].
  destruct (getFavicon (href (mark_processed link)) settings (debug settings) w)
    as [r w1] eqn:E. simpl in Hfav. subst r.
  rewrite (bind_run _ _ _ _ _ E).
  destruct (truthy favicon) eqn:Htruthy.
  - rewrite bind_debug_log. eexists _, _. split; [reflexivity|]. right. split; [done|].
    eexists. split; [|right; exists favicon; split; [done | reflexivity]].
    by destruct (bool_decide (markdownLinkFaviconPosition ls = "before")).
  - eexists _, _. split; [reflexivity|]. right. split; [done|].
    exists (children link). split; [by rewrite Hsame | by left].
Qed.

Lemma processEach_passed_over (ls : LinkFaviconSettings) (settings : Settings)
    (links : list Anchor) (w : world) :
  Forall (passed_over ls) links →
  processEach ls settings links w = (Resolved links, w).
Proof.
  induction 1 as [|link rest Hlink _ IH]; [done|]. simpl.
  assert ((if selected_link link then processLink ls settings link else ret link) w
          = (Resolved link, w)) as Hstep.
  { unfold passed_over in Hlink. destruct (selected_link link); [|done].
    destruct Hlink as [|Hdis]; [done|]. unfold processLink. by rewrite Hdis. }
  rewrite (bind_run _ _ _ _ _ Hstep), (bind_run _ _ _ _ _ IH). done.
Qed.

Lemma processEach_result (ls : LinkFaviconSettings) (settings : Settings)
    (links : list Anchor) :
  ∀ w, ∃ links' w',
    processEach ls settings links w = (Resolved links', w')
    ∧ Forall2 (decorated ls) links links'
    ∧ Forall (passed_over ls) links'.
Proof.
  induction links as [|link rest IH]; intros w.
  { exists [], w. split; [done|]. split; constructor. }
  simpl.
  assert (∃ link' w1,
            (if selected_link link then processLink ls settings link else ret link) w
            = (Resolved link', w1)
            ∧ decorated ls link link' ∧ passed_over ls link')
    as (link' & w1 & Hstep & Hdec & Hpass).
  { destruct (selected_link link) eqn:Hsel.
    - destruct (processLink_result ls settings link w)
        as (link' & w1 & Hrun & [(Hdis & -> & ->)|(Hdis & cs & -> & Hcs)]).
      + exists link, w. split; [done|]. split; [by left | by right].
      + eexists _, w1. split; [exact Hrun|]. split.
        * right. split; [done|]. split; [done|]. by exists cs.
        * left. unfold selected_link. simpl. apply andb_false_r.
    - exists link, w. split; [done|]. split; [by left | by left]. }
  destruct (IH w1) as (rest' & w' & Hrest & Hdecs & Hpasses).
  exists (link' :: rest'), w'.
  rewrite (bind_run _ _ _ _ _ Hstep), (bind_run _ _ _ _ _ Hrest).
  split; [done|]. split; by constructor.
Qed.

(** X17. [processLinks] never rejects, and a second pass over the anchors
    it has processed does nothing, in whatever state the cache is by then:
    no anchor is changed again and nothing is fetched again, also for the
    links whose favicon could not be found. *)
Theorem processLinks_idempotent (ls : LinkFaviconSettings) (settings : Settings)
    (links : list Anchor) (w : world) :
  ∃ links' w',
    processLinks ls settings links w = (Resolved links', w')
    ∧ length links' = length links
    ∧ ∀ w2, processLinks ls settings links' w2 = (Resolved links', w2).
Proof.
  unfold processLinks.
  destruct (enableMarkdownLinkFavicon ls); simpl negb; cbv iota;
    [|exists links, w; by repeat split].
  destruct (enableMarkdownLinkFaviconInReading ls); simpl negb; cbv iota;
    [|exists links, w; by repeat split].
  destruct (processEach_result ls settings links w) as (links' & w' & Hrun & Hdec & Hpass).
  exists links', w'. split; [done|]. split; [by apply Forall2_length in Hdec|].
  intros w2. by apply processEach_passed_over.
Qed.

(** X18. What [processLinks] does to the anchors of an element: each
    anchor is left as it is, or, if it is an external link without the
    processed mark that is not disabled, it is marked as processed and gets
    at most one favicon image with a truthy source, as its first child when
    the position setting is [before] and as its last child otherwise. The
    text of every anchor is as before, and an anchor whose text holds
    [|nofavicon] is never touched. *)
Theorem processLinks_decorates (ls : LinkFaviconSettings) (settings : Settings)
    (links : list Anchor) (w : world) :
  ∃ links' w',
    processLinks ls settings links w = (Resolved links', w')
    ∧ Forall2 (decorated ls) links links'
    ∧ Forall2 (λ link link',
                 textContent link' = textContent link
                 ∧ href link' = href link
                 ∧ (Js.includes (textContent link) "|nofavicon" = true → link' = link))
        links links'.
Proof.
  assert (∃ links' w',
            processLinks ls settings links w = (Resolved links', w')
            ∧ Forall2 (decorated ls) links links') as (links' & w' & Hrun & Hdec).
  { unfold processLinks.
    destruct (enableMarkdownLinkFavicon ls); simpl negb; cbv iota.
    2: { exists links, w. split; [done|]. apply Forall2_same_length_lookup_2; [done|].
         intros i x y Hx Hy. left. congruence. }
    destruct (enableMarkdownLinkFaviconInReading ls); simpl negb; cbv iota.
    2: { exists links, w. split; [done|]. apply Forall2_same_length_lookup_2; [done|].
         intros i x y Hx Hy. left. congruence. }
    destruct (processEach_result ls settings links w) as (links' & w' & ? & ? & _).
    by exists links', w'. }
  exists links', w'. split; [done|]. split; [done|].
  eapply Forall2_impl; [exact Hdec|].
  intros link link' [->|(_ & Hdis & cs & -> & Hcs)]; [done|].
  split; [|split; [done|]].
  - unfold textContent. simpl.
    destruct Hcs as [->|(icon & _ & ->)]; [done|].
    destruct (bool_decide (markdownLinkFaviconPosition ls = "before")); [done|].
    rewrite foldr_app. simpl. done.
  - intros Hopt. unfold isDisabled in Hdis. rewrite Hopt in Hdis.
    by destruct (truthy_attribute (noFavicon link)),
                (truthy_attribute (linkFavicon link)).
Qed.

(** *** [FaviconDecorationSet.computeAsyncDecorations] *)

Lemma decorateToken_result (ls : LinkFaviconSettings) (settings : Settings)
    (token : TokenSpec) (decoCache : gmap string Decoration)
    (decorations : list PlacedDecoration) (w : world) :
  ∃ decoCache' decorations' w',
    decorateToken ls settings token decoCache decorations w
    = (Resolved (decoCache', decorations'), w')
    ∧ (match decoCache !! token_value token with
       | Some d =>
           decoCache' = decoCache ∧ w' = w
           ∧ decorations' = decorations ++ [placed_at token d]
       | None =>
           (decoCache' = decoCache ∧ decorations' = decorations)
           ∨ ∃ d, well_made ls d
                  ∧ decoCache' = <[token_value token := d]> decoCache
                  ∧ decorations' = decorations ++ [placed_at token d]
       end).
Proof.
  unfold decorateToken. destruct (decoCache !! token_value token) as [d|] eqn:Hd.
  { rewrite bind_ret. by eexists _, _, _. }
  destruct (getFavicon_resolves (token_value token) settings (debug settings) w)
    as [favicon Hfav].
  destruct (getFavicon (token_value token) settings (debug settings) w) as [r w1] eqn:E.
  simpl in Hfav. subst r.
  unfold bind at 1, try_catch. rewrite (bind_run _ _ _ _ _ E).
  destruct (truthy favicon) eqn:Htruthy.
  - eexists _, _, _. split; [reflexivity|]. right. eexists. split; [|by split].
    by split.
  - eexists _, _, _. split; [reflexivity|]. by left.
Qed.

Lemma decorateTokens_cached (ls : LinkFaviconSettings) (settings : Settings)
    (decoCache : gmap string Decoration) (w : world) (tokens : list TokenSpec) :
  ∀ decorations,
    Forall (λ token, is_Some (decoCache !! token_value token)) tokens →
    decorateTokens ls settings tokens decoCache decorations w
    = (Resolved
         (decoCache,
          decorations
          ++ omap (λ token, placed_at token <$> decoCache !! token_value token) tokens),
       w).
Proof.
  induction tokens as [|token rest IH]; intros decorations Hall.
  { simpl. by rewrite app_nil_r. }
  apply Forall_cons in Hall as [[d Hd] Hrest]. simpl.
  destruct (decorateToken_result ls settings token decoCache decorations w)
    as (dc' & ds' & w' & Hstep & Hcase).
  rewrite Hd in Hcase. destruct Hcase as (-> & -> & ->).
  rewrite (bind_run _ _ _ _ _ Hstep). cbv beta iota.
  rewrite IH by done. rewrite Hd. simpl. by rewrite <- app_assoc.
Qed.

(** X19. When the decoration cache knows every link of the tokens,
    [computeAsyncDecorations] fetches nothing and changes nothing: the
    world and the decoration cache are as before, and there is one
    decoration per token, the one of the cache for its link, without width
    at the start of the token; for no tokens the result is [null]. *)
Theorem computeAsyncDecorations_from_cache (ls : LinkFaviconSettings)
    (settings : Settings) (tokens : list TokenSpec)
    (decoCache : gmap string Decoration) (w : world) :
  Forall (λ token, is_Some (decoCache !! token_value token)) tokens →
  ∃ placed,
    computeAsyncDecorations ls settings tokens decoCache w
    = (Resolved (decoCache, if decide (tokens = []) then None else Some placed), w)
    ∧ Forall2 (λ token p,
                 placed_from p = token_from token
                 ∧ placed_to p = token_from token
                 ∧ decoCache !! token_value token = Some (deco p))
        tokens placed.
Proof.
  intros Hall.
  exists (omap (λ token, placed_at token <$> decoCache !! token_value token) tokens).
  split.
  - unfold computeAsyncDecorations.
    rewrite (bind_run _ _ _ _ _ (decorateTokens_cached ls settings decoCache w tokens []
                                   Hall)).
    cbv beta iota. rewrite app_nil_l.
    destruct tokens as [|token rest]; [done|].
    apply Forall_cons in Hall as [[d Hd] _]. simpl. rewrite Hd. done.
  - induction Hall as [|token rest [d Hd] _ IH]; [constructor|].
    simpl. rewrite Hd. simpl. constructor; [by rewrite Hd | done].
Qed.

Lemma decorateTokens_result (ls : LinkFaviconSettings) (settings : Settings)
    (tokens : list TokenSpec) :
  ∀ (decoCache : gmap string Decoration) (decorations : list PlacedDecoration)
    (w : world),
    ∃ decoCache' added w',
      decorateTokens ls settings tokens decoCache decorations w
      = (Resolved (decoCache', decorations ++ added), w')
      ∧ decoCache ⊆ decoCache'
      ∧ (∀ url d, decoCache' !! url = Some d →
                  decoCache !! url = Some d
                  ∨ (well_made ls d ∧ ∃ token, token ∈ tokens ∧ token_value token = url))
      ∧ Forall (λ p, ∃ token, token ∈ tokens
                              ∧ p = placed_at token (deco p)
                              ∧ decoCache' !! token_value token = Some (deco p))
          added.
Proof.
  induction tokens as [|token rest IH]; intros decoCache decorations w.
  { exists decoCache, [], w. simpl. rewrite app_nil_r.
    split; [done|]. split; [done|]. split; [by left | constructor]. }
  simpl.
  destruct (decorateToken_result ls settings token decoCache decorations w)
    as (dc1 & ds1 & w1 & Hstep & Hcase).
  rewrite (bind_run _ _ _ _ _ Hstep). cbv beta iota.
  destruct (IH dc1 ds1 w1) as (dc' & added & w' & Hrun & Hsub & Hnew & Hadded).
  rewrite Hrun.
  assert (∀ p, (∃ t, t ∈ rest ∧ p = placed_at t (deco p)
                     ∧ dc' !! token_value t = Some (deco p)) →
               ∃ t, t ∈ token :: rest ∧ p = placed_at t (deco p)
                    ∧ dc' !! token_value t = Some (deco p)) as Hlater.
  { intros p (t & Ht & Hp & Hdc). exists t. split; [by apply list_elem_of_further | done]. }
  destruct (decoCache !! token_value token) as [d|] eqn:Hd.
  - destruct Hcase as (-> & -> & ->).
    exists dc', (placed_at token d :: added), w'.
    split; [by rewrite <- app_assoc|]. split; [done|]. split.
    + intros url d' Hd'. destruct (Hnew url d' Hd') as [|(Hw & t & Ht & Hu)]; [by left|].
      right. split; [done|]. exists t. split; [by apply list_elem_of_further | done].
    + constructor; [|by eapply Forall_impl].
      exists token. split; [by apply list_elem_of_here|]. split; [done|].
      simpl. by eapply lookup_weaken.
  - destruct Hcase as [[-> ->]|(d & Hmade & -> & ->)].
    + exists dc', added, w'. split; [done|]. split; [done|]. split.
      * intros url d' Hd'. destruct (Hnew url d' Hd') as [|(Hw & t & Ht & Hu)]; [by left|].
        right. split; [done|]. exists t. split; [by apply list_elem_of_further | done].
      * by eapply Forall_impl.
    + exists dc', (placed_at token d :: added), w'.
      split; [by rewrite <- app_assoc|]. split.
      { etrans; [|exact Hsub]. by apply insert_subseteq. }
      split.
      * intros url d' Hd'.
        destruct (Hnew url d' Hd') as [Hin|(Hw & t & Ht & Hu)].
        -- destruct (decide (url = token_value token)) as [->|Hne].
           ++ rewrite lookup_insert_eq in Hin. injection Hin as <-. right.
              split; [done|]. exists token. split; [apply list_elem_of_here | done].
           ++ rewrite lookup_insert_ne in Hin by done. by left.
        -- right. split; [done|]. exists t.
           split; [by apply list_elem_of_further | done].
      * constructor; [|by eapply Forall_impl].
        exists token. split; [by apply list_elem_of_here|]. split; [done|].
        simpl. eapply lookup_weaken; [|exact Hsub]. apply lookup_insert_eq.
Qed.

(** X20. [computeAsyncDecorations] never rejects, for any tokens and any
    decoration cache. The decoration cache only grows, and every entry it
    gains is for the link of one of the tokens and holds a truthy favicon
    on the side of the position setting: a link without a favicon is never
    cached. The result is [null] or a list that is not empty, and every
    decoration of it has no width, sits at the start of one of the tokens
    and is the entry of the decoration cache for the link of that token. *)
Theorem computeAsyncDecorations_spec (ls : LinkFaviconSettings) (settings : Settings)
    (tokens : list TokenSpec) (decoCache : gmap string Decoration) (w : world) :
  ∃ decoCache' result w',
    computeAsyncDecorations ls settings tokens decoCache w
    = (Resolved (decoCache', result), w')
    ∧ decoCache ⊆ decoCache'
    ∧ (∀ url d, decoCache' !! url = Some d →
                decoCache !! url = Some d
                ∨ (well_made ls d ∧ ∃ token, token ∈ tokens ∧ token_value token = url))
    ∧ result ≠ Some []
    ∧ ∀ placed, result = Some placed →
        Forall (λ p, placed_to p = placed_from p
                     ∧ ∃ token, token ∈ tokens
                                ∧ placed_from p = token_from token
                                ∧ decoCache' !! token_value token = Some (deco p))
          placed.
Proof.
  destruct (decorateTokens_result ls settings tokens decoCache [] w)
    as (dc' & added & w' & Hrun & Hsub & Hnew & Hadded).
  rewrite app_nil_l in Hrun. unfold computeAsyncDecorations.
  rewrite (bind_run _ _ _ _ _ Hrun). cbv beta iota.
  assert (Forall (λ p, placed_to p = placed_from p
                       ∧ ∃ token, token ∈ tokens
                                  ∧ placed_from p = token_from token
                                  ∧ dc' !! token_value token = Some (deco p)) added)
    as Hplaced.
  { eapply Forall_impl; [exact Hadded|]. intros p (t & Ht & Hp & Hdc).
    rewrite Hp. simpl. split; [done|]. by exists t. }
  destruct added as [|p added].
  - exists dc', None, w'. repeat split; try done.
  - exists dc', (Some (p :: added)), w'. split; [done|]. split; [done|].
    split; [done|]. split; [done|]. intros placed [= <-]. done.
Qed.

(** *** [findOpenParen] *)

Lemma char_at_nat (text : string) (m : nat) :
  char_at text (Z.of_nat m) = Js.chars text !! m.
Proof.
  unfold char_at. destruct (Z.ltb_spec (Z.of_nat m) 0); [lia|]. by rewrite Nat2Z.id.
Qed.

Lemma take_S_lookup {A} (l : list A) (m : nat) (c : A) :
  l !! m = Some c → take (S m) l = take m l ++ [c].
Proof. intros H. by rewrite (take_S_r _ _ _ H). Qed.

(** The loop of [findOpenParen] from a position inside the text: it ends
    at the start of the text when the closing brackets still open are never
    matched, and at the opening bracket that matches them otherwise. *)
Lemma findOpenParen_loop_scan (text : string) :
  ∀ (n counter fuel : nat),
    (n ≤ length (Js.chars text))%nat → (n < fuel)%nat →
    (findOpenParen_loop fuel text (Z.of_nat n) (Z.of_nat (S counter)) = Some (-1)
     ∧ unmatched (reverse (take n (Js.chars text))) (S counter))
    ∨ ∃ r, (r < n)%nat
           ∧ findOpenParen_loop fuel text (Z.of_nat n) (Z.of_nat (S counter))
             = Some (Z.of_nat r)
           ∧ Js.chars text !! r = Some open_bracket
           ∧ closes (reverse (drop r (take n (Js.chars text)))) (S counter).
Proof.
  induction n as [|m IH]; intros counter fuel Hn Hfuel.
  { left. destruct fuel as [|fuel]; [lia|]. split; [|by rewrite take_0]. done. }
  destruct fuel as [|fuel]; [lia|].
  destruct (lookup_lt_is_Some_2 (Js.chars text) m ltac:(lia)) as [c Hc].
  assert (findOpenParen_loop (S fuel) text (Z.of_nat (S m)) (Z.of_nat (S counter))
          = if bool_decide (c = open_bracket)
            then findOpenParen_loop fuel text (Z.of_nat m) (Z.of_nat counter)
            else if bool_decide (c = close_bracket)
            then findOpenParen_loop fuel text (Z.of_nat m) (Z.of_nat (S (S counter)))
            else findOpenParen_loop fuel text (Z.of_nat m) (Z.of_nat (S counter)))
    as ->.
  { cbn [findOpenParen_loop].
    destruct (Z.ltb_spec 0 (Z.of_nat (S counter))) as [_|]; [|lia].
    replace (Z.of_nat (S m) - 1) with (Z.of_nat m) by lia.
    rewrite char_at_nat, Hc.
    replace (Z.of_nat (S counter) - 1) with (Z.of_nat counter) by lia.
    replace (Z.of_nat (S counter) + 1) with (Z.of_nat (S (S counter))) by lia.
    done. }
  rewrite (take_S_lookup _ _ _ Hc), reverse_app. simpl reverse. simpl app.
  assert (∀ r, (r ≤ m)%nat →
               reverse (drop r (take m (Js.chars text) ++ [c]))
               = c :: reverse (drop r (take m (Js.chars text)))) as Hdrop.
  { intros r Hr. rewrite drop_app_le by (rewrite length_take; lia).
    by rewrite reverse_app. }
  destruct (bool_decide (c = open_bracket)) eqn:Hopen.
  - destruct counter as [|counter].
    + right. exists m. split; [lia|]. split.
      * destruct fuel as [|fuel]; [lia|]. done.
      * apply bool_decide_eq_true in Hopen. split; [congruence|].
        rewrite Hdrop by lia. rewrite drop_ge by (rewrite length_take; lia).
        simpl. by rewrite bool_decide_true.
    + destruct (IH counter fuel ltac:(lia) ltac:(lia))
        as [[Hrun Hun]|(r & Hr & Hrun & Hat & Hcl)].
      * left. split; [done|]. simpl. by rewrite Hopen.
      * right. exists r. split; [lia|]. split; [done|]. split; [done|].
        rewrite Hdrop by lia. simpl. by rewrite Hopen.
  - destruct (bool_decide (c = close_bracket)) eqn:Hclose.
    + destruct (IH (S counter) fuel ltac:(lia) ltac:(lia))
        as [[Hrun Hun]|(r & Hr & Hrun & Hat & Hcl)].
      * left. split; [done|]. simpl. by rewrite Hopen, Hclose.
      * right. exists r. split; [lia|]. split; [done|]. split; [done|].
        rewrite Hdrop by lia. simpl. by rewrite Hopen, Hclose.
    + destruct (IH counter fuel ltac:(lia) ltac:(lia))
        as [[Hrun Hun]|(r & Hr & Hrun & Hat & Hcl)].
      * left. split; [done|]. simpl. by rewrite Hopen, Hclose.
      * right. exists r. split; [lia|]. split; [done|]. split; [done|].
        rewrite Hdrop by lia. simpl. by rewrite Hopen, Hclose.
Qed.

(** X21. For a text with an opening bracket and a position inside the
    text, [findOpenParen] finds the opening bracket that matches a closing
    bracket at the position: reading from the position to the left, with
    nested pairs skipped, it returns the offset of the first opening
    bracket without a partner, and [-1] when there is none. *)
Theorem findOpenParen_matches (text : string) (closePos : nat) :
  Js.includes text "[" = true →
  (closePos ≤ String.length text)%nat →
  (findOpenParen text (Z.of_nat closePos) = Some (-1)
   ∧ unmatched (reverse (take closePos (Js.chars text))) 1)
  ∨ ∃ r, (r < closePos)%nat
         ∧ findOpenParen text (Z.of_nat closePos) = Some (Z.of_nat r)
         ∧ Js.chars text !! r = Some open_bracket
         ∧ closes (reverse (drop r (take closePos (Js.chars text)))) 1.
Proof.
  intros Hincl Hpos. unfold findOpenParen. rewrite Hincl. simpl negb. cbv iota.
  rewrite Nat2Z.id.
  apply (findOpenParen_loop_scan text closePos 0 (S (S closePos))); [|lia].
  by rewrite chars_length.
Qed.

(** X22. [findOpenParen] always returns. For a position that is not inside
    the text (zero or less, or beyond the end) and a text with an opening
    bracket, it returns the position minus one without reading a
    character: for the position [-1] that [lastIndexOf] gives when there
    is no closing bracket, the result is [-2], which is not the [-1] its
    caller tests for. For a text without an opening bracket it returns
    [0]. *)
Theorem findOpenParen_outside (text : string) (closePos : Z) :
  (∃ r, findOpenParen text closePos = Some r)
  ∧ (Js.includes text "[" = false → findOpenParen text closePos = Some 0)
  ∧ (Js.includes text "[" = true →
     closePos ≤ 0 ∨ Z.of_nat (String.length text) < closePos →
     findOpenParen text closePos = Some (closePos - 1))
  ∧ (Js.includes text "[" = true → findOpenParen text (-1) = Some (-2)).
Proof.
  assert (Js.includes text "[" = true →
          closePos ≤ 0 ∨ Z.of_nat (String.length text) < closePos →
          findOpenParen text closePos = Some (closePos - 1)) as Houtside.
  { intros Hincl Hpos. unfold findOpenParen. rewrite Hincl. simpl negb. cbv iota.
    cbn [findOpenParen_loop]. change (0 <? 1) with true. cbv iota.
    unfold char_at. destruct (Z.ltb_spec (closePos - 1) 0); [done|].
    rewrite lookup_ge_None_2; [done|]. rewrite chars_length. lia. }
  split; [|split; [|split; [done|]]].
  - destruct (Js.includes text "[") eqn:Hincl.
    + destruct (decide (0 < closePos ≤ Z.of_nat (String.length text))) as [Hin|Hout].
      * unfold findOpenParen. rewrite Hincl. simpl negb. cbv iota.
        destruct (findOpenParen_loop_scan text (Z.to_nat closePos) 0
                    (S (S (Z.to_nat closePos)))
                    ltac:(rewrite chars_length; lia) ltac:(lia))
          as [[Hrun _]|(r & _ & Hrun & _)]; rewrite Z2Nat.id in Hrun by lia;
          by eexists.
      * eexists. apply Houtside; [done | lia].
    + exists 0. unfold findOpenParen. by rewrite Hincl.
  - intros Hincl. unfold findOpenParen. by rewrite Hincl.
  - intros Hincl. unfold findOpenParen. by rewrite Hincl.
Qed.

(** *** The paste suggestion *)

(** X23. A paste triggers the suggestion at most once: after [onTrigger],
    whatever it did, the trigger flag of the paste information is down and
    the pasted text is kept, so the next [onTrigger], at any cursor,
    returns [null] and starts nothing. *)
Theorem onTrigger_one_shot (cursor currentCursor cursor' currentCursor' : Position)
    (pasteInfo : PasteInfo.t) (ss : SuggestSettings) (settings : Settings) :
  let pasteInfo' := (onTrigger cursor currentCursor pasteInfo ss settings).1.1 in
  PasteInfo.trigger pasteInfo' = false
  ∧ PasteInfo.text pasteInfo' = PasteInfo.text pasteInfo
  ∧ onTrigger cursor' currentCursor' pasteInfo' ss settings
    = (pasteInfo', NothingLaunched, None).
Proof.
  unfold onTrigger at 1. destruct (PasteInfo.trigger pasteInfo) eqn:Htrigger; simpl negb;
    cbv iota.
  - destruct (autoEmbedWhenEmpty ss && _); [by repeat split|].
    destruct (popup ss); by repeat split.
  - simpl. unfold onTrigger. rewrite Htrigger. by repeat split.
Qed.

(** X24. The paste handler and the suggestion together. After a paste
    that is no URL the suggestion does nothing, whatever was pasted
    before. After the paste of a URL that fills the line up to the cursor,
    with [autoEmbedWhenEmpty] set, no popup is opened and the default
    action is started on the pasted text, from column 0 to the cursor: the
    markdown link for the default action [markdown], the embed with the
    primary and the backup parser, in place, for any other. After the paste
    of a URL elsewhere in a line, or without [autoEmbedWhenEmpty], nothing
    is started, and the popup is opened exactly when [popup] is set, with
    the URL as query. *)
Theorem paste_then_trigger (clipboardText : string) (previous : PasteInfo.t)
    (cursor currentCursor : Position) (ss : SuggestSettings) (settings : Settings) :
  let pasted := handleEditorPaste clipboardText previous in
  let consumed := {| PasteInfo.trigger := false; PasteInfo.text := clipboardText |} in
  let boundary :=
    {| boundary_start := {| pos_line := pos_line currentCursor; pos_ch := 0 |};
       boundary_end := currentCursor |} in
  (isUrl clipboardText = false →
   onTrigger cursor currentCursor pasted ss settings
   = ({| PasteInfo.trigger := false; PasteInfo.text := "" |}, NothingLaunched, None))
  ∧ (isUrl clipboardText = true →
     autoEmbedWhenEmpty ss = true →
     pos_ch currentCursor = Z.of_nat (String.length clipboardText) →
     onTrigger cursor currentCursor pasted ss settings
     = (consumed,
        (if bool_decide (defaultPasteAction ss = "markdown")
         then MarkdownLinkLaunched clipboardText boundary
                [primary settings; backup settings]
         else EmbedLaunched clipboardText boundary
                [primary settings; backup settings] true),
        None))
  ∧ (isUrl clipboardText = true →
     autoEmbedWhenEmpty ss = false
     ∨ pos_ch currentCursor ≠ Z.of_nat (String.length clipboardText) →
     onTrigger cursor currentCursor pasted ss settings
     = (consumed, NothingLaunched,
        if popup ss
        then Some {| trigger_start := cursor; trigger_end := cursor;
                     query := clipboardText |}
        else None)).
Proof.
  intros pasted consumed boundary. unfold pasted, handleEditorPaste, onTrigger.
  split; [|split].
  - by intros ->.
  - intros -> -> Hch. simpl. rewrite Hch, Z.sub_diag. simpl.
    unfold convertToMarkdownLink, pastedBoundary. simpl. rewrite Hch, Z.sub_diag.
    done.
  - intros -> Hcase. simpl.
    assert (autoEmbedWhenEmpty ss
            && (pos_ch currentCursor - Z.of_nat (String.length clipboardText) =? 0)
            = false) as ->.
    { destruct Hcase as [->|Hne]; [done|]. apply andb_false_iff. right.
      apply Z.eqb_neq. lia. }
    by destruct (popup ss).
Qed.

(** X25. The menu of the suggestion and its selection. The menu always
    offers both actions, each once, the embed first exactly when the
    default action is [embed]; [Dismiss] comes first, unless [rmDismiss]
    is set, in which case it is not offered. Of the choices the menu
    offers, [Dismiss] is the only one whose selection starts nothing. *)
Theorem getSuggestions_spec (ss : SuggestSettings) (cursor : Position)
    (pasteInfo : PasteInfo.t) (settings : Settings) :
  let main :=
    if bool_decide (defaultPasteAction ss = "embed")
    then ["Create Embed Block"; "Create Markdown Link"]
    else ["Create Markdown Link"; "Create Embed Block"] in
  getSuggestions ss = (if rmDismiss ss then [] else ["Dismiss"]) ++ main
  ∧ NoDup (getSuggestions ss)
  ∧ (∀ choice, choice ∈ getSuggestions ss →
               selectSuggestion choice cursor pasteInfo settings = NothingLaunched
               ↔ choice = "Dismiss").
Proof.
  intros main. unfold main, getSuggestions.
  split; [by destruct (rmDismiss ss) | split].
  - destruct (rmDismiss ss), (bool_decide (defaultPasteAction ss = "embed"));
      repeat (constructor; [rewrite ?elem_of_cons, ?elem_of_nil; intros H;
                            repeat destruct H as [H|H]; done|]);
      constructor.
  - intros choice Hin.
    assert (choice = "Dismiss" ∨ choice = "Create Embed Block"
            ∨ choice = "Create Markdown Link") as Hcases.
    { destruct (rmDismiss ss), (bool_decide (defaultPasteAction ss = "embed"));
        rewrite ?elem_of_cons, ?elem_of_nil in Hin;
        repeat (destruct Hin as [Hin|Hin];
                [subst choice; first [by left | by right; left | by right; right]|]);
        done. }
    destruct Hcases as [-> | [-> | ->]]; done.
Qed.

(** *** [generateEmbedMarkdown] *)

Lemma escape_quotes_chars_quoted (l : list ascii) (k : nat) :
  Js.escape_quotes_chars l !! k = Some Js.dquote →
  ∃ j, k = S j ∧ Js.escape_quotes_chars l !! j = Some Js.backslash.
Proof.
  revert k. induction l as [|c l IH]; intros k Hk; [done|]. simpl in Hk |- *.
  destruct (bool_decide (c = Js.dquote)) eqn:Hc.
  - destruct k as [|[|k]]; simpl in Hk.
    + done.
    + by exists 0%nat.
    + destruct (IH k Hk) as (j & -> & Hj). by exists (S (S j)).
  - destruct k as [|k]; simpl in Hk.
    + injection Hk as ->. by rewrite bool_decide_true in Hc.
    + destruct (IH k Hk) as (j & -> & Hj). by exists (S j).
Qed.

Lemma escape_quotes_chars_plain (l : list ascii) :
  Js.dquote ∉ l → Js.escape_quotes_chars l = l.
Proof.
  induction l as [|c l IH]; [done|]. rewrite not_elem_of_cons. intros [Hc Hl].
  simpl. rewrite bool_decide_false by congruence. by rewrite IH.
Qed.

Lemma escape_quotes_chars_unescaped (l : list ascii) :
  filter (λ c, c ≠ Js.backslash) (Js.escape_quotes_chars l)
  = filter (λ c, c ≠ Js.backslash) l.
Proof.
  induction l as [|c l IH]; [done|]. simpl.
  destruct (bool_decide (c = Js.dquote)) eqn:Hc.
  - apply bool_decide_eq_true in Hc as ->.
    rewrite filter_cons_False by (intros H; by apply H).
    rewrite !filter_cons_True by done. by rewrite IH.
  - destruct (decide (c = Js.backslash)) as [->|Hne].
    + rewrite !filter_cons_False by (intros H; by apply H). done.
    + rewrite !filter_cons_True by done. by rewrite IH.
Qed.

(** X26. What [generateEmbedMarkdown] hands to the markdown template: the
    title and the description with a backslash in front of every double
    quote (and otherwise as the parser gave them: without a double quote
    they are unchanged, and apart from backslashes they read the same), the
    image, the URL and the aspect ratio as they are, the favicon only when
    favicons are enabled, and the metadata only when the metadata template
    is enabled and renders to a text that is not empty. The block ends
    with a line feed. *)
Theorem generateEmbedMarkdown_escapes (d : Metadata.t) (settings : Settings)
    (parserName : string) :
  ∃ md,
    generateEmbedMarkdown d settings parserName = renderMarkdownTemplate md +:+ newline
    ∧ (∀ k, Js.chars (md_title md) !! k = Some Js.dquote →
            ∃ j, k = S j ∧ Js.chars (md_title md) !! j = Some Js.backslash)
    ∧ (∀ k, Js.chars (md_description md) !! k = Some Js.dquote →
            ∃ j, k = S j ∧ Js.chars (md_description md) !! j = Some Js.backslash)
    ∧ filter (λ c, c ≠ Js.backslash) (Js.chars (md_title md))
      = filter (λ c, c ≠ Js.backslash) (Js.chars (Metadata.title d))
    ∧ filter (λ c, c ≠ Js.backslash) (Js.chars (md_description md))
      = filter (λ c, c ≠ Js.backslash) (Js.chars (Metadata.description d))
    ∧ (Js.dquote ∉ Js.chars (Metadata.title d) → md_title md = Metadata.title d)
    ∧ (Js.dquote ∉ Js.chars (Metadata.description d) →
       md_description md = Metadata.description d)
    ∧ md_image md = Metadata.image d
    ∧ md_url md = Metadata.url d
    ∧ md_aspectRatio md = Metadata.aspectRatio d
    ∧ md_favicon md = (if enableFavicon settings then Metadata.favicon d else "")
    ∧ md_metadata md ≠ Some ""
    ∧ (useMetadataTemplate settings = false → md_metadata md = None).
Proof.
  eexists. split; [reflexivity|]. cbn [md_title md_description md_image md_url
    md_aspectRatio md_favicon md_metadata]. unfold Js.escapeQuotes.
  rewrite !chars_str.
  split; [apply escape_quotes_chars_quoted|].
  split; [apply escape_quotes_chars_quoted|].
  split; [apply escape_quotes_chars_unescaped|].
  split; [apply escape_quotes_chars_unescaped|].
  split; [intros H; by rewrite escape_quotes_chars_plain, str_chars|].
  split; [intros H; by rewrite escape_quotes_chars_plain, str_chars|].
  repeat split.
  - destruct (useMetadataTemplate settings); [|done].
    destruct (truthy_string _) eqn:Ht; [|done].
    intros [= Heq]. rewrite Heq in Ht. done.
  - by intros ->.
Qed.

End Pipeline.

(** ** Sample inputs *)

Module Sample.

Definition settings : Settings :=
  {| useCache := false; enableFavicon := true; respectImageAspectRatio := true;
     debug := false; delay := 0; useMetadataTemplate := false;
     metadataTemplate := ""; primary := "local"; backup := "backup" |}.

Definition caching : Settings :=
  {| useCache := true; enableFavicon := true; respectImageAspectRatio := true;
     debug := false; delay := 0; useMetadataTemplate := false;
     metadataTemplate := ""; primary := "local"; backup := "backup" |}.

Definition url : string := "https://example.com".

(** A placeholder id as [embedUrl] makes them. *)
Definition X : string := placeholderId 1700000000000 "k3j9x2m1q".

Definition example : Metadata.t :=
  {| Metadata.title := "Example"; Metadata.image := "";
     Metadata.description := "An example"; Metadata.url := url;
     Metadata.favicon := ""; Metadata.aspectRatio := None |}.

(** A page whose title is the text of the placeholder id. *)
Definition mirrored : Metadata.t :=
  {| Metadata.title := X; Metadata.image := "";
     Metadata.description := "An example"; Metadata.url := url;
     Metadata.favicon := ""; Metadata.aspectRatio := None |}.

(** A registry of four parsers; any other name is refused. *)
Definition createParser (name : string) (_ : Settings) : settled string :=
  if bool_decide (name ∈ ["local"; "backup"; "mirror"; "plain"]) then Resolved name
  else Rejected (ErrorObject ("Unknown parser: " +:+ name)).

(** The local parser cannot reach the page and throws an [Error]; [plain]
    gives up by throwing a string; the other two parsers succeed. *)
Definition parser_parse (parser : string) (_ : bool) (_ _ : string) : settled Metadata.t :=
  if bool_decide (parser = "backup") then Resolved example
  else if bool_decide (parser = "mirror") then Resolved mirrored
  else if bool_decide (parser = "plain") then Rejected (OtherValue "timeout")
  else Rejected (ErrorObject "Network error").

(** The embedded browser gives nothing, the plain request gives the page,
    and the page has no icon. *)
Definition getHtmlByElectron (_ : string) (_ : bool) (_ : string) : settled (option string) :=
  Resolved None.
Definition getHtmlByRequest (_ : string) (_ : bool) (_ : string) : settled (option string) :=
  Resolved (Some "<html><head></head></html>").
Definition parseFromString (html : string) : string := html.
Definition new_URL (u : string) : settled string := Resolved u.
Definition parser_getFavicon (_ : string) (_ : bool) (_ _ : string) : settled (option string) :=
  Resolved None.

(** A registry that refuses every parser. *)
Definition noParser (name : string) (_ : Settings) : settled string :=
  Rejected (ErrorObject ("Unknown parser: " +:+ name)).

Definition field (key value : string) : string :=
  key +:+ ": " +:+ quote +:+ value +:+ quote +:+ newline.

(** Modelled from the spec: [MarkdownTemplate] of [./constants] is not among
    the sources. The block format of the spec is a fenced region tagged
    [embed] whose body has the keys title, image, description and url, and
    optionally favicon, aspectRatio and metadata (free text). *)
Definition markdownBody (d : MarkdownData) : string :=
  newline
  +:+ field "title" (md_title d)
  +:+ field "image" (md_image d)
  +:+ field "description" (md_description d)
  +:+ field "url" (md_url d)
  +:+ (if truthy_string (md_favicon d) then field "favicon" (md_favicon d) else "")
  +:+ (match md_aspectRatio d with
       | Some r =>
           field "aspectRatio"
             (Js.integer_to_string (Qnum r) +:+ "/"
              +:+ Js.integer_to_string (Z.pos (Qden r)))
       | None => ""
       end)
  +:+ (match md_metadata d with
       | Some m => m +:+ newline
       | None => ""
       end).

Definition markdownTemplate (d : MarkdownData) : string :=
  "```embed" +:+ markdownBody d +:+ "```".

Definition metadataTemplate (_ _ : string) : string := "".

Definition SPINNER : string := "data:image/gif;base64,R0lGODlhEAAQ".

(** A note with the dummy block of [embedUrl] between two lines of text. *)
Definition pre : string := "# Notes" +:+ newline.
Definition fullText : string := pre +:+ dummyEmbed markdownTemplate SPINNER url X +:+ "More text" +:+ newline.



(** The parsed fields of a dummy block, and of a block that differs from it
    in the title only. *)
Definition stub : EmbedInfo.t :=
  {| EmbedInfo.title := Some "Fetching"; EmbedInfo.image := Some SPINNER;
     EmbedInfo.description := Some ("Fetching " +:+ url); EmbedInfo.url := Some url;
     EmbedInfo.favicon := None; EmbedInfo.aspectRatio := None |}.

Definition titled : EmbedInfo.t :=
  {| EmbedInfo.title := Some "Example"; EmbedInfo.image := Some SPINNER;
     EmbedInfo.description := Some ("Fetching " +:+ url); EmbedInfo.url := Some url;
     EmbedInfo.favicon := None; EmbedInfo.aspectRatio := None |}.

Definition imageFileToBase64 (_ : string) : settled (option string) := Resolved None.
Definition getImageDimensions (_ : string) (_ : bool) : settled (option ImageDimensions) :=
  Resolved None.
Definition locationOf (_ : nat) : string := "note.md:3".

(** An empty world, and one whose cache knows the favicon of [url]. *)
Definition w0 : world := World ∅ [] 0.
Definition cached : world := World {[ url := VString "https://example.com/icon.png" ]} [] 0.

End Sample.

(** ** A sample note *)

Module Note.

Definition path : string := "notes/links.md".

(** An embed block, indented by two spaces. *)
Definition block : string :=
  "  ```embed" +:+ newline
  +:+ "  url: " +:+ quote +:+ Sample.url +:+ quote +:+ newline
  +:+ "  ```".

(** A note that holds the same block twice. *)
Definition content : string :=
  "# Links" +:+ newline +:+ block +:+ newline
  +:+ "# Again" +:+ newline +:+ block +:+ newline
  +:+ "The end".

Definition vault : Vault := {[ path := content ]}.

(** The section of the second block: lines 5 to 7. *)
Definition second : SectionInfo := {| lineStart := 5; lineEnd := 7 |}.

Definition ctx : Context :=
  {| sourcePath := path; getSectionInfo := λ _, Some second |}.

(** Settings without favicons. *)
Definition noFavicons : Settings :=
  {| useCache := true; enableFavicon := false; respectImageAspectRatio := true;
     debug := false; delay := 0; useMetadataTemplate := false;
     metadataTemplate := ""; primary := "local"; backup := "backup" |}.

(** A clipboard that takes the text of the block and no other. *)
Definition clipboard (text : string) : settled unit :=
  if bool_decide (text = block) then Resolved tt
  else Rejected (OtherValue "refused").

(** A sentence with a pasted URL, and the selection of that URL. *)
Definition sentence : string := "See " +:+ Sample.url +:+ " today".

Definition selected : Selected.t :=
  {| Selected.can := true; Selected.text := Sample.url;
     Selected.boundary_start := {| line := 0; ch := 4 |};
     Selected.boundary_end := {| line := 0; ch := 23 |} |}.

(** A token for the URL, and a decoration cache that knows its favicon. *)
Definition token : TokenSpec :=
  {| token_from := 4; token_to := 23; token_value := Sample.url |}.

Definition icon : Decoration :=
  {| faviconUrl := VString "https://example.com/icon.png"; side := -1 |}.

Definition decoCache : gmap string Decoration := {[ Sample.url := icon ]}.

Definition readingMode : LinkFaviconSettings :=
  {| enableMarkdownLinkFavicon := true; enableMarkdownLinkFaviconInReading := true;
     showMarkdownLinkFaviconOnAliased := true; showMarkdownLinkFaviconOnPlain := true;
     markdownLinkFaviconPosition := "before" |}.

(** A markdown link whose text has brackets of its own. *)
Definition aliased : string := "[a [b] c](http://x)".

End Note.



(** ** The theorems at the sample inputs *)

(** With the parsers [local] (which fails) and [backup] (which succeeds),
    [tryParsers] resolves to the data of [backup], and both parsers were
    instantiated and invoked. *)
Lemma tryParsers_first_success_witness :
  ∃ w', tryParsers string Sample.createParser Sample.parser_parse Sample.url
          ["local"; "backup"; "mirror"] Sample.settings "unknown:1" Sample.w0
        = Some (Resolved {| data := Sample.example; selectedParser := "backup" |}, w')
    ∧ instantiated (log w') = ["backup"; "local"]
    ∧ invoked (log w') = ["backup"; "local"]
    ∧ cache w' = ∅.
Proof.
  apply (tryParsers_first_success string Sample.createParser Sample.parser_parse
           Sample.url ["local"; "backup"; "mirror"] Sample.settings "unknown:1"
           1%nat "backup" Sample.example Sample.w0).
  - reflexivity.
  - reflexivity.
  - intros j pj Hj Hpj. destruct j as [|j]; [|lia].
    injection Hpj as <-. eexists. reflexivity.
Defined.

(** With the parsers [local] (which fails) and [remote] (which cannot be
    created), [tryParsers] rejects with the error of [remote], after one
    failure notice for each. *)
Lemma tryParsers_all_fail_witness :
  (∃ r w', tryParsers string Sample.createParser Sample.parser_parse Sample.url
             ["local"; "remote"] Sample.settings "unknown:1" Sample.w0 = Some (r, w')
           ∧ open_notices (log w') = [])
  ∧ (∃ e w', tryParsers string Sample.createParser Sample.parser_parse Sample.url
               ["local"; "remote"] Sample.settings "unknown:1" Sample.w0
             = Some (Rejected e, w')
       ∧ (∃ name, last ["local"; "remote"] = Some name
                  ∧ parser_outcome string Sample.createParser Sample.parser_parse
                      Sample.url Sample.settings "unknown:1" name = Rejected e)
       ∧ shown_notices (log w')
         = [PayloadError "Unknown parser: remote"; PayloadError "Network error"]
       ∧ length (created_notices (log w')) = 2%nat).
Proof.
  destruct (tryParsers_all_fail string Sample.createParser Sample.parser_parse
              Sample.url ["local"; "remote"] Sample.settings "unknown:1") as [Hany Hall].
  split.
  - apply Hany. reflexivity.
  - destruct (Hall ltac:(discriminate)) with (w := Sample.w0)
      as (e & w' & Hrun & Hlast & Hshown & _ & Hcreated & _).
    + intros name Hin. apply elem_of_cons in Hin as [->|Hin]; [eexists; reflexivity|].
      apply list_elem_of_singleton in Hin as ->. eexists. reflexivity.
    + exists e, w'. split; [exact Hrun|]. split; [exact Hlast|].
      split; [exact Hshown | exact Hcreated].
Defined.


(** A document without the placeholder id is left as it is. *)
Lemma replaceDummy_cancels_witness :
  replaceDummy "# Notes" Sample.X Sample.url "final" "backup" Sample.w0
  = (Resolved "# Notes", World ∅ [NoticeCreated 0 cancelled] 1).
Proof.
  apply (replaceDummy_cancels "# Notes" Sample.X Sample.url "final" "backup" Sample.w0).
  apply id_absent. apply not_includes. by vm_compute.
Defined.

(** When no parser can be created the favicon fetch fails, and when the
    page has no icon the extraction gives nothing: [getFavicon] resolves to
    the empty string both times, with a notice for the failure only and
    with the cache untouched. *)
Lemma getFavicon_never_rejects_witness :
  (∃ w', getFavicon string Sample.noParser Sample.getHtmlByElectron
           Sample.getHtmlByRequest string Sample.parseFromString string Sample.new_URL
           Sample.parser_getFavicon Sample.url Sample.settings false Sample.w0
         = (Resolved (VString ""), w')
     ∧ shown_notices (log w') = [PayloadError "Unknown parser: local"]
     ∧ cache w' = ∅)
  ∧ (∃ w', getFavicon string Sample.createParser Sample.getHtmlByElectron
             Sample.getHtmlByRequest string Sample.parseFromString string Sample.new_URL
             Sample.parser_getFavicon Sample.url Sample.settings false Sample.w0
           = (Resolved (VString ""), w')
       ∧ shown_notices (log w') = []
       ∧ cache w' = ∅).
Proof.
  split.
  - destruct (getFavicon_never_rejects string Sample.noParser Sample.getHtmlByElectron
                Sample.getHtmlByRequest string Sample.parseFromString string
                Sample.new_URL Sample.parser_getFavicon Sample.url Sample.settings false)
      as (_ & Hcaught & _).
    apply (Hcaught Sample.w0 (ErrorObject "Unknown parser: local")).
    + left. reflexivity.
    + apply parser_failed. reflexivity.
  - destruct (getFavicon_never_rejects string Sample.createParser
                Sample.getHtmlByElectron Sample.getHtmlByRequest string
                Sample.parseFromString string Sample.new_URL Sample.parser_getFavicon
                Sample.url Sample.settings false)
      as (_ & _ & Hnothing & _).
    apply (Hnothing Sample.w0 "local" "<html><head></head></html>" Sample.url None).
    + left. reflexivity.
    + reflexivity.
    + reflexivity.
    + reflexivity.
    + reflexivity.
    + reflexivity.
    + reflexivity.
Defined.

(** For the aspect ratio 3/2 the quotient is no double and the width is
    10667, as the exact quotient gives it; for the aspect ratio 2 the
    quotient is the double 8000; and the equal ratio 6/4 gives the same
    width as 3/2. *)
Lemma calculatedWidth_spec_witness :
  (calculatedWidth (Some (3 # 2)) = Math_round (to_double (16000 / (3 # 2)))
   ∧ Math_round (16000 / (3 # 2)) - 1 ≤ calculatedWidth (Some (3 # 2))
     ≤ Math_round (16000 / (3 # 2)) + 1)
  ∧ calculatedWidth (Some 2%Q) = Math_round (16000 / 2)
  ∧ td_calculatedWidth (templateData Sample.stub None (Some (3 # 2)) Sample.settings)
    = td_calculatedWidth (templateData Sample.titled None (Some (6 # 4)) Sample.caching).
Proof.
  destruct calculatedWidth_spec as (Hnear & Hexact & _ & _ & Hsame).
  split; [|split].
  - apply Hnear; reflexivity.
  - apply Hexact; reflexivity.
  - apply Hsame. reflexivity.
Defined.

(** With caching enabled and the favicon of the URL in the cache, the
    cached value is returned after the two cache reads. *)
Lemma getFavicon_cached_witness :
  getFavicon string Sample.createParser Sample.getHtmlByElectron
    Sample.getHtmlByRequest string Sample.parseFromString string Sample.new_URL
    Sample.parser_getFavicon Sample.url Sample.caching false Sample.cached
  = (Resolved (VString "https://example.com/icon.png"),
     World (cache Sample.cached) [CacheGet Sample.url; CacheHas Sample.url] 0).
Proof.
  apply (getFavicon_cached string Sample.createParser Sample.getHtmlByElectron
           Sample.getHtmlByRequest string Sample.parseFromString string Sample.new_URL
           Sample.parser_getFavicon Sample.url Sample.caching false Sample.cached).
  - reflexivity.
  - reflexivity.
Defined.

(** With caching disabled the result is the same with the empty cache and
    with the cache that knows the URL, and that cache is left as it is. *)
Lemma getFavicon_without_cache_witness :
  (getFavicon string Sample.createParser Sample.getHtmlByElectron
     Sample.getHtmlByRequest string Sample.parseFromString string Sample.new_URL
     Sample.parser_getFavicon Sample.url Sample.settings false Sample.w0).1
  = (getFavicon string Sample.createParser Sample.getHtmlByElectron
       Sample.getHtmlByRequest string Sample.parseFromString string Sample.new_URL
       Sample.parser_getFavicon Sample.url Sample.settings false Sample.cached).1
  ∧ cache (getFavicon string Sample.createParser Sample.getHtmlByElectron
             Sample.getHtmlByRequest string Sample.parseFromString string Sample.new_URL
             Sample.parser_getFavicon Sample.url Sample.settings false Sample.cached).2
    = cache Sample.cached.
Proof.
  destruct (getFavicon_without_cache string Sample.createParser Sample.getHtmlByElectron
              Sample.getHtmlByRequest string Sample.parseFromString string
              Sample.new_URL Sample.parser_getFavicon Sample.url Sample.settings false)
    as [Hsame Hframe].
  - reflexivity.
  - split; [apply Hsame | apply Hframe].
Defined.

(** The dummy block of [embedUrl] is rendered once, with aspect ratio 1, and
    nothing else happens. *)
Lemma dummy_embed_rendered_verbatim_witness :
  handleEmbedCodeBlock string Sample.createParser Sample.getHtmlByElectron
    Sample.getHtmlByRequest string Sample.parseFromString string Sample.new_URL
    Sample.parser_getFavicon Sample.SPINNER (λ _, Sample.stub) (λ source, source)
    Sample.imageFileToBase64 Sample.getImageDimensions Sample.locationOf "source" 7
    Sample.settings Sample.w0
  = (Resolved tt,
     World ∅
       [Rendered 7 0
          (templateData Sample.stub (Some Sample.SPINNER) (Some 1%Q) Sample.settings)]
       1).
Proof.
  apply (dummy_embed_rendered_verbatim string Sample.createParser
           Sample.getHtmlByElectron Sample.getHtmlByRequest string
           Sample.parseFromString string Sample.new_URL Sample.parser_getFavicon
           Sample.SPINNER (λ _, Sample.stub) (λ source, source)
           Sample.imageFileToBase64 Sample.getImageDimensions Sample.locationOf
           "source" 7 Sample.settings Sample.w0 ("Fetching " +:+ Sample.url)).
  - reflexivity.
  - reflexivity.
  - reflexivity.
  - reflexivity.
Defined.

(** ** The further properties at the sample note *)

(** Deleting the second block of the sample note leaves the lines around
    it. *)
Lemma deleteButtonClicked_removes_section_witness :
  ∃ newContent,
    deleteButtonClicked 7 Note.ctx Note.vault Sample.w0
    = (Resolved (<[Note.path := newContent]> Note.vault),
       record_event
         (ShowNotice (PayloadText "Embed block deleted") "Link Embed - Delete" "success")
         Sample.w0)
    ∧ split_lines newContent
      = ["# Links"; "  ```embed"; "  url: " +:+ quote +:+ Sample.url +:+ quote; "  ```";
         "# Again"; "The end"].
Proof.
  pose proof (deleteButtonClicked_removes_section 7 Note.ctx Note.vault Sample.w0
                Note.content Note.second eq_refl eq_refl) as H.
  cbv zeta in H. destruct H as (newContent & Hrun & Hkept & _).
  exists newContent. split; [exact Hrun|].
  rewrite Hkept; [reflexivity|]. vm_compute. discriminate.
Defined.

(** The copy button on the second block of the sample note, with the
    clipboard that takes the text of that block and no other. *)
Lemma copyButtonClicked_copies_section_witness :
  ∃ code w',
    copyButtonClicked Note.clipboard 7 Note.ctx Note.vault Sample.w0
    = (Resolved (Some code), w')
    ∧ split_lines Note.content
      = take 5 (split_lines Note.content) ++ split_lines code
        ++ drop 8 (split_lines Note.content)
    ∧ length (shown_notices (log w')) = 1%nat
    ∧ w' = record_event
             match Note.clipboard code with
             | Resolved _ =>
                 ShowNotice (PayloadText "Embed code copied to clipboard")
                   "Link Embed - Copy" "success"
             | Rejected error =>
                 ShowNotice (payload_of "Error copying to clipboard: " error)
                   "Link Embed - Copy" "error"
             end
             (record_event (ClipboardWriteText code) Sample.w0).
Proof.
  apply (copyButtonClicked_copies_section Note.clipboard 7 Note.ctx Note.vault
           Sample.w0 Note.content Note.second).
  - reflexivity.
  - reflexivity.
  - simpl. lia.
  - vm_compute. lia.
Defined.

(** Refreshing the second block of the sample note: the parser [backup]
    succeeds, and the text that is replaced starts at offset 8 of the note,
    where the first of the two equal blocks is. *)
Lemma refreshEmbed_replaces_first_occurrence_witness :
  ∃ a b w',
    Note.content = a +:+ sectionText Note.content Note.second +:+ b
    ∧ String.length a = 8%nat
    ∧ refreshEmbed string Sample.createParser Sample.parser_parse Sample.markdownTemplate
        Sample.metadataTemplate Sample.url 7 Note.ctx Sample.settings Note.vault Sample.w0
      = Some (Resolved
                (true,
                 <[Note.path :=
                     a +:+ getSubstitution (sectionText Note.content Note.second) a b
                             (indent_lines
                                (indentation_of (sectionText Note.content Note.second))
                                (generateEmbedMarkdown Sample.markdownTemplate
                                   Sample.metadataTemplate Sample.example Sample.settings
                                   "backup"))
                     +:+ b]> Note.vault),
              w').
Proof.
  pose proof (refreshEmbed_replaces_first_occurrence string Sample.createParser
                Sample.parser_parse Sample.markdownTemplate Sample.metadataTemplate
                Sample.url 7 Note.ctx Sample.settings Note.vault Sample.w0 Note.content
                Note.second 1%nat "backup" Sample.example eq_refl eq_refl eq_refl eq_refl)
    as H.
  cbv zeta in H. destruct H as (a & b & w' & Hcontent & Hfirst & Hrun).
  - intros j pj Hj Hpj. destruct j as [|j]; [|lia].
    injection Hpj as <-. eexists. reflexivity.
  - exists a, b, w'. split; [exact Hcontent|]. split; [|exact Hrun].
    apply indexOf_found in Hfirst.
    assert (Js.indexOf Note.content (sectionText Note.content Note.second) 0 = 8) as Hat
      by (vm_compute; reflexivity).
    change (Z.of_nat 0) with 0 in Hfirst. rewrite Hat in Hfirst. lia.
Defined.

(** A price in the new embed. *)
Lemma refresh_replacement_patterns_witness :
  replace_first ("# " +:+ "old" +:+ " end") "old" "new" = "# " +:+ "new" +:+ " end"
  ∧ replace_first ("# " +:+ "old" +:+ " end") "old" ("US" +:+ "$$" +:+ "5")
    = "# " +:+ ("US" +:+ "$" +:+ "5") +:+ " end"
  ∧ replace_first ("# " +:+ "old" +:+ " end") "old" ("US" +:+ "$&" +:+ "5")
    = "# " +:+ ("US" +:+ "old" +:+ "5") +:+ " end".
Proof.
  destruct (refresh_replacement_patterns "# " "old" " end" "new" "5") as (Hplain & _).
  - apply first_from_indexOf. reflexivity.
  - vm_compute. intros H. repeat (apply elem_of_cons in H as [H|H]; [discriminate|]).
    by apply elem_of_nil in H.
  - vm_compute. intros H. repeat (apply elem_of_cons in H as [H|H]; [discriminate|]).
    by apply elem_of_nil in H.
  - split; [exact Hplain|].
    apply (refresh_replacement_patterns "# " "old" " end" "US" "5").
    + apply first_from_indexOf. reflexivity.
    + vm_compute. intros H. repeat (apply elem_of_cons in H as [H|H]; [discriminate|]).
      by apply elem_of_nil in H.
    + vm_compute. intros H. repeat (apply elem_of_cons in H as [H|H]; [discriminate|]).
      by apply elem_of_nil in H.
Defined.

(** The block of the sample note is indented by two spaces, and so is
    every line of the embed that replaces it. *)
Lemma refresh_keeps_indentation_witness :
  indentation_of Note.block = "  "
  ∧ split_lines (indent_lines (indentation_of Note.block)
                   (generateEmbedMarkdown Sample.markdownTemplate Sample.metadataTemplate
                      Sample.example Sample.settings "backup"))
    = (λ line, "  " +:+ line)
      <$> split_lines (Js.trimEnd (generateEmbedMarkdown Sample.markdownTemplate
                                     Sample.metadataTemplate Sample.example
                                     Sample.settings "backup")).
Proof.
  apply (refresh_keeps_indentation "  "
           ("```embed" +:+ newline
            +:+ "  url: " +:+ quote +:+ Sample.url +:+ quote +:+ newline +:+ "  ```")).
  - repeat (constructor; [split; [reflexivity | discriminate]|]). constructor.
  - reflexivity.
Defined.

(** With the parsers [local] (which fails) and [backup], the link has the
    title that [backup] gives. *)
Lemma convertUrlToMarkdownLink_first_title_witness :
  ∃ w',
    convertUrlToMarkdownLink string Sample.createParser Sample.parser_parse Sample.url
      ["local"; "backup"] Sample.settings Sample.w0
    = Some (Resolved (Some "[Example](https://example.com)"), w')
    ∧ instantiated (log w') = ["backup"; "local"].
Proof.
  apply (convertUrlToMarkdownLink_first_title string Sample.createParser
           Sample.parser_parse Sample.url ["local"; "backup"] Sample.settings Sample.w0
           1%nat "backup" Sample.example).
  - reflexivity.
  - reflexivity.
  - intros j pj Hj Hpj. destruct j as [|j]; [|lia].
    injection Hpj as <-. eexists. reflexivity.
Defined.

(** The command on the sample sentence, with the parser [backup]. *)
Lemma handleCreateMarkdownLinkCommand_replaces_selection_witness :
  ∃ w',
    handleCreateMarkdownLinkCommand string Sample.createParser Sample.parser_parse
      (λ _, true) Note.sentence (Resolved Note.selected) Sample.settings
      (Some ["backup"]) Sample.w0
    = Some (Resolved "See [Example](https://example.com) today", w').
Proof.
  apply (handleCreateMarkdownLinkCommand_replaces_selection string Sample.createParser
           Sample.parser_parse (λ _, true) "See " Sample.url " today" Note.selected
           Sample.settings (Some ["backup"]) Sample.w0 0%nat "backup" Sample.example).
  - reflexivity.
  - reflexivity.
  - reflexivity.
  - reflexivity.
  - reflexivity.
  - intros j pj Hj. lia.
  - discriminate.
Defined.

(** With the parsers [local] (which fails) and [remote] (which cannot be
    created), the sample note keeps its dummy block, and the error of
    [remote] is shown twice. *)
Lemma embedUrl_failure_keeps_dummy_witness :
  ∃ w',
    embedUrl_resolve string Sample.createParser Sample.parser_parse
      Sample.markdownTemplate Sample.metadataTemplate Sample.url ["local"; "remote"]
      Sample.settings "unknown:1" Sample.X Sample.fullText Sample.w0
    = Some (Resolved Sample.fullText, w')
    ∧ shown_notices (log w')
      = [PayloadError "Unknown parser: remote"; PayloadError "Unknown parser: remote";
         PayloadError "Network error"].
Proof.
  destruct (embedUrl_failure_keeps_dummy string Sample.createParser Sample.parser_parse
              Sample.markdownTemplate Sample.metadataTemplate Sample.url
              ["local"; "remote"] Sample.settings "unknown:1" Sample.X Sample.fullText
              Sample.w0) as (e & name & w' & Hrun & Hlast & Hout & Hshown & _).
  - discriminate.
  - intros name Hin. apply elem_of_cons in Hin as [->|Hin]; [eexists; reflexivity|].
    apply list_elem_of_singleton in Hin as ->. eexists. reflexivity.
  - exists w'. split; [exact Hrun|]. rewrite Hshown.
    injection Hlast as <-. vm_compute in Hout. injection Hout as <-. reflexivity.
Defined.

(** With caching disabled, rendering a block leaves a cache that knows the
    favicon as it is. *)
Lemma handleEmbedCodeBlock_without_cache_witness :
  cache (handleEmbedCodeBlock string Sample.createParser Sample.getHtmlByElectron
           Sample.getHtmlByRequest string Sample.parseFromString string Sample.new_URL
           Sample.parser_getFavicon Sample.SPINNER (λ _, Sample.titled) (λ source, source)
           Sample.imageFileToBase64 Sample.getImageDimensions Sample.locationOf
           "source" 7 Sample.settings Sample.cached).2
  = cache Sample.cached
  ∧ cache_accesses
      (log (handleEmbedCodeBlock string Sample.createParser Sample.getHtmlByElectron
              Sample.getHtmlByRequest string Sample.parseFromString string
              Sample.new_URL Sample.parser_getFavicon Sample.SPINNER (λ _, Sample.titled)
              (λ source, source) Sample.imageFileToBase64 Sample.getImageDimensions
              Sample.locationOf "source" 7 Sample.settings Sample.cached).2)
    = [].
Proof.
  apply (handleEmbedCodeBlock_without_cache string Sample.createParser
           Sample.getHtmlByElectron Sample.getHtmlByRequest string Sample.parseFromString
           string Sample.new_URL Sample.parser_getFavicon Sample.SPINNER
           (λ _, Sample.titled) (λ source, source) Sample.imageFileToBase64
           Sample.getImageDimensions Sample.locationOf "source" 7 Sample.settings
           Sample.cached).
  reflexivity.
Defined.

(** With favicons disabled, rendering a block without a favicon fetches
    nothing. *)
Lemma handleEmbedCodeBlock_favicon_disabled_witness :
  ∃ new,
    log (handleEmbedCodeBlock string Sample.createParser Sample.getHtmlByElectron
           Sample.getHtmlByRequest string Sample.parseFromString string Sample.new_URL
           Sample.parser_getFavicon Sample.SPINNER (λ _, Sample.titled) (λ source, source)
           Sample.imageFileToBase64 Sample.getImageDimensions Sample.locationOf
           "source" 7 Note.noFavicons Sample.w0).2
    = new ++ []
    ∧ Forall (λ e, is_fetch_event e = false) new
    ∧ Forall (λ favicon, favicon = Some (VString "")) (rendered_favicons new).
Proof.
  apply (handleEmbedCodeBlock_favicon_disabled string Sample.createParser
           Sample.getHtmlByElectron Sample.getHtmlByRequest string Sample.parseFromString
           string Sample.new_URL Sample.parser_getFavicon Sample.SPINNER
           (λ _, Sample.titled) (λ source, source) Sample.imageFileToBase64
           Sample.getImageDimensions Sample.locationOf "source" 7 Note.noFavicons
           Sample.w0).
  reflexivity.
Defined.

(** The decoration cache knows the favicon of the token. *)
Lemma computeAsyncDecorations_from_cache_witness :
  ∃ placed,
    computeAsyncDecorations string Sample.createParser Sample.getHtmlByElectron
      Sample.getHtmlByRequest string Sample.parseFromString string Sample.new_URL
      Sample.parser_getFavicon Note.readingMode Sample.settings [Note.token]
      Note.decoCache Sample.w0
    = (Resolved (Note.decoCache, Some placed), Sample.w0)
    ∧ Forall2 (λ token p,
                 placed_from p = token_from token
                 ∧ placed_to p = token_from token
                 ∧ Note.decoCache !! token_value token = Some (deco p))
        [Note.token] placed.
Proof.
  apply (computeAsyncDecorations_from_cache string Sample.createParser
           Sample.getHtmlByElectron Sample.getHtmlByRequest string Sample.parseFromString
           string Sample.new_URL Sample.parser_getFavicon Note.readingMode Sample.settings
           [Note.token] Note.decoCache Sample.w0).
  constructor; [|constructor]. exists Note.icon. reflexivity.
Defined.

(** In the sample link the bracket that closes the alias is at offset 8;
    the bracket that opens it is the first character, not the one of the
    inner pair. *)
Lemma findOpenParen_matches_witness :
  findOpenParen Note.aliased 8 = Some 0.
Proof.
  destruct (findOpenParen_matches Note.aliased 8 eq_refl ltac:(vm_compute; lia))
    as [[Hrun _]|(r & _ & Hrun & _)].
  - vm_compute in Hrun. discriminate.
  - reflexivity.
Defined.

(** A block whose note is not in the vault. *)
Lemma button_handlers_without_note_witness :
  ∃ payload,
    deleteButtonClicked 7 Note.ctx ∅ Sample.w0
    = (Resolved ∅,
       record_event (ShowNotice payload "Link Embed - Delete" "error") Sample.w0)
    ∧ copyButtonClicked (λ _, Resolved tt) 7 Note.ctx ∅ Sample.w0
      = (Resolved None,
         record_event (ShowNotice payload "Link Embed - Copy" "error") Sample.w0).
Proof.
  apply (button_handlers_without_note (λ _, Resolved tt) 7 Note.ctx ∅ Sample.w0).
  left. reflexivity.
Defined.

(** ** Where the specification and the code part *)

(** Against C2 as stated: the only parser gives up by throwing the string
    [timeout]; [tryParsers] rejects with that very string, the error of the
    last parser itself. What is rejected is no [Error] object, so it is no
    error of another class wrapped around the error of the parser. *)
Lemma rejection_is_the_parser_error :
  ∃ w', tryParsers string Sample.createParser Sample.parser_parse Sample.url
          ["plain"] Sample.settings "unknown:1" Sample.w0
        = Some (Rejected (OtherValue "timeout"), w')
    ∧ parser_outcome string Sample.createParser Sample.parser_parse Sample.url
        Sample.settings "unknown:1" "plain" = Rejected (OtherValue "timeout")
    ∧ ∀ message, OtherValue "timeout" ≠ ErrorObject message.
Proof.
  eexists. split; [by vm_compute|]. split; [reflexivity|]. discriminate.
Qed.

(** Against C5 as stated: neither fetch gives the HTML of the page. The
    code takes this for a failure of the fetch (in debug mode it writes
    [Failed to fetch HTML for favicon] to the console) and [getFavicon]
    resolves to the empty string, but nothing is thrown or caught and no
    notice is made or shown: the console line is the only effect. *)
Lemma missing_html_is_not_notified :
  fetchedHtml string Sample.getHtmlByElectron (λ _ _ _, Resolved None) "local" true
    Sample.url = Resolved None
  ∧ ∃ w', getFavicon string Sample.createParser Sample.getHtmlByElectron
            (λ _ _ _, Resolved None) string Sample.parseFromString string
            Sample.new_URL Sample.parser_getFavicon Sample.url Sample.settings true
            Sample.w0
          = (Resolved (VString ""), w')
      ∧ log w' = [ConsoleLog "[Link Embed] Failed to fetch HTML for favicon:";
                  HtmlByRequest Sample.url; HtmlByElectron Sample.url;
                  ParserCreated "local"]
      ∧ shown_notices (log w') = []
      ∧ created_notices (log w') = [].
Proof.
  split; [reflexivity|]. eexists. split; [by vm_compute|].
  split; [reflexivity|]. split; reflexivity.
Qed.


(** Against C6 as stated: the width is not [round(1600 / aspectRatio)]; for
    the aspect ratio 1 it is 16000. *)
Lemma width_is_not_round_1600 :
  ¬ (∀ r, (0 < r)%Q → calculatedWidth (Some r) = Math_round (1600 / r)).
Proof.
  intros H. specialize (H 1%Q eq_refl). vm_compute in H. discriminate.
Qed.

(** Against C9 as stated: a block with the spinner as image and a
    description that starts with [Fetching ], but with another title, is not
    taken for a stub; its favicon is fetched. *)
Lemma titled_stub_is_enriched :
  EmbedInfo.image Sample.titled = Some Sample.SPINNER
  ∧ (∃ d, EmbedInfo.description Sample.titled = Some d
          ∧ Js.startsWith d "Fetching " = true)
  ∧ ∃ w', handleEmbedCodeBlock string Sample.createParser Sample.getHtmlByElectron
            Sample.getHtmlByRequest string Sample.parseFromString string Sample.new_URL
            Sample.parser_getFavicon Sample.SPINNER (λ _, Sample.titled) (λ source, source)
            Sample.imageFileToBase64 Sample.getImageDimensions Sample.locationOf
            "source" 7 Sample.settings Sample.w0
          = (Resolved tt, w')
      ∧ instantiated (log w') = ["local"]
      ∧ existsb is_enrichment_event (log w') = true.
Proof.
  split; [reflexivity|]. split; [eexists; split; reflexivity|].
  eexists. split; [by vm_compute|]. split; by vm_compute.
Qed.
